(** * torch3d: the IoU metric and the shape behaviour of the geometric layers

    Embedding of [torch3d/metrics/iou.py] and [torch3d/nn/layers.py].

    Conventions.
    - A Python exception is the value [None] of the [option] monad.
    - The entries of float tensors (the IoU counters, the squared distances
      and weights of the feature propagation) are exact rationals [Q] in
      the modules [IoU] and [FeaturePropagation]; what float division
      yields on a zero divisor is kept as the non-finite values of
      [pyfloat], which is what [torch.isfinite] tests.  Rounding is not
      modelled in these modules.
    - Where the result depends on how float32 rounds (the counters of the
      metric when batches are split, joined or reordered), the counters
      are float32 values: module [IoU32], over the IEEE 754 specification
      [SpecFloat] of the standard library.
    - A tensor given by its entries is contiguous, and a batch is given by
      its items, so that a batch has a class dimension only if it has an
      item.
    - Integer tensors (class labels, neighbour indices) hold [Z].
    - In the layers a tensor is represented by its shape; strides are not
      modelled. *)

From Stdlib Require Import List ZArith QArith Qminmax Lia Lqa Bool Arith.
From Stdlib Require Import Permutation SpecFloat.
Import ListNotations.

(** ** The exception monad *)

Definition bind {A B : Type} (m : option A) (f : A -> option B) : option B :=
  match m with
  | Some a => f a
  | None => None
  end.

Notation "x <- m ;; k" := (bind m (fun x => k))
  (at level 61, m at next level, right associativity).
Notation "' pat <- m ;; k" := (bind m (fun x => match x with pat => k end))
  (at level 61, pat pattern, m at next level, right associativity).

Fixpoint mapM {A B : Type} (f : A -> option B) (l : list A) : option (list B) :=
  match l with
  | [] => Some []
  | a :: l' => b <- f a ;; bs <- mapM f l' ;; Some (b :: bs)
  end.


(** ** One-dimensional tensors *)

Module Tensor1.

(** Elementwise binary operation on two 1-D tensors with PyTorch's
    broadcasting: equal sizes are combined pointwise, a tensor of size 1 is
    stretched, any other pair of sizes raises. *)
Fixpoint zip_with {A B C : Type} (f : A -> B -> C) (a : list A) (b : list B)
  : list C :=
  match a, b with
  | x :: a', y :: b' => f x y :: zip_with f a' b'
  | _, _ => []
  end.

Definition broadcast2 {A B C : Type} (f : A -> B -> C)
           (a : list A) (b : list B) : option (list C) :=
  if Nat.eqb (length a) (length b) then Some (zip_with f a b)
  else match a, b with
       | [x], _ => Some (map (f x) b)
       | _, [y] => Some (map (fun x => f x y) a)
       | _, _ => None
       end.

(** [t == k] for an integer tensor and a Python int. *)
Definition eq_scalar (t : list Z) (k : Z) : list bool :=
  map (fun v => Z.eqb v k) t.

(** [torch.sum] of a boolean tensor: the number of [True] entries. *)
Fixpoint sum_bool (t : list bool) : Z :=
  match t with
  | [] => 0
  | b :: t' => (if b then 1 else 0) + sum_bool t'
  end.

(** [torch.sum] of a tensor of rationals. *)
Fixpoint torch_sum (t : list Q) : Q :=
  match t with
  | [] => 0
  | v :: t' => v + torch_sum t'
  end.

(** [t[k] += v] for a float tensor [t] and an integer [v]; an index past
    the end raises [IndexError].  The sum is the exact one; [IoU32.iadd_at]
    is the float32 addition. *)
Fixpoint iadd_at (t : list Q) (k : nat) (v : Z) : option (list Q) :=
  match t, k with
  | [], _ => None
  | c :: t', O => Some ((c + inject_Z v) :: t')
  | c :: t', S k' => r <- iadd_at t' k' v ;; Some (c :: r)
  end.

End Tensor1.

(** ** torch3d/metrics/iou.py *)

Module IoU.
Import Tensor1.

(** A Python float as far as the metric can tell one from another: a finite
    value or one of the three non-finite ones. *)
Inductive pyfloat : Type :=
| Fin (q : Q)
| PInf
| NInf
| NaN.

Definition isfinite (v : pyfloat) : bool :=
  match v with
  | Fin _ => true
  | _ => false
  end.

(** Division of two finite floats: a zero divisor gives [nan] for [0/0] and
    an infinity otherwise. *)
Definition fdiv (a b : Q) : pyfloat :=
  if Qeq_bool b 0 then
    if Qeq_bool a 0 then NaN
    else if Qle_bool 0 a then PInf else NInf
  else Fin (a / b).

(** The attributes of an [IoU] object. *)
Record t : Type := mk {
  num_classes : nat;
  smooth : Q;
  inter : list Q;
  union : list Q
}.

(** [torch.zeros(n) + s] *)
Definition zeros_plus (n : nat) (s : Q) : list Q :=
  map (fun z => z + s) (repeat 0 n).

Definition reset (self : t) : t :=
  {| num_classes := num_classes self;
     smooth := smooth self;
     inter := zeros_plus (num_classes self) (smooth self);
     union := zeros_plus (num_classes self) (smooth self) |}.

(** [IoU(num_classes, smooth)] *)
Definition init (n : nat) (s : Q) : t :=
  reset {| num_classes := n; smooth := s; inter := []; union := [] |}.

(** *** [torch.argmax(x, dim=1)]

    A prediction tensor of shape [B, C, ...] is a list of [B] items, each a
    list of [C] rows of scores, the trailing dimensions flattened in
    row-major order.  For each position the index of the first maximal
    score is returned. *)
Definition argmax_step (c : Z) (best : list (Q * Z)) (row : list Q)
  : list (Q * Z) :=
  zip_with (fun b v => if Qle_bool v (fst b) then b else (v, c)) best row.

Fixpoint argmax_rows (c : Z) (best : list (Q * Z)) (rows : list (list Q))
  : list (Q * Z) :=
  match rows with
  | [] => best
  | r :: rows' => argmax_rows (c + 1) (argmax_step c best r) rows'
  end.

(** One batch item; an empty class dimension raises. *)
Definition argmax_item (rows : list (list Q)) : option (list Z) :=
  match rows with
  | [] => None
  | r :: rows' => Some (map snd (argmax_rows 1 (map (fun v => (v, 0%Z)) r) rows'))
  end.

(** [torch.argmax(x, dim=1)] on the items of the batch.  A batch without
    items returns the empty tensor, as the code does when the class
    dimension is not empty; the error of [argmax] on a tensor of shape
    [0, 0, ...] cannot be told from it here. *)
Definition argmax_dim1 (x : list (list (list Q))) : option (list (list Z)) :=
  mapM argmax_item x.

(** [.view(-1)] of a contiguous tensor given by its items.  (The error of
    [view] on a tensor whose strides do not allow it is not represented.) *)
Definition view_flat {A : Type} (x : list (list A)) : list A := concat x.

(** *** [update] *)

(** One turn of the loop [for k in range(self.num_classes)]. *)
Definition update_class (x y : list Z) (self : t) (k : nat) : option t :=
  let a := eq_scalar x (Z.of_nat k) in
  let b := eq_scalar y (Z.of_nat k) in
  ab <- broadcast2 andb a b ;;
  inter' <- iadd_at (inter self) k (sum_bool ab) ;;
  aob <- broadcast2 orb a b ;;
  union' <- iadd_at (union self) k (sum_bool aob) ;;
  Some {| num_classes := num_classes self; smooth := smooth self;
          inter := inter'; union := union' |}.

Fixpoint update_loop (x y : list Z) (self : t) (ks : list nat) : option t :=
  match ks with
  | [] => Some self
  | k :: ks' => s <- update_class x y self k ;; update_loop x y s ks'
  end.

(** [None] when the call raises: on an empty class dimension in [argmax],
    or in the first turn of the loop, before a counter is written, when the
    sizes of [x] and [y] do not broadcast. *)
Definition update (self : t) (x : list (list (list Q))) (y : list (list Z))
  : option t :=
  xl <- argmax_dim1 x ;;
  let x := view_flat xl in
  let y := view_flat y in
  update_loop x y self (seq 0 (num_classes self)).

(** *** [score] and [mean] *)

(** [value[torch.isfinite(value)]]: the entries that [isfinite] accepts, in
    their order. *)
Fixpoint select_finite (value : list pyfloat) : list Q :=
  match value with
  | [] => []
  | Fin q :: value' => q :: select_finite value'
  | _ :: value' => select_finite value'
  end.

(** [torch.mean] of a 1-D tensor; the mean of no element is [nan]. *)
Definition torch_mean (v : list Q) : pyfloat :=
  match v with
  | [] => NaN
  | _ => Fin (torch_sum v / inject_Z (Z.of_nat (length v)))
  end.

Definition score (self : t) : option pyfloat :=
  value <- broadcast2 fdiv (inter self) (union self) ;;
  Some (torch_mean (select_finite value)).

Definition mean (self : t) : option pyfloat := score self.

(** A sequence of [update] calls. *)
Fixpoint updates (self : t)
         (batches : list (list (list (list Q)) * list (list Z))) : option t :=
  match batches with
  | [] => Some self
  | (x, y) :: rest => s <- update self x y ;; updates s rest
  end.

End IoU.

(** ** Vocabulary for stating the properties of the metric *)

Module IoUSpec.
Import Tensor1 IoU.

(** The class invariant that [__init__] and [reset] establish: each counter
    tensor has [num_classes] entries. *)
Definition wf (s : t) : Prop :=
  length (inter s) = num_classes s /\ length (union s) = num_classes s.

(** A batch whose predictions yield as many labels as there are targets:
    [update] neither raises nor broadcasts on it. *)
Definition well_shaped (x : list (list (list Q))) (y : list (list Z)) : bool :=
  match argmax_dim1 x with
  | Some xl => Nat.eqb (length (view_flat xl)) (length (view_flat y))
  | None => false
  end.

(** count(pred == k AND truth == k) and count(pred == k OR truth == k) over
    flattened label sequences of equal length. *)
Definition count_and (x y : list Z) (k : nat) : Z :=
  sum_bool (zip_with andb (eq_scalar x (Z.of_nat k)) (eq_scalar y (Z.of_nat k))).

Definition count_or (x y : list Z) (k : nat) : Z :=
  sum_bool (zip_with orb (eq_scalar x (Z.of_nat k)) (eq_scalar y (Z.of_nat k))).

(** [add_counts f i l] adds [f i], [f (i+1)], ... to the entries of [l]. *)
Fixpoint add_counts (f : nat -> Z) (i : nat) (l : list Q) : list Q :=
  match l with
  | [] => []
  | c :: l' => (c + inject_Z (f i))%Q :: add_counts f (S i) l'
  end.

(** The per-class ratio of class [k], read by index. *)
Definition ratio (s : t) (k : nat) : pyfloat :=
  fdiv (nth k (inter s) 0) (nth k (union s) 0).

(** The spec's wording of the score: the classes whose ratio is finite, and
    the arithmetic mean of their ratios. *)
Definition finite_classes (s : t) : list nat :=
  filter (fun k => isfinite (ratio s k)) (seq 0 (num_classes s)).

Definition ratio_value (s : t) (k : nat) : Q :=
  (nth k (inter s) 0 / nth k (union s) 0)%Q.

Definition spec_score (s : t) : pyfloat :=
  match finite_classes s with
  | [] => NaN
  | ks => Fin (torch_sum (map (ratio_value s) ks)
               / inject_Z (Z.of_nat (length ks)))
  end.



(** The scenario of the spec: two classes, four pixels, every pixel scored
    in favour of class 1; once as one item of four positions (shape
    [1, 2, 4]) and once as four items of one position (shape [4, 2]). *)
Definition scenario_scores : list (list (list Q)) :=
  [[[0; 0; 0; 0]; [1; 1; 1; 1]]].
Definition scenario_targets : list (list Z) := [[1; 1; 0; 0]]%Z.
Definition scenario_scores_rows : list (list (list Q)) :=
  [[[0]; [1]]; [[0]; [1]]; [[0]; [1]]; [[0]; [1]]].
Definition scenario_targets_rows : list (list Z) := [[1]; [1]; [0]; [0]]%Z.

End IoUSpec.

(** ** Vocabulary for batches of the metric *)

Module IoUBatch.
Import Tensor1 IoU IoUSpec.

(** A batch as [update] takes it: scores and targets. *)
Definition batch : Type := (list (list (list Q)) * list (list Z))%type.

(** The number of entries of a label sequence that equal the class [k]. *)
Definition occurrences (x : list Z) (k : nat) : Z :=
  sum_bool (eq_scalar x (Z.of_nat k)).

Definition well_shaped_batch (b : batch) : bool :=
  well_shaped (fst b) (snd b).

(** Every pixel of the batch is predicted as its target. *)
Definition perfect (b : batch) : Prop :=
  exists xl, argmax_dim1 (fst b) = Some xl /\ view_flat xl = view_flat (snd b).

(** The score of class [c] at position [j] of one batch item. *)
Definition score_at (rows : list (list Q)) (c j : nat) : Q :=
  nth j (nth c rows []) 0.

(** What [argmax] has to return at position [j] of an item of [C] rows: a
    class below [C] whose score no class exceeds and no earlier class
    reaches. *)
Definition first_maximum (rows : list (list Q)) (j : nat) (label : Z) : Prop :=
  (0 <= label < Z.of_nat (length rows))%Z
  /\ (forall c, (c < length rows)%nat ->
                score_at rows c j <= score_at rows (Z.to_nat label) j)
  /\ (forall c, (c < Z.to_nat label)%nat ->
                score_at rows c j < score_at rows (Z.to_nat label) j).

(** The running maxima after the rows [rows]: at each position the value is
    the score of the recorded class, which is the first maximum so far. *)
Definition best_so_far (rows : list (list Q)) (j : nat) (b : Q * Z) : Prop :=
  first_maximum rows j (snd b)
  /\ fst b = score_at rows (Z.to_nat (snd b)) j.

End IoUBatch.

(** ** float32 arithmetic

    The counters of the metric are float32 tensors.  Where a property
    depends on how float32 rounds, the counters are values of the IEEE 754
    specification of the standard library, at 24 bits of precision. *)

Module Float32.

Definition prec : Z := 24.
Definition emax : Z := 128.

Definition t : Type := spec_float.

Definition zero : t := S754_zero false.

Definition add : t -> t -> t := SFadd prec emax.

(** The float32 nearest to an int64: what adding an integer tensor to a
    float32 tensor makes of the integer. *)
Definition of_int (n : Z) : t := binary_normalize prec emax n 0 false.

(** The float32 nearest to a Python float, which is a binary64 value. *)
Definition of_double (x : spec_float) : t :=
  match x with
  | S754_finite s m e => binary_round prec emax s m e
  | _ => x
  end.

(** [m] shifted left by [k >= 0] bits. *)
Definition sh (m : positive) (k : Z) : positive :=
  match k with
  | Zpos d => Pos.iter xO m d
  | _ => m
  end.

(** The float32 that holds a positive integer of at most 24 bits. *)
Definition canon (n : positive) : t :=
  S754_finite false (sh n (24 - Zpos (digits2_pos n)))
              (Zpos (digits2_pos n) - 24).

(** The Python floats [16777216.0], [1e-5] and [1e-6]. *)
Definition double_2p24 : spec_float :=
  S754_finite false 4503599627370496 (-28).
Definition double_1em5 : spec_float :=
  S754_finite false 5902958103587057 (-69).
Definition double_1em6 : spec_float :=
  S754_finite false 4722366482869645 (-72).

End Float32.

(** ** torch3d/metrics/iou.py, with float32 counters

    The same [reset] and [update], the counters being float32 values and
    [smooth] the Python float given to the constructor. *)

Module IoU32.
Import Tensor1.

Record t : Type := mk {
  num_classes : nat;
  smooth : spec_float;
  inter : list Float32.t;
  union : list Float32.t
}.

(** [torch.zeros(n) + s]: a float32 tensor plus a Python float. *)
Definition zeros_plus (n : nat) (s : spec_float) : list Float32.t :=
  map (fun z => Float32.add z (Float32.of_double s)) (repeat Float32.zero n).

Definition reset (self : t) : t :=
  {| num_classes := num_classes self;
     smooth := smooth self;
     inter := zeros_plus (num_classes self) (smooth self);
     union := zeros_plus (num_classes self) (smooth self) |}.

Definition init (n : nat) (s : spec_float) : t :=
  reset {| num_classes := n; smooth := s; inter := []; union := [] |}.

(** [t[k] += v] for a float32 tensor [t] and an int64 [v]. *)
Fixpoint iadd_at (t : list Float32.t) (k : nat) (v : Z)
  : option (list Float32.t) :=
  match t, k with
  | [], _ => None
  | c :: t', O => Some (Float32.add c (Float32.of_int v) :: t')
  | c :: t', S k' => r <- iadd_at t' k' v ;; Some (c :: r)
  end.

Definition update_class (x y : list Z) (self : t) (k : nat) : option t :=
  let a := eq_scalar x (Z.of_nat k) in
  let b := eq_scalar y (Z.of_nat k) in
  ab <- broadcast2 andb a b ;;
  inter' <- iadd_at (inter self) k (sum_bool ab) ;;
  aob <- broadcast2 orb a b ;;
  union' <- iadd_at (union self) k (sum_bool aob) ;;
  Some {| num_classes := num_classes self; smooth := smooth self;
          inter := inter'; union := union' |}.

Fixpoint update_loop (x y : list Z) (self : t) (ks : list nat) : option t :=
  match ks with
  | [] => Some self
  | k :: ks' => s <- update_class x y self k ;; update_loop x y s ks'
  end.

Definition update (self : t) (x : list (list (list Q))) (y : list (list Z))
  : option t :=
  xl <- IoU.argmax_dim1 x ;;
  let x := IoU.view_flat xl in
  let y := IoU.view_flat y in
  update_loop x y self (seq 0 (num_classes self)).

Fixpoint updates (self : t)
         (batches : list (list (list (list Q)) * list (list Z))) : option t :=
  match batches with
  | [] => Some self
  | (x, y) :: rest => s <- update self x y ;; updates s rest
  end.

(** The scores [x] are the entries of a tensor of shape [B, C, P] with at
    least one item and one class; the targets [y] are the entries of a
    tensor of shape [B', P'].  Tensors of these shapes can be concatenated
    along the batch dimension. *)
Definition scores_shape (C P : nat) (x : list (list (list Q))) : bool :=
  Nat.leb 1 (length x) && Nat.leb 1 C
  && forallb (fun item =>
                Nat.eqb (length item) C
                && forallb (fun row => Nat.eqb (length row) P) item) x.

Definition targets_shape (P' : nat) (y : list (list Z)) : bool :=
  forallb (fun row => Nat.eqb (length row) P') y.

(** A batch of scores [B, C, P] and targets [B', P'] with as many targets
    as predicted labels. *)
Definition shaped (C P P' : nat) (b : IoUBatch.batch) : bool :=
  scores_shape C P (fst b) && targets_shape P' (snd b)
  && Nat.eqb (length (fst b) * P) (length (snd b) * P').

(** The labels [update] predicts for the scores [x]. *)
Definition labels (x : list (list (list Q))) : list Z :=
  match IoU.argmax_dim1 x with
  | Some xl => IoU.view_flat xl
  | None => []
  end.

(** The number of targets of a run of batches. *)
Fixpoint pixels (bs : list IoUBatch.batch) : Z :=
  match bs with
  | [] => 0
  | b :: bs' => Z.of_nat (length (IoU.view_flat (snd b))) + pixels bs'
  end.

(** The counts a run of batches adds to inter[k] and to union[k]. *)
Fixpoint total_and (bs : list IoUBatch.batch) (k : nat) : Z :=
  match bs with
  | [] => 0
  | b :: bs' =>
      IoUSpec.count_and (labels (fst b)) (IoU.view_flat (snd b)) k
      + total_and bs' k
  end.

Fixpoint total_or (bs : list IoUBatch.batch) (k : nat) : Z :=
  match bs with
  | [] => 0
  | b :: bs' =>
      IoUSpec.count_or (labels (fst b)) (IoU.view_flat (snd b)) k
      + total_or bs' k
  end.

(** A counter tensor whose entry [k] is the float32 of the integer
    [n0 + f k]. *)
Definition counters (n0 : Z) (f : nat -> Z) (n : nat) : list Float32.t :=
  map (fun k => Float32.of_int (n0 + f k)) (seq 0 n).

End IoU32.

(** ** Shapes of tensors under the PyTorch operations the layers use

    The layers are built from learned sub-networks, so what can be said of
    [forward] whatever the weights is which tensors it accepts and the shape
    of what it returns.  A tensor is represented here by its [shape]; every
    operation is its shape rule, raising where PyTorch raises. *)

Module Torch.

Definition shape : Type := list nat.

Definition numel (s : shape) : nat := fold_right Nat.mul 1%nat s.

(** [x.shape[0]] *)
Definition shape0 (s : shape) : option nat := nth_error s 0.

(** [x.permute(d0, d1, ...)]: [dims] must list every dimension of [x] once. *)
Definition is_perm (dims : list nat) (n : nat) : bool :=
  Nat.eqb (length dims) n
  && forallb (fun i => existsb (Nat.eqb i) dims) (seq 0 n).

Definition permute (dims : list nat) (s : shape) : option shape :=
  if is_perm dims (length s) then mapM (nth_error s) dims else None.

(** [x.view(t0, t1, ...)], where one entry of [target] may be [-1].  The
    tensors the layers view are contiguous, or, for the dilated index of
    [XConv], a slice of whole rows whose last two dimensions still merge, so
    that the element count alone decides. *)
Definition view (target : list Z) (s : shape) : option shape :=
  if existsb (fun d => Z.ltb d (-1)) target then None
  else
    let newsize :=
      fold_right Nat.mul 1%nat
        (map Z.to_nat (filter (fun d => Z.leb 0 d) target)) in
    match length (filter (fun d => Z.eqb d (-1)) target) with
    | O => if Nat.eqb (numel s) newsize then Some (map Z.to_nat target)
           else None
    | S O =>
        if Nat.ltb 0 newsize && Nat.eqb (Nat.modulo (numel s) newsize) 0
        then Some (map (fun d => if Z.eqb d (-1)
                                 then Nat.div (numel s) newsize
                                 else Z.to_nat d) target)
        else None
    | _ => None
    end.

(** [list(x.shape) + [-1]] *)
Definition shape_plus_minus1 (s : shape) : list Z :=
  map Z.of_nat s ++ [-1]%Z.

(** [x.unsqueeze(d)] for [0 <= d <= x.dim()] *)
Definition unsqueeze (d : nat) (s : shape) : option shape :=
  if Nat.leb d (length s) then Some (firstn d s ++ 1%nat :: skipn d s)
  else None.

(** [x.squeeze(d)]: drops dimension [d] when its size is 1. *)
Definition squeeze (d : nat) (s : shape) : option shape :=
  match nth_error s d with
  | Some 1%nat => Some (firstn d s ++ skipn (S d) s)
  | Some _ => Some s
  | None => None
  end.

(** [x.repeat(r0, r1, ...)]: at least as many repeats as [x] has dimensions;
    [x] is given leading dimensions of size 1 to match. *)
Definition repeat (reps : list nat) (s : shape) : option shape :=
  if Nat.leb (length s) (length reps)
  then Some (Tensor1.zip_with Nat.mul reps
               (List.repeat 1%nat (length reps - length s) ++ s))
  else None.

(** Broadcasting of two shapes, aligned at the last dimension. *)
Fixpoint broadcast_rev (a b : list nat) : option (list nat) :=
  match a, b with
  | [], _ => Some b
  | _, [] => Some a
  | x :: a', y :: b' =>
      r <- broadcast_rev a' b' ;;
      if Nat.eqb x y then Some (x :: r)
      else if Nat.eqb x 1 then Some (y :: r)
      else if Nat.eqb y 1 then Some (x :: r)
      else None
  end.

Definition broadcast (a b : shape) : option shape :=
  r <- broadcast_rev (rev a) (rev b) ;; Some (rev r).

(** A 1-D tensor of size 0, which [torch.cat] leaves out. *)
Definition is_empty_1d (s : shape) : bool :=
  match s with
  | [n] => Nat.eqb n 0
  | _ => false
  end.

(** Two tensors of the same number of dimensions and of equal sizes except
    along [d], joined along [d]. *)
Definition cat_same (d : nat) (a b : shape) : option shape :=
  match nth_error a d, nth_error b d with
  | Some x, Some y =>
      if Nat.eqb (length a) (length b)
         && forallb (fun i => Nat.eqb i d
                              || Nat.eqb (nth i a 0%nat) (nth i b 0%nat))
                    (seq 0 (length a))
      then Some (firstn d a ++ (x + y)%nat :: skipn (S d) a)
      else None
  | _, _ => None
  end.

(** [torch.cat([a, b], dim=d)]: a 1-D tensor of size 0 is left out,
    whatever the other tensor is; otherwise the two are joined. *)
Definition cat (d : nat) (a b : shape) : option shape :=
  if is_empty_1d b then Some a
  else if is_empty_1d a then Some b
  else cat_same d a b.

(** [torch.cat([a, b], dim=-1)], the dimension counted on the tensor that
    is not left out. *)
Definition cat_last (a b : shape) : option shape :=
  if is_empty_1d b then Some a
  else if is_empty_1d a then Some b
  else match length a with
       | O => None
       | S n => cat_same n a b
       end.

(** [torch.max(x, dim=-1, keepdim=False)[0]]: the last dimension goes; an
    empty one has no maximum. *)
Definition max_last (s : shape) : option shape :=
  match rev s with
  | [] => Some []
  | O :: _ => None
  | _ :: r => Some (rev r)
  end.

(** [torch.sum(x, dim=-1, keepdim=True)] *)
Definition sum_last_keepdim (s : shape) : option shape :=
  match rev s with
  | [] => Some []
  | _ :: r => Some (rev (1%nat :: r))
  end.

(** [x[..., ::step]]: every [step]-th entry of the last dimension. *)
Definition slice_last_step (step : nat) (s : shape) : option shape :=
  match step, rev s with
  | O, _ => None
  | _, [] => None
  | _, n :: r => Some (rev (Nat.div (n + step - 1) step :: r))
  end.

(** [torch.matmul(a, b)] of two tensors of at least two dimensions. *)
Definition matmul (a b : shape) : option shape :=
  match rev a, rev b with
  | m :: n :: ra, p :: m' :: rb =>
      if Nat.eqb m m'
      then r <- broadcast_rev ra rb ;; Some (rev (p :: n :: r))
      else None
  | _, _ => None
  end.

(** [nn.Conv2d(cin, cout, [kh, kw], bias)] applied to a batch [B, C, H, W].
    A layer without output channels raises when it is called, as does an
    input whose channels are not [cin] or which is smaller than the kernel.
    An input without channels (for [cin = 0]) gives a result without
    channels, whatever [cout] is. *)
Definition conv2d (cin cout kh kw : nat) (s : shape) : option shape :=
  match s with
  | [b; c; h; w] =>
      if Nat.leb 1 cout && Nat.eqb c cin && Nat.leb kh h && Nat.leb kw w
      then Some [b; if Nat.eqb c 0 then 0%nat else cout;
                 (h - kh + 1)%nat; (w - kw + 1)%nat]
      else None
  | _ => None
  end.

(** [nn.Conv1d(cin, cout, 1, bias)] applied to a batch [B, C, L], with the
    same rules. *)
Definition conv1d (cin cout : nat) (s : shape) : option shape :=
  match s with
  | [b; c; l] =>
      if Nat.leb 1 cout && Nat.eqb c cin && Nat.leb 1 l
      then Some [b; if Nat.eqb c 0 then 0%nat else cout; l]
      else None
  | _ => None
  end.

(** [nn.BatchNorm2d(c)] and [nn.BatchNorm1d(c)]: the shape is kept.  In
    training mode a single value per channel raises; the channels have to
    be [c] unless the input has no element at all, which is handed back as
    it is. *)
Definition batch_norm2d (c : nat) (training : bool) (s : shape) : option shape :=
  match s with
  | [b; c'; h; w] =>
      if (Nat.eqb c' c || Nat.eqb (b * c' * h * w) 0)
         && negb (training && Nat.eqb (b * h * w) 1)
      then Some s else None
  | _ => None
  end.

Definition batch_norm1d (c : nat) (training : bool) (s : shape) : option shape :=
  match s with
  | [b; c'] =>
      if (Nat.eqb c' c || Nat.eqb (b * c') 0)
         && negb (training && Nat.eqb b 1)
      then Some s else None
  | [b; c'; l] =>
      if (Nat.eqb c' c || Nat.eqb (b * c' * l) 0)
         && negb (training && Nat.eqb (b * l) 1)
      then Some s else None
  | _ => None
  end.

(** [nn.ReLU], [nn.LeakyReLU], [torch.reciprocal] and the masked assignment
    [x[x < c] = c] keep the shape. *)
Definition pointwise (s : shape) : option shape := Some s.

(** [nn.MaxPool2d([1, k])] on a batch [B, C, H, W]; the stride is the
    kernel.  [k = None] is only found out when the module is called.  Only
    the batch dimension may be empty. *)
Definition max_pool2d_1k (k : option nat) (s : shape) : option shape :=
  match k, s with
  | Some k, [b; c; h; w] =>
      if Nat.leb 1 c && Nat.leb 1 k && Nat.leb 1 h && Nat.leb k w
      then Some [b; c; h; ((w - k) / k + 1)%nat]
      else None
  | _, _ => None
  end.

End Torch.

(** ** torch3d/nn/functional.py

    The module is imported by [layers.py] as [F] and is not part of the
    sources at hand. *)

Module F.
Import Torch.

(** Modelled from the spec: [knn(p, q, k)], absent from the sources.  For
    reference points [p] of shape [B, Np, D] and query points [q] of shape
    [B, Nq, D] it returns the squared distances and the indices of the [k]
    closest reference points of each query point, both of shape
    [B, Nq, k], and fails when [k] exceeds [Np]. *)
Definition knn (p q : shape) (k : nat) : option (shape * shape) :=
  match p, q with
  | [b; np; d], [b'; nq; d'] =>
      if Nat.eqb b b' && Nat.eqb d d' && Nat.leb k np
      then Some ([b; nq; k], [b; nq; k])
      else None
  | _, _ => None
  end.

(** Modelled from the spec: [ball_point(p, q, radius, k)], absent from the
    sources.  The indices of exactly [k] reference points within [radius]
    of each query point, of shape [B, Nq, k]. *)
Definition ball_point (p q : shape) (radius : Q) (k : option nat)
  : option shape :=
  match p, q, k with
  | [b; np; d], [b'; nq; d'], Some k =>
      if Nat.eqb b b' && Nat.eqb d d' then Some [b; nq; k] else None
  | _, _, _ => None
  end.

(** Modelled from the spec: [batched_index_select(x, 1, index)], absent
    from the sources.  For a source [x] of shape [B, N, D] and indices of
    shape [B, M] it returns the selected rows, of shape [B, M, D]. *)
Definition batched_index_select (x index : shape) : option shape :=
  match x, index with
  | [b; n; d], [b'; m] => if Nat.eqb b b' then Some [b; m; d] else None
  | _, _ => None
  end.

(** Modelled from the spec: [point_interpolate(x, index, weight)], absent
    from the sources.  For sparse features [x] of shape [B, C, Np], indices
    and weights of shape [B, Nq, K] it returns the interpolated features,
    of shape [B, C, Nq]. *)
Definition point_interpolate (x index weight : shape) : option shape :=
  match x, index, weight with
  | [b; c; np], [b1; nq; k], [b2; nq'; k'] =>
      if Nat.eqb b b1 && Nat.eqb b b2 && Nat.eqb nq nq' && Nat.eqb k k'
      then Some [b; c; nq] else None
  | _, _, _ => None
  end.

End F.

(** ** torch3d/nn/layers.py *)

(** What a [forward] hands back: one tensor, or a tuple of two. *)
Inductive pyvalue : Type :=
| Tensor (x : Torch.shape)
| Tuple2 (a b : Torch.shape).

Module EdgeConv.
Import Torch.

(** [training] is the flag every [nn.Module] carries. *)
Record t : Type := mk {
  in_channels : nat;
  out_channels : nat;
  kernel_size : nat;
  bias : bool;
  training : bool
}.

(** [self.conv]: Conv2d(2 * in, out, 1), BatchNorm2d(out), LeakyReLU(0.2). *)
Definition conv (self : t) (x : shape) : option shape :=
  x <- conv2d (in_channels self * 2) (out_channels self) 1 1 x ;;
  x <- batch_norm2d (out_channels self) (training self) x ;;
  pointwise x.

Definition forward (self : t) (x : shape) : option pyvalue :=
  batch_size <- shape0 x ;;
  x <- permute [0; 2; 1]%nat x ;;
  '(_, index) <- F.knn x x (kernel_size self) ;;
  let views := shape_plus_minus1 index in
  flat <- view [Z.of_nat batch_size; -1]%Z index ;;
  x_hat <- F.batched_index_select x flat ;;
  x_hat <- view views x_hat ;;
  x <- unsqueeze 2 x ;;
  x <- repeat [1; 1; kernel_size self; 1]%nat x ;;
  x_hat <- broadcast x_hat x ;;
  x <- cat_last x x_hat ;;
  x <- permute [0; 3; 1; 2]%nat x ;;
  x <- conv self x ;;
  x <- max_last x ;;
  Some (Tensor x).

End EdgeConv.

Module XConv.
Import Torch.

Record t : Type := mk {
  in_channels : nat;
  out_channels : nat;
  kernel_size : nat;
  dilation : nat;
  bias : bool;
  training : bool
}.

Definition mid_channels (self : t) : nat := Nat.div (out_channels self) 4.

Definition mlp (self : t) (x : shape) : option shape :=
  x <- conv2d 3 (mid_channels self) 1 1 x ;;
  x <- batch_norm2d (mid_channels self) (training self) x ;;
  x <- pointwise x ;;
  x <- conv2d (mid_channels self) (mid_channels self) 1 1 x ;;
  x <- batch_norm2d (mid_channels self) (training self) x ;;
  pointwise x.

Definition stn (self : t) (x : shape) : option shape :=
  let kk := Nat.pow (kernel_size self) 2 in
  x <- conv2d 3 kk 1 (kernel_size self) x ;;
  x <- batch_norm2d kk (training self) x ;;
  x <- pointwise x ;;
  x <- conv2d kk kk 1 1 x ;;
  x <- batch_norm2d kk (training self) x ;;
  x <- pointwise x ;;
  conv2d kk kk 1 1 x.

Definition conv (self : t) (x : shape) : option shape :=
  x <- conv2d (in_channels self + mid_channels self) (out_channels self)
         1 (kernel_size self) x ;;
  x <- batch_norm2d (out_channels self) (training self) x ;;
  pointwise x.

(** [row[::step]] on the entries of one row: the entries at positions 0,
    [step], 2 * [step], ... are kept.  [skip] counts the entries still to be
    passed over; [gap] is [step - 1]. *)
Fixpoint slice_from {A : Type} (skip gap : nat) (row : list A) : list A :=
  match row with
  | [] => []
  | a :: row' =>
      match skip with
      | O => a :: slice_from gap gap row'
      | S skip' => slice_from skip' gap row'
      end
  end.

Definition slice_step {A : Type} (step : nat) (row : list A)
  : option (list A) :=
  match step with
  | O => None
  | S gap => Some (slice_from 0 gap row)
  end.

(** [index[..., ::step]] on the entries of an index tensor of three
    dimensions; a step of 0 raises whatever the tensor holds. *)
Definition slice_entries (step : nat) (index : list (list (list Z)))
  : option (list (list (list Z))) :=
  if Nat.eqb step 0 then None else mapM (mapM (slice_step step)) index.

(** The index tensor of the neighbour search is followed either by its
    shape, as in [forward] below, or by its entries; either way it can be
    sliced as [index[..., ::step]]. *)
Class IndexTensor (T : Type) : Type :=
  slice_every : nat -> T -> option T.

#[global] Instance shape_index : IndexTensor shape := slice_last_step.

#[global] Instance entries_index : IndexTensor (list (list (list Z))) :=
  slice_entries.

(** The first two statements of [forward]: the neighbour search, given as
    [knn] = [F.knn(p, q, .)], and the dilated subsampling of its result. *)
Definition neighbors_of {D T : Type} `{IndexTensor T}
           (knn : nat -> option (D * T)) (self : t) : option T :=
  '(_, index) <- knn (kernel_size self * dilation self)%nat ;;
  slice_every (dilation self) index.

Definition neighbors (self : t) (p q : shape) : option shape :=
  neighbors_of (F.knn p q) self.

Definition forward (self : t) (p q : shape) (x : option shape)
  : option pyvalue :=
  batch_size <- shape0 p ;;
  index <- neighbors self p q ;;
  let views := shape_plus_minus1 index in
  flat <- view [Z.of_nat batch_size; -1]%Z index ;;
  p <- F.batched_index_select p flat ;;
  p <- view views p ;;
  q2 <- unsqueeze 2 q ;;
  p_hat <- broadcast p q2 ;;
  p_hat <- permute [0; 3; 1; 2]%nat p_hat ;;
  x_hat <- mlp self p_hat ;;
  x_hat <- permute [0; 2; 3; 1]%nat x_hat ;;
  x_hat <- match x with
           | Some x =>
               x <- permute [0; 2; 1]%nat x ;;
               flat <- view [Z.of_nat batch_size; -1]%Z index ;;
               x <- F.batched_index_select x flat ;;
               x <- view views x ;;
               cat_last x_hat x
           | None => Some x_hat
           end ;;
  T <- stn self p_hat ;;
  T <- view [Z.of_nat batch_size; Z.of_nat (kernel_size self);
             Z.of_nat (kernel_size self); -1]%Z T ;;
  T <- permute [0; 3; 1; 2]%nat T ;;
  x_hat <- matmul T x_hat ;;
  x <- permute [0; 3; 1; 2]%nat x_hat ;;
  x <- conv self x ;;
  x <- squeeze 3 x ;;
  Some (Tuple2 q x).

End XConv.

Module SetAbstraction.
Import Torch.

Record t : Type := mk {
  in_channels : nat;
  mlp_channels : list nat;
  radius : option Q;
  k : option nat;
  bias : bool;
  training : bool
}.

(** [self.mlp]: for each entry of [mlp] a Conv2d(last, channels, 1), a
    BatchNorm2d(channels) and a ReLU. *)
Fixpoint mlp_from (last : nat) (channels : list nat) (training : bool)
         (x : shape) : option shape :=
  match channels with
  | [] => Some x
  | c :: rest =>
      x <- conv2d last c 1 1 x ;;
      x <- batch_norm2d c training x ;;
      x <- pointwise x ;;
      mlp_from c rest training x
  end.

Definition mlp (self : t) (x : shape) : option shape :=
  mlp_from (in_channels self) (mlp_channels self) (training self) x.

(** [self.maxpool]: MaxPool2d([1, k]). *)
Definition maxpool (self : t) (x : shape) : option shape :=
  max_pool2d_1k (k self) x.

Definition forward (self : t) (p q : shape) (x : option shape)
  : option pyvalue :=
  batch_size <- shape0 p ;;
  '(x_hat, grouped) <-
    match radius self with
    | Some r =>
        index <- F.ball_point p q r (k self) ;;
        let views := shape_plus_minus1 index in
        flat <- view [Z.of_nat batch_size; -1]%Z index ;;
        p <- F.batched_index_select p flat ;;
        p <- view views p ;;
        q2 <- unsqueeze 2 q ;;
        p_hat <- broadcast p q2 ;;
        Some (p_hat, Some (index, views))
    | None =>
        x_hat <- unsqueeze 1 p ;;
        Some (x_hat, None)
    end ;;
  x_hat <- match x with
           | Some x =>
               x <- match grouped with
                    | Some (index, views) =>
                        x <- permute [0; 2; 1]%nat x ;;
                        flat <- view [Z.of_nat batch_size; -1]%Z index ;;
                        x <- F.batched_index_select x flat ;;
                        view views x
                    | None => unsqueeze 1 x
                    end ;;
               cat_last x_hat x
           | None => Some x_hat
           end ;;
  x <- permute [0; 3; 1; 2]%nat x_hat ;;
  x <- mlp self x ;;
  x <- maxpool self x ;;
  x <- squeeze 3 x ;;
  Some (Tuple2 q x).

End SetAbstraction.

Module FeaturePropagation.
Import Torch.

Record t : Type := mk {
  in_channels : nat;
  mlp_channels : list nat;
  k : nat;
  bias : bool;
  training : bool
}.

(** [self.mlp]: for each entry of [mlp] a Conv1d(last, channels, 1), a
    BatchNorm1d(channels) and a ReLU. *)
Fixpoint mlp_from (last : nat) (channels : list nat) (training : bool)
         (x : shape) : option shape :=
  match channels with
  | [] => Some x
  | c :: rest =>
      x <- conv1d last c x ;;
      x <- batch_norm1d c training x ;;
      x <- pointwise x ;;
      mlp_from c rest training x
  end.

Definition mlp (self : t) (x : shape) : option shape :=
  mlp_from (in_channels self) (mlp_channels self) (training self) x.

(** The three statements of [forward] that make the interpolation weights,
    on the entries of [sqdist]; a tensor of shape [B, Nq, K] is a list of
    [B] lists of [Nq] rows of [K] squared distances. *)
Definition eps : Q := 1 # 10000000000.

(** [sqdist[sqdist < 1e-10] = 1e-10]; [v < eps] is tested as the
    negation of [eps <= v]. *)
Definition Qlt_bool (a b : Q) : bool := negb (Qle_bool b a).

Definition clamp (sqdist : list Q) : list Q :=
  map (fun v => if Qlt_bool v eps then eps else v) sqdist.

(** [torch.reciprocal] *)
Definition reciprocal (t : list Q) : list Q := map Qinv t.

(** [weight / torch.sum(weight, dim=-1, keepdim=True)] on one row, sum and
    quotient being exact *)
Definition normalize (weight : list Q) : list Q :=
  map (fun w => w / Tensor1.torch_sum weight) weight.

Definition weights_row (sqdist : list Q) : list Q :=
  normalize (reciprocal (clamp sqdist)).

Definition weights (sqdist : list (list (list Q))) : list (list (list Q)) :=
  map (map weights_row) sqdist.

(** The spec's wording of one weight: 1 / max(sqdist_i, eps) over the sum of
    these quotients along the row. *)
Definition spec_weight (sqdist : list Q) (v : Q) : Q :=
  (1 / Qmax v eps)
  / Tensor1.torch_sum (map (fun u => 1 / Qmax u eps) sqdist).

Definition forward (self : t) (p q x : shape) (y : option shape)
  : option pyvalue :=
  '(sqdist, index) <- F.knn p q (k self) ;;
  sqdist <- pointwise sqdist ;;
  weight <- pointwise sqdist ;;
  total <- sum_last_keepdim weight ;;
  weight <- broadcast weight total ;;
  x <- F.point_interpolate x index weight ;;
  x <- match y with
       | Some y => cat 1 x y
       | None => Some x
       end ;;
  x <- mlp self x ;;
  Some (Tuple2 q x).

End FeaturePropagation.

(** ** Facts about the tensor primitives *)

Section Tensor1Facts.
Import Tensor1.

Lemma mapM_app {A B : Type} (f : A -> option B) (l1 l2 : list A) :
  mapM f (l1 ++ l2) = (a <- mapM f l1 ;; b <- mapM f l2 ;; Some (a ++ b)).
Proof.
  induction l1 as [|x l1 IH]; simpl.
  - destruct (mapM f l2); reflexivity.
  - destruct (f x); simpl; [|reflexivity].
    rewrite IH. destruct (mapM f l1); simpl; [|reflexivity].
    destruct (mapM f l2); reflexivity.
Qed.

Lemma Qplus_inject_Z_assoc (c : Q) (a b : Z) :
  (c + inject_Z a + inject_Z b)%Q = (c + inject_Z (a + b))%Q.
Proof.
  destruct c as [n d]. unfold Qplus, inject_Z; simpl.
  rewrite !Pos.mul_1_r. f_equal. ring.
Qed.


Lemma Qplus_0_l_eq (c : Q) : (0 + c)%Q = c.
Proof.
  destruct c as [n d]. unfold Qplus; simpl. f_equal. ring.
Qed.

Lemma zip_with_length {A B C : Type} (f : A -> B -> C) a b :
  length (zip_with f a b) = Nat.min (length a) (length b).
Proof.
  revert b; induction a as [|x a IH]; intros [|y b]; simpl; auto.
Qed.

Lemma zip_with_app {A B C : Type} (f : A -> B -> C) a1 a2 b1 b2 :
  length a1 = length b1 ->
  zip_with f (a1 ++ a2) (b1 ++ b2) = zip_with f a1 b1 ++ zip_with f a2 b2.
Proof.
  revert b1; induction a1 as [|x a1 IH]; intros [|y b1] H; simpl in *;
    try discriminate; auto.
  f_equal. apply IH. lia.
Qed.

Lemma broadcast2_same {A B C : Type} (f : A -> B -> C) a b :
  length a = length b -> broadcast2 f a b = Some (zip_with f a b).
Proof.
  intros H. unfold broadcast2. rewrite H, Nat.eqb_refl. reflexivity.
Qed.

Lemma eq_scalar_app x1 x2 k :
  eq_scalar (x1 ++ x2) k = eq_scalar x1 k ++ eq_scalar x2 k.
Proof. apply map_app. Qed.

Lemma eq_scalar_length x k : length (eq_scalar x k) = length x.
Proof. apply length_map. Qed.

Lemma sum_bool_app a b : sum_bool (a ++ b) = (sum_bool a + sum_bool b)%Z.
Proof.
  induction a as [|x a IH]; simpl; [reflexivity|]. rewrite IH. ring.
Qed.

Lemma sum_bool_nonneg a : (0 <= sum_bool a)%Z.
Proof.
  induction a as [|x a IH]; simpl; [lia|]. destruct x; lia.
Qed.

(** Among equally long masks, [a & b] has no more [True] entries than
    [a | b]. *)
Lemma sum_bool_and_le_or a b :
  (sum_bool (zip_with andb a b) <= sum_bool (zip_with orb a b))%Z.
Proof.
  revert b; induction a as [|x a IH]; intros [|y b];
    cbn [zip_with sum_bool]; try lia.
  specialize (IH b). destruct x, y; cbn [andb orb]; lia.
Qed.

Lemma sum_bool_map_le (f g : bool -> bool) a :
  (forall x, f x = true -> g x = true) ->
  (sum_bool (map f a) <= sum_bool (map g a))%Z.
Proof.
  intros H. induction a as [|x a IH]; cbn [map sum_bool]; [lia|].
  specialize (H x). destruct (f x), (g x); try lia.
Qed.

Lemma iadd_at_app pre c rest v :
  iadd_at (pre ++ c :: rest) (length pre) v
  = Some (pre ++ (c + inject_Z v)%Q :: rest).
Proof.
  induction pre as [|p pre IH]; simpl; [reflexivity|].
  rewrite IH. reflexivity.
Qed.

Lemma iadd_at_length t k v t' : iadd_at t k v = Some t' -> length t' = length t.
Proof.
  revert k t'; induction t as [|c t IH]; intros [|k] t' H; simpl in H;
    try discriminate.
  - inversion H; reflexivity.
  - destruct (iadd_at t k v) eqn:E; simpl in H; [|discriminate].
    inversion H; simpl. f_equal. eapply IH; eauto.
Qed.

Lemma mapM_Forall2 {A B : Type} (f : A -> option B) (R : A -> B -> Prop) l :
  Forall (fun a => exists b, f a = Some b /\ R a b) l ->
  exists l', mapM f l = Some l' /\ Forall2 R l l'.
Proof.
  induction 1 as [|a l [b [Hb HR]] H [l' [IH1 IH2]]].
  - exists []. split; [reflexivity|constructor].
  - exists (b :: l'). cbn [mapM]. rewrite Hb, IH1. split; [reflexivity|].
    constructor; assumption.
Qed.

End Tensor1Facts.

(** ** Facts about shapes *)

Section TorchFacts.
Import Torch.
Local Open Scope nat_scope.

Lemma existsb_below_of_nat pre :
  existsb (fun d => Z.ltb d (-1)) (map Z.of_nat pre ++ [-1]%Z) = false.
Proof.
  induction pre as [|a pre IH]; cbn [map app existsb]; [reflexivity|].
  rewrite IH. replace (Z.ltb (Z.of_nat a) (-1)) with false; [reflexivity|].
  symmetry. apply Z.ltb_ge. lia.
Qed.

Lemma filter_nonneg_of_nat pre :
  filter (fun d => Z.leb 0 d) (map Z.of_nat pre ++ [-1]%Z) = map Z.of_nat pre.
Proof.
  induction pre as [|a pre IH]; cbn [map app filter]; [reflexivity|].
  rewrite IH. replace (Z.leb 0 (Z.of_nat a)) with true; [reflexivity|].
  symmetry. apply Z.leb_le. lia.
Qed.

Lemma filter_minus1_of_nat pre :
  filter (fun d => Z.eqb d (-1)) (map Z.of_nat pre ++ [-1]%Z) = [-1]%Z.
Proof.
  induction pre as [|a pre IH]; cbn [map app filter]; [reflexivity|].
  rewrite IH. replace (Z.eqb (Z.of_nat a) (-1)) with false; [reflexivity|].
  symmetry. apply Z.eqb_neq. lia.
Qed.

Lemma map_infer_of_nat pre v :
  map (fun d => if Z.eqb d (-1) then v else Z.to_nat d)
      (map Z.of_nat pre ++ [-1]%Z) = pre ++ [v].
Proof.
  induction pre as [|a pre IH]; cbn [map app]; [reflexivity|].
  rewrite IH, Nat2Z.id.
  replace (Z.eqb (Z.of_nat a) (-1)) with false; [reflexivity|].
  symmetry. apply Z.eqb_neq. lia.
Qed.

Lemma map_to_nat_of_nat pre : map Z.to_nat (map Z.of_nat pre) = pre.
Proof.
  induction pre as [|a pre IH]; cbn [map]; [reflexivity|].
  rewrite IH, Nat2Z.id. reflexivity.
Qed.

(** [view] with the last dimension left to be inferred. *)
Lemma view_minus1_last pre s :
  view (shape_plus_minus1 pre) s
  = if Nat.ltb 0 (numel pre) && Nat.eqb (Nat.modulo (numel s) (numel pre)) 0
    then Some (pre ++ [Nat.div (numel s) (numel pre)]) else None.
Proof.
  unfold view, shape_plus_minus1.
  rewrite existsb_below_of_nat, filter_nonneg_of_nat, filter_minus1_of_nat.
  cbn [length]. rewrite map_to_nat_of_nat, map_infer_of_nat. reflexivity.
Qed.

Lemma view_minus1_last_exact pre s d :
  numel s = numel pre * d ->
  view (shape_plus_minus1 pre) s
  = if Nat.ltb 0 (numel pre) then Some (pre ++ [d]) else None.
Proof.
  intros Hs. rewrite view_minus1_last.
  destruct (Nat.ltb_spec 0 (numel pre)) as [Hp|Hp]; [|reflexivity].
  rewrite Hs, Nat.mul_comm, Nat.Div0.mod_mul, Nat.div_mul by lia. reflexivity.
Qed.

Lemma permute_021 a b c : permute [0; 2; 1] [a; b; c] = Some [a; c; b].
Proof. reflexivity. Qed.

Lemma permute_0312 a b c d :
  permute [0; 3; 1; 2] [a; b; c; d] = Some [a; d; b; c].
Proof. reflexivity. Qed.

Lemma permute_0231 a b c d :
  permute [0; 2; 3; 1] [a; b; c; d] = Some [a; c; d; b].
Proof. reflexivity. Qed.

Lemma unsqueeze_1_3 a b c : unsqueeze 1 [a; b; c] = Some [a; 1; b; c].
Proof. reflexivity. Qed.

Lemma unsqueeze_2_3 a b c : unsqueeze 2 [a; b; c] = Some [a; b; 1; c].
Proof. reflexivity. Qed.

Lemma repeat_11k1 k a b c :
  Torch.repeat [1; 1; k; 1] [a; b; 1; c] = Some [a; b; k; c].
Proof.
  unfold Torch.repeat. cbn [length Nat.leb Nat.sub List.repeat app Tensor1.zip_with].
  rewrite !Nat.mul_1_l, Nat.mul_1_r. reflexivity.
Qed.

Lemma squeeze_3_4 a b c d :
  squeeze 3 [a; b; c; d] = Some (if Nat.eqb d 1 then [a; b; c] else [a; b; c; d]).
Proof. destruct d as [|[|d]]; reflexivity. Qed.

Lemma broadcast_same_4 a b c d :
  broadcast [a; b; c; d] [a; b; c; d] = Some [a; b; c; d].
Proof.
  unfold broadcast. cbn [rev app broadcast_rev bind].
  rewrite !Nat.eqb_refl. reflexivity.
Qed.

Lemma broadcast_one_4 a b c d :
  broadcast [a; b; c; d] [a; b; 1; d] = Some [a; b; c; d].
Proof.
  unfold broadcast. cbn [rev app broadcast_rev bind].
  rewrite !Nat.eqb_refl. cbn [bind].
  destruct (Nat.eqb_spec c 1) as [->|H]; reflexivity.
Qed.

Lemma broadcast_one_3 a b c :
  broadcast [a; b; c] [a; b; 1] = Some [a; b; c].
Proof.
  unfold broadcast. cbn [rev app broadcast_rev bind].
  rewrite !Nat.eqb_refl. cbn [bind].
  destruct (Nat.eqb_spec c 1) as [->|H]; reflexivity.
Qed.

Lemma cat_last_4 a b c d e :
  cat_last [a; b; c; d] [a; b; c; e] = Some [a; b; c; d + e].
Proof.
  unfold cat_last, cat_same.
  cbn [is_empty_1d length nth_error Nat.eqb seq forallb nth andb orb firstn
       skipn app].
  rewrite !Nat.eqb_refl. reflexivity.
Qed.

Lemma cat_1_3 a c c' n :
  cat 1 [a; c; n] [a; c'; n] = Some [a; c + c'; n].
Proof.
  unfold cat, cat_same.
  cbn [is_empty_1d length nth_error Nat.eqb seq forallb nth andb orb firstn
       skipn app].
  rewrite !Nat.eqb_refl. reflexivity.
Qed.

Lemma max_last_4 a b c d :
  max_last [a; b; c; d] = if Nat.eqb d 0 then None else Some [a; b; c].
Proof. destruct d; reflexivity. Qed.

Lemma sum_last_keepdim_3 a b c : sum_last_keepdim [a; b; c] = Some [a; b; 1].
Proof. reflexivity. Qed.

Lemma slice_last_step_3 step a b n :
  slice_last_step step [a; b; n]
  = if Nat.eqb step 0 then None else Some [a; b; Nat.div (n + step - 1) step].
Proof. destruct step; reflexivity. Qed.

Lemma matmul_4 a b n m p :
  matmul [a; b; n; m] [a; b; m; p] = Some [a; b; n; p].
Proof.
  unfold matmul. cbn [rev app broadcast_rev bind].
  rewrite !Nat.eqb_refl. reflexivity.
Qed.

Lemma conv2d_1x1 cin cout b c h w :
  conv2d cin cout 1 1 [b; c; h; w]
  = if Nat.leb 1 cout && Nat.eqb c cin && Nat.leb 1 h && Nat.leb 1 w
    then Some [b; if Nat.eqb c 0 then 0 else cout; h; w] else None.
Proof.
  cbn [conv2d]. destruct (Nat.leb 1 cout); [|reflexivity].
  destruct (Nat.eqb c cin); [|reflexivity].
  destruct (Nat.leb_spec 1 h); [|reflexivity].
  destruct (Nat.leb_spec 1 w); [|reflexivity].
  cbn [andb]. repeat f_equal; lia.
Qed.

Lemma conv2d_1xk cin cout k b c h :
  conv2d cin cout 1 k [b; c; h; k]
  = if Nat.leb 1 cout && Nat.eqb c cin && Nat.leb 1 h
    then Some [b; if Nat.eqb c 0 then 0 else cout; h; 1] else None.
Proof.
  cbn [conv2d]. rewrite Nat.leb_refl, andb_true_r.
  destruct (Nat.leb 1 cout); [|reflexivity].
  destruct (Nat.eqb c cin); [|reflexivity].
  destruct (Nat.leb_spec 1 h); [|reflexivity].
  cbn [andb]. repeat f_equal; lia.
Qed.

(** The rules on concrete shapes. *)

Example view_infers_last : view [2; -1]%Z [2; 3; 4] = Some [2; 12].
Proof. reflexivity. Qed.

Example view_rejects_remainder : view [5; -1]%Z [2; 3; 4] = None.
Proof. reflexivity. Qed.

Example view_rejects_ambiguous : view [0; -1]%Z [0; 3] = None.
Proof. reflexivity. Qed.

Example permute_rejects_repeat : permute [0; 1; 1] [2; 3; 4] = None.
Proof. reflexivity. Qed.

Example slice_every_second : slice_last_step 2 [1; 5; 7] = Some [1; 5; 4].
Proof. reflexivity. Qed.

Example slice_step_zero : slice_last_step 0 [1; 5; 7] = None.
Proof. reflexivity. Qed.

Example pool_windows : max_pool2d_1k (Some 3) [2; 8; 1; 10] = Some [2; 8; 1; 3].
Proof. reflexivity. Qed.

Example pool_too_wide : max_pool2d_1k (Some 4) [2; 8; 1; 3] = None.
Proof. reflexivity. Qed.

Example pool_without_width : max_pool2d_1k None [2; 8; 1; 3] = None.
Proof. reflexivity. Qed.

Example cat_mismatch : cat_last [2; 5; 3] [2; 4; 3] = None.
Proof. reflexivity. Qed.

Example batch_norm_single_value :
  batch_norm2d 8 true [1; 8; 1; 1] = None
  /\ batch_norm2d 8 false [1; 8; 1; 1] = Some [1; 8; 1; 1].
Proof. split; reflexivity. Qed.

Example conv_without_output_channels : conv2d 6 0 1 1 [2; 6; 4; 2] = None.
Proof. reflexivity. Qed.

Example conv_without_input_channels :
  conv2d 0 8 1 1 [2; 0; 4; 2] = Some [2; 0; 4; 2]
  /\ batch_norm2d 8 true [2; 0; 4; 2] = Some [2; 0; 4; 2].
Proof. split; reflexivity. Qed.

Example pool_without_channels : max_pool2d_1k (Some 2) [2; 0; 1; 4] = None.
Proof. reflexivity. Qed.

Example cat_leaves_out_empty_1d : cat 1 [2; 6; 10] [0] = Some [2; 6; 10].
Proof. reflexivity. Qed.

End TorchFacts.

(** ** Facts about the metric *)

Section IoUFacts.
Import Tensor1 IoU IoUSpec.

(** [argmax] returns the first of several maximal scores. *)
Example argmax_first_maximum :
  argmax_dim1 [[[1; 0; 2]; [1; 3; 2]; [0; 3; 5 # 2]]]
  = Some [[0; 1; 2]]%Z.
Proof. reflexivity. Qed.

Example broadcast2_sizes :
  broadcast2 andb [true] [true; false; true] = Some [true; false; true]
  /\ broadcast2 andb [true; true] [true; false; true] = None.
Proof. split; reflexivity. Qed.

(** A batch whose targets outnumber the predicted labels makes [update]
    raise. *)
Example update_shape_mismatch :
  update (init 2 0) [[[0; 0]; [1; 1]]] [[1; 1; 0]]%Z = None.
Proof. reflexivity. Qed.

Lemma zeros_plus_length n s : length (zeros_plus n s) = n.
Proof. unfold zeros_plus. rewrite length_map, repeat_length. reflexivity. Qed.

Lemma reset_wf s : wf (reset s).
Proof. split; apply zeros_plus_length. Qed.

Lemma add_counts_length f i l : length (add_counts f i l) = length l.
Proof. revert i; induction l; intros; simpl; auto. Qed.

(** The loop of [update] over the classes [i, i+m) adds the two counts to the
    corresponding entries and leaves the others alone. *)
Lemma update_loop_closed x y n sm :
  length x = length y ->
  forall m i pi ri pu ru,
    length pi = i -> length pu = i -> length ri = m -> length ru = m ->
    update_loop x y (mk n sm (pi ++ ri) (pu ++ ru)) (seq i m)
    = Some (mk n sm (pi ++ add_counts (count_and x y) i ri)
                    (pu ++ add_counts (count_or x y) i ru)).
Proof.
  intros Hxy. induction m as [|m IH]; intros i pi ri pu ru Hpi Hpu Hri Hru.
  - destruct ri, ru; try discriminate. reflexivity.
  - destruct ri as [|ci ri], ru as [|cu ru]; try discriminate.
    cbn [seq update_loop]. unfold update_class. cbn [inter union num_classes smooth].
    rewrite !broadcast2_same by (rewrite !eq_scalar_length; exact Hxy).
    cbn [bind]. subst i. rewrite iadd_at_app. cbn [bind].
    rewrite <- Hpu at 1. rewrite iadd_at_app. cbn [bind].
    replace (pi ++ (ci + inject_Z (sum_bool (zip_with andb (eq_scalar x (Z.of_nat (length pi))) (eq_scalar y (Z.of_nat (length pi))))))%Q :: ri)
      with ((pi ++ [(ci + inject_Z (count_and x y (length pi)))%Q]) ++ ri)
      by (rewrite <- app_assoc; reflexivity).
    replace (pu ++ (cu + inject_Z (sum_bool (zip_with orb (eq_scalar x (Z.of_nat (length pi))) (eq_scalar y (Z.of_nat (length pi))))))%Q :: ru)
      with ((pu ++ [(cu + inject_Z (count_or x y (length pi)))%Q]) ++ ru)
      by (rewrite <- app_assoc; reflexivity).
    rewrite IH; try (rewrite length_app; simpl; lia); try (simpl in *; lia).
    rewrite <- !app_assoc. reflexivity.
Qed.

Lemma update_closed s x y xl :
  wf s -> argmax_dim1 x = Some xl ->
  length (view_flat xl) = length (view_flat y) ->
  update s x y
  = Some (mk (num_classes s) (smooth s)
             (add_counts (count_and (view_flat xl) (view_flat y)) 0 (inter s))
             (add_counts (count_or (view_flat xl) (view_flat y)) 0 (union s))).
Proof.
  intros [Hi Hu] Hx Hlen. unfold update. rewrite Hx. cbn [bind].
  destruct s as [n sm i u]; cbn [inter union num_classes smooth] in *.
  apply (update_loop_closed _ _ n sm Hlen n 0 [] i [] u); auto.
Qed.

Lemma well_shaped_spec x y :
  well_shaped x y = true <->
  exists xl, argmax_dim1 x = Some xl
             /\ length (view_flat xl) = length (view_flat y).
Proof.
  unfold well_shaped. destruct (argmax_dim1 x) as [xl|].
  - rewrite Nat.eqb_eq. split.
    + intros H; exists xl; auto.
    + intros [xl' [E H]]. inversion E; subst; auto.
  - split; [discriminate|]. intros [xl [E _]]; discriminate.
Qed.

Lemma add_counts_ext f g i l :
  (forall k, f k = g k) -> add_counts f i l = add_counts g i l.
Proof.
  intros H. revert i; induction l as [|c l IH]; intros i; simpl; [reflexivity|].
  rewrite H, IH. reflexivity.
Qed.

Lemma add_counts_twice f g i l :
  add_counts g i (add_counts f i l) = add_counts (fun k => (f k + g k)%Z) i l.
Proof.
  revert i; induction l as [|c l IH]; intros i; simpl; [reflexivity|].
  rewrite Qplus_inject_Z_assoc, IH. reflexivity.
Qed.

Lemma count_and_app x1 x2 y1 y2 k :
  length x1 = length y1 ->
  count_and (x1 ++ x2) (y1 ++ y2) k
  = (count_and x1 y1 k + count_and x2 y2 k)%Z.
Proof.
  intros H. unfold count_and.
  rewrite !eq_scalar_app, zip_with_app, sum_bool_app
    by (rewrite !eq_scalar_length; exact H).
  reflexivity.
Qed.

Lemma count_or_app x1 x2 y1 y2 k :
  length x1 = length y1 ->
  count_or (x1 ++ x2) (y1 ++ y2) k = (count_or x1 y1 k + count_or x2 y2 k)%Z.
Proof.
  intros H. unfold count_or.
  rewrite !eq_scalar_app, zip_with_app, sum_bool_app
    by (rewrite !eq_scalar_length; exact H).
  reflexivity.
Qed.

Lemma update_wf s x y s' : wf s -> update s x y = Some s' -> wf s'.
Proof.
  intros [Hi Hu]. unfold update. destruct (argmax_dim1 x) as [xl|]; [|discriminate].
  cbn [bind]. generalize (view_flat xl) (view_flat y). intros lx ly.
  assert (G : forall ks s s', update_loop lx ly s ks = Some s' ->
                length (inter s') = length (inter s)
                /\ length (union s') = length (union s)
                /\ num_classes s' = num_classes s).
  { induction ks as [|k ks IH]; intros s1 s2 H; simpl in H.
    - inversion H; auto.
    - destruct (update_class lx ly s1 k) as [s3|] eqn:E; [|discriminate].
      cbn [bind] in H. apply IH in H. destruct H as [H1 [H2 H3]].
      unfold update_class in E.
      destruct (broadcast2 andb _ _); [|discriminate]. cbn [bind] in E.
      destruct (iadd_at (inter s1) k _) eqn:E1; [|discriminate]. cbn [bind] in E.
      destruct (broadcast2 orb _ _); [|discriminate]. cbn [bind] in E.
      destruct (iadd_at (union s1) k _) eqn:E2; [|discriminate]. cbn [bind] in E.
      inversion E; subst s3; cbn [inter union num_classes] in *.
      apply iadd_at_length in E1, E2. repeat split; congruence. }
  intros H. apply G in H. destruct H as [H1 [H2 H3]]. split; congruence.
Qed.

Lemma fdiv_cases a b :
  fdiv a b = Fin (a / b) \/ fdiv a b = NaN \/ fdiv a b = PInf \/ fdiv a b = NInf.
Proof.
  unfold fdiv. destruct (Qeq_bool b 0); [|auto].
  destruct (Qeq_bool a 0); [auto|]. destruct (Qle_bool 0 a); auto.
Qed.

(** Selecting the finite quotients of two equally long tensors is the same
    as walking over the indices whose quotient is finite. *)
Lemma select_finite_zip i : forall u pi pu,
  length pi = length pu -> length i = length u ->
  select_finite (zip_with fdiv i u)
  = map (fun k => (nth k (pi ++ i) 0 / nth k (pu ++ u) 0)%Q)
        (filter (fun k => isfinite (fdiv (nth k (pi ++ i) 0) (nth k (pu ++ u) 0)))
                (seq (length pi) (length i))).
Proof.
  induction i as [|c i IH]; intros [|d u] pi pu Hp Hl; try discriminate.
  - reflexivity.
  - cbn [zip_with length seq filter].
    rewrite nth_middle. rewrite Hp at 1. rewrite nth_middle.
    specialize (IH u (pi ++ [c]) (pu ++ [d])).
    rewrite <- !app_assoc, !length_app in IH. cbn [app length] in IH.
    rewrite Nat.add_1_r in IH.
    assert (E : select_finite (zip_with fdiv i u) = _)
      by (apply IH; simpl in Hl; lia).
    clear IH.
    destruct (fdiv_cases c d) as [F|[F|[F|F]]]; rewrite F;
      cbn [select_finite isfinite map]; try exact E.
    rewrite nth_middle. rewrite Hp at 1. rewrite nth_middle.
    f_equal. exact E.
Qed.

Lemma score_spec s : wf s -> score s = Some (spec_score s).
Proof.
  intros [Hi Hu]. unfold score, spec_score, finite_classes, ratio.
  rewrite broadcast2_same by congruence. cbn [bind]. f_equal.
  rewrite (select_finite_zip (inter s) (union s) [] []) by congruence.
  cbn [app length]. rewrite Hi.
  fold (ratio_value s).
  set (ks := filter _ _). unfold torch_mean.
  destruct ks as [|k ks]; [reflexivity|].
  cbn [map length]. rewrite length_map. reflexivity.
Qed.

Lemma select_finite_filter value :
  map Fin (select_finite value) = filter isfinite value.
Proof.
  induction value as [|v value IH]; [reflexivity|].
  destruct v; cbn [select_finite filter isfinite map]; rewrite ?IH; reflexivity.
Qed.

Lemma fdiv_finite_iff a b : isfinite (fdiv a b) = true <-> ~ b == 0.
Proof.
  unfold fdiv. destruct (Qeq_bool b 0) eqn:E.
  - apply Qeq_bool_iff in E.
    destruct (Qeq_bool a 0); [|destruct (Qle_bool 0 a)]; simpl;
      split; try discriminate; intros H; contradiction.
  - simpl. split; [|reflexivity]. intros _ H.
    apply Qeq_bool_iff in H. congruence.
Qed.

(** *** Invariants of the update loop *)

Lemma update_class_inv x y s k s' :
  update_class x y s k = Some s' ->
  exists ab aob,
    broadcast2 andb (eq_scalar x (Z.of_nat k)) (eq_scalar y (Z.of_nat k)) = Some ab
    /\ broadcast2 orb (eq_scalar x (Z.of_nat k)) (eq_scalar y (Z.of_nat k)) = Some aob
    /\ iadd_at (inter s) k (sum_bool ab) = Some (inter s')
    /\ iadd_at (union s) k (sum_bool aob) = Some (union s')
    /\ num_classes s' = num_classes s /\ smooth s' = smooth s.
Proof.
  unfold update_class. intros H.
  destruct (broadcast2 andb _ _) as [ab|]; [|discriminate]. cbn [bind] in H.
  destruct (iadd_at (inter s) k _) eqn:E1; [|discriminate]. cbn [bind] in H.
  destruct (broadcast2 orb _ _) as [aob|]; [|discriminate]. cbn [bind] in H.
  destruct (iadd_at (union s) k _) eqn:E2; [|discriminate]. cbn [bind] in H.
  inversion H; subst s'. exists ab, aob. cbn. repeat split; auto.
Qed.

Lemma update_loop_ind (P : t -> Prop) x y :
  (forall s k s', P s -> update_class x y s k = Some s' -> P s') ->
  forall ks s s', P s -> update_loop x y s ks = Some s' -> P s'.
Proof.
  intros step. induction ks as [|k ks IH]; intros s s' HP H; simpl in H.
  - inversion H; subst; exact HP.
  - destruct (update_class x y s k) as [s1|] eqn:E; [|discriminate].
    cbn [bind] in H. eapply IH; [|exact H]. eapply step; eauto.
Qed.

Lemma updates_ind (P : t -> Prop) (Q : _ -> Prop) :
  (forall s x y s', Q (x, y) -> P s -> update s x y = Some s' -> P s') ->
  forall bs s s', Forall Q bs -> P s -> updates s bs = Some s' -> P s'.
Proof.
  intros step. induction bs as [|[x y] bs IH]; intros s s' HQ HP H; simpl in H.
  - inversion H; subst; exact HP.
  - destruct (update s x y) as [s1|] eqn:E; [|discriminate].
    cbn [bind] in H. inversion HQ; subst.
    eapply IH; [assumption| |exact H]. eapply step; eauto.
Qed.

(** Whatever the sizes, the mask [a & b] has no more [True] entries than
    [a | b]. *)
Lemma broadcast_and_le_or a b ab aob :
  broadcast2 andb a b = Some ab -> broadcast2 orb a b = Some aob ->
  (sum_bool ab <= sum_bool aob)%Z.
Proof.
  unfold broadcast2. destruct (Nat.eqb (length a) (length b)).
  - intros H1 H2; inversion H1; inversion H2. apply sum_bool_and_le_or.
  - destruct a as [|x [|x' a]].
    + destruct b as [|y [|y' b]]; try discriminate.
      intros H1 H2; inversion H1; inversion H2; simpl; lia.
    + intros [= <-] [= <-].
      apply (sum_bool_map_le (andb x) (orb x) b).
      intros z. destruct x, z; auto.
    + destruct b as [|y [|y' b]]; try discriminate.
      intros [= <-] [= <-].
      apply (sum_bool_map_le (fun z => z && y) (fun z => z || y) (x :: x' :: a)).
      intros z. destruct y, z; auto.
Qed.

Lemma iadd_at_Forall2 (R : Q -> Q -> Prop) t u k v w t' u' :
  (forall a b, R a b -> R (a + inject_Z v)%Q (b + inject_Z w)%Q) ->
  Forall2 R t u ->
  iadd_at t k v = Some t' -> iadd_at u k w = Some u' -> Forall2 R t' u'.
Proof.
  intros HR H. revert k t' u'. induction H as [|a b t u Hab H IH];
    intros [|k] t' u' E1 E2; simpl in E1, E2; try discriminate.
  - inversion E1; inversion E2. constructor; auto.
  - destruct (iadd_at t k v) eqn:F1; [|discriminate].
    destruct (iadd_at u k w) eqn:F2; [|discriminate].
    cbn [bind] in *. inversion E1; inversion E2. constructor; eauto.
Qed.

Lemma iadd_at_Forall (P : Q -> Prop) t k v t' :
  (forall a, P a -> P (a + inject_Z v)%Q) ->
  Forall P t -> iadd_at t k v = Some t' -> Forall P t'.
Proof.
  intros HP H. revert k t'. induction H as [|a t Ha H IH];
    intros [|k] t' E; simpl in E; try discriminate.
  - inversion E. constructor; auto.
  - destruct (iadd_at t k v) eqn:F; [|discriminate].
    cbn [bind] in E. inversion E. constructor; eauto.
Qed.


Lemma zeros_plus_repeat n s : zeros_plus n s = repeat s n.
Proof.
  unfold zeros_plus. induction n as [|n IH]; simpl; [reflexivity|].
  rewrite IH, Qplus_0_l_eq. reflexivity.
Qed.

Lemma updates_wf bs : forall s s', wf s -> updates s bs = Some s' -> wf s'.
Proof.
  intros s s' W H.
  apply (updates_ind wf (fun _ => True)
           (fun s x y s' _ => update_wf s x y s') bs s s'); auto.
  clear. induction bs; constructor; auto.
Qed.

(** inter[k] <= union[k] is kept by every [update]. *)
Lemma update_le s x y s' :
  Forall2 Qle (inter s) (union s) -> update s x y = Some s' ->
  Forall2 Qle (inter s') (union s').
Proof.
  unfold update. destruct (argmax_dim1 x) as [xl|]; [|discriminate].
  cbn [bind]. intros H0 H.
  refine (update_loop_ind (fun s => Forall2 Qle (inter s) (union s))
            _ _ _ _ _ _ H0 H).
  intros s1 k s2 H1 E. apply update_class_inv in E.
  destruct E as [ab [aob [E1 [E2 [E3 [E4 _]]]]]].
  eapply iadd_at_Forall2; [|exact H1|exact E3|exact E4].
  intros a b Hab. pose proof (broadcast_and_le_or _ _ _ _ E1 E2) as Hc.
  apply Qplus_le_compat; [exact Hab|]. rewrite <- Zle_Qle. exact Hc.
Qed.

(** With a non-negative smoothing constant the unions stay non-negative. *)
Lemma update_union_nonneg s x y s' :
  Forall (fun u => 0 <= u) (union s) -> update s x y = Some s' ->
  Forall (fun u => 0 <= u) (union s').
Proof.
  unfold update. destruct (argmax_dim1 x) as [xl|]; [|discriminate].
  cbn [bind]. intros H0 H.
  refine (update_loop_ind (fun s => Forall (fun u => 0 <= u) (union s))
            _ _ _ _ _ _ H0 H).
  intros s1 k s2 H1 E. apply update_class_inv in E.
  destruct E as [ab [aob [E1 [E2 [E3 [E4 _]]]]]].
  eapply iadd_at_Forall; [|exact H1|exact E4].
  intros a Ha. pose proof (sum_bool_nonneg aob) as Hc.
  rewrite Zle_Qle in Hc. change (inject_Z 0) with 0 in Hc. lra.
Qed.

Lemma Forall2_nth_Q (R : Q -> Q -> Prop) l l' k :
  Forall2 R l l' -> (k < length l)%nat -> R (nth k l 0) (nth k l' 0).
Proof.
  intros H. revert k. induction H as [|a b l l' Hab H IH]; intros k Hk;
    simpl in Hk; [lia|].
  destruct k; simpl; [exact Hab|]. apply IH. lia.
Qed.

Lemma updates_le bs : forall s s',
  Forall2 Qle (inter s) (union s) -> updates s bs = Some s' ->
  Forall2 Qle (inter s') (union s').
Proof.
  intros s s' H0 H.
  apply (updates_ind (fun s => Forall2 Qle (inter s) (union s)) (fun _ => True)
           (fun s x y s' _ => update_le s x y s') bs s s'); auto.
  clear. induction bs; constructor; auto.
Qed.

Lemma updates_union_nonneg bs : forall s s',
  Forall (fun u => 0 <= u) (union s) -> updates s bs = Some s' ->
  Forall (fun u => 0 <= u) (union s').
Proof.
  intros s s' H0 H.
  apply (updates_ind (fun s => Forall (fun u => 0 <= u) (union s))
           (fun _ => True)
           (fun s x y s' _ => update_union_nonneg s x y s') bs s s'); auto.
  clear. induction bs; constructor; auto.
Qed.

Lemma updates_fields bs : forall s s',
  updates s bs = Some s' ->
  num_classes s' = num_classes s /\ smooth s' = smooth s.
Proof.
  induction bs as [|[x y] bs IH]; intros s s' H; simpl in H.
  - inversion H; auto.
  - destruct (update s x y) as [s1|] eqn:E; [|discriminate]. cbn [bind] in H.
    apply IH in H. destruct H as [H1 H2]. rewrite H1, H2. clear - E.
    unfold update in E. destruct (argmax_dim1 x) as [xl|]; [|discriminate].
    cbn [bind] in E.
    refine (update_loop_ind
              (fun s1 => num_classes s1 = num_classes s /\ smooth s1 = smooth s)
              _ _ _ _ _ _ (conj eq_refl eq_refl) E).
    intros s2 k s3 [H1 H2] E'. apply update_class_inv in E'.
    destruct E' as [_ [_ [_ [_ [_ [_ [H3 H4]]]]]]]. split; congruence.
Qed.

Lemma reset_le s : Forall2 Qle (inter (reset s)) (union (reset s)).
Proof.
  cbn [reset inter union]. generalize (zeros_plus (num_classes s) (smooth s)).
  induction l; constructor; auto. apply Qle_refl.
Qed.

Lemma reset_union_nonneg s :
  0 <= smooth s -> Forall (fun u => 0 <= u) (union (reset s)).
Proof.
  intros H. cbn [reset union]. rewrite zeros_plus_repeat.
  induction (num_classes s); simpl; constructor; auto.
Qed.

(** Finite ratios lie below 1 when inter <= union and the unions are
    non-negative. *)
Lemma finite_ratios_le_1 i u :
  Forall2 Qle i u -> Forall (fun q => 0 <= q) u ->
  Forall (fun q => q <= 1) (select_finite (zip_with fdiv i u)).
Proof.
  intros H. induction H as [|a b i u Hab H IH]; intros Hu; cbn [zip_with].
  - constructor.
  - inversion Hu as [|? ? Hb Hu']; subst. specialize (IH Hu').
    unfold fdiv at 1. destruct (Qeq_bool b 0) eqn:E.
    + destruct (Qeq_bool a 0); [|destruct (Qle_bool 0 a)];
        cbn [select_finite]; exact IH.
    + cbn [select_finite]. constructor; [|exact IH].
      apply Qeq_bool_neq in E. apply Qle_shift_div_r; lra.
Qed.

(** *** A class that never occurs *)











Lemma torch_sum_le_length l :
  Forall (fun q => q <= 1) l ->
  torch_sum l <= inject_Z (Z.of_nat (length l)).
Proof.
  induction 1 as [|q l Hq H IH]; [cbn; discriminate|].
  cbn [torch_sum length]. rewrite Nat2Z.inj_succ. unfold Z.succ.
  rewrite inject_Z_plus. change (inject_Z 1) with 1. lra.
Qed.

Lemma torch_mean_Fin l m :
  torch_mean l = Fin m ->
  0 < inject_Z (Z.of_nat (length l))
  /\ m = torch_sum l / inject_Z (Z.of_nat (length l)).
Proof.
  unfold torch_mean. destruct l as [|q l]; [discriminate|].
  intros [= <-]. split; [|reflexivity].
  cbn [length]. rewrite Nat2Z.inj_succ.
  change 0 with (inject_Z 0). rewrite <- Zlt_Qlt. lia.
Qed.


End IoUFacts.

(** ** The properties of the metric *)

Section IoUClaims.
Import Tensor1 IoU IoUSpec.

(** C1.  Two classes, no smoothing: after [reset] and one [update] with
    scores that favour class 1 at each of four pixels and targets
    [1, 1, 0, 0], the counters are inter = [0, 2] and union = [2, 4], the
    per-class ratios are 0 and 1/2, and [score] returns 1/4.  The same holds
    when the four pixels are four batch items. *)
Theorem iou_scenario_score :
  exists s r0 r1 v,
    update (reset (init 2 0)) scenario_scores scenario_targets = Some s
    /\ inter s = [0; 2] /\ union s = [2; 4]
    /\ broadcast2 fdiv (inter s) (union s) = Some [Fin r0; Fin r1]
    /\ r0 == 0 /\ r1 == 1 # 2
    /\ score s = Some (Fin v) /\ v == 1 # 4
    /\ update (reset (init 2 0)) scenario_scores_rows scenario_targets_rows
       = Some s.
Proof.
  exists (mk 2 0 [0; 2] [2; 4]), (0 / 2), (2 / 4), ((0 / 2 + (2 / 4 + 0)) / 2).
  repeat split; vm_compute; reflexivity.
Qed.

(** C4.  In every state of the accumulator [mean] returns what [score]
    returns, and [score] returns, without raising, the arithmetic mean of
    the ratios inter[k] / union[k] over exactly the classes [k] whose ratio
    is finite, which are the classes with a non-zero union; the others are
    left out.  When no class is left the mean of nothing is [nan]. *)
Theorem score_mean_of_finite_ratios :
  forall s,
    wf s ->
    mean s = score s
    /\ score s = Some (spec_score s)
    /\ (forall k, In k (finite_classes s) <->
                  (k < num_classes s)%nat /\ ~ nth k (union s) 0 == 0)
    /\ (finite_classes s = [] <-> score s = Some NaN).
Proof.
  intros s W. split; [reflexivity|]. split; [apply score_spec; exact W|].
  split.
  - intros k. unfold finite_classes, ratio. rewrite filter_In, in_seq.
    rewrite fdiv_finite_iff. intuition lia.
  - rewrite score_spec by exact W. unfold spec_score.
    destruct (finite_classes s); split; try reflexivity; discriminate.
Qed.

Lemma score_mean_of_finite_ratios_witness :
  score (mk 3 0 [0; 0; 2] [2; 0; 4])
  = Some (spec_score (mk 3 0 [0; 0; 2] [2; 0; 4]))
  /\ finite_classes (mk 3 0 [0; 0; 2] [2; 0; 4]) = [0; 2]%nat.
Proof.
  split.
  - apply (score_mean_of_finite_ratios (mk 3 0 [0; 0; 2] [2; 0; 4])).
    split; reflexivity.
  - reflexivity.
Defined.

(** C9, as amended.  [reset] sets both counters of every class to the
    smoothing constant; an [update] on a well-shaped batch adds
    count(pred == k AND truth == k) to inter[k] and the no-smaller
    count(pred == k OR truth == k) to union[k]; so inter[k] <= union[k] holds
    after [reset] and after any sequence of [update] calls.  When the
    smoothing constant is not negative, every finite per-class ratio that
    [score] averages is at most 1. *)
Theorem inter_le_union_invariant :
  forall s0 bs s',
    updates (reset s0) bs = Some s' ->
    (inter (reset s0) = repeat (smooth s0) (num_classes s0)
     /\ union (reset s0) = repeat (smooth s0) (num_classes s0))
    /\ (forall s x y, wf s -> well_shaped x y = true ->
         exists xl,
           argmax_dim1 x = Some xl
           /\ update s x y
              = Some (mk (num_classes s) (smooth s)
                      (add_counts (count_and (view_flat xl) (view_flat y)) 0 (inter s))
                      (add_counts (count_or (view_flat xl) (view_flat y)) 0 (union s)))
           /\ forall k, (count_and (view_flat xl) (view_flat y) k
                         <= count_or (view_flat xl) (view_flat y) k)%Z)
    /\ (forall k, (k < num_classes s0)%nat ->
                  nth k (inter s') 0 <= nth k (union s') 0)
    /\ (0 <= smooth s0 ->
        forall value,
          broadcast2 fdiv (inter s') (union s') = Some value ->
          Forall (fun q => q <= 1) (select_finite value)).
Proof.
  intros s0 bs s' H.
  pose proof (updates_wf bs _ _ (reset_wf s0) H) as [Wi Wu].
  pose proof (updates_fields bs _ _ H) as [Hn Hs]. cbn [reset num_classes smooth] in Hn, Hs.
  pose proof (updates_le bs _ _ (reset_le s0) H) as Hle.
  split; [|split; [|split]].
  - cbn [reset inter union]. rewrite zeros_plus_repeat. auto.
  - intros s x y W Hxy. apply well_shaped_spec in Hxy.
    destruct Hxy as [xl [Ex Hl]]. exists xl. split; [exact Ex|]. split.
    + apply update_closed; assumption.
    + intros k. apply sum_bool_and_le_or.
  - intros k Hk. apply Forall2_nth_Q; [exact Hle|]. congruence.
  - intros Hs0 value Hv.
    rewrite broadcast2_same in Hv by congruence. inversion Hv; subst value.
    apply finite_ratios_le_1; [exact Hle|].
    apply (updates_union_nonneg bs _ _ (reset_union_nonneg s0 Hs0) H).
Qed.

Lemma inter_le_union_invariant_witness :
  exists s',
    updates (reset (init 2 (1 # 2)))
      [(scenario_scores, scenario_targets);
       (scenario_scores_rows, scenario_targets_rows)] = Some s'
    /\ (forall k, (k < 2)%nat -> nth k (inter s') 0 <= nth k (union s') 0)
    /\ (forall value,
          broadcast2 fdiv (inter s') (union s') = Some value ->
          Forall (fun q => q <= 1) (select_finite value)).
Proof.
  eexists. split; [vm_compute; reflexivity|].
  pose proof (inter_le_union_invariant (init 2 (1 # 2))
                [(scenario_scores, scenario_targets);
                 (scenario_scores_rows, scenario_targets_rows)] _ eq_refl)
    as [_ [_ [H1 H2]]].
  split; [exact H1|]. apply H2. cbn. discriminate.
Defined.

(** C9 as stated fails for a negative smoothing constant: with
    [smooth = -2], two classes and one pixel predicted as class 0 with
    target 1, both classes end with inter = -2 and union = -1, a finite
    ratio of 2. *)
Lemma ratio_above_one_when_smooth_negative :
  exists s' value q,
    updates (reset (init 2 (-2 # 1))) [([[[1]; [0]]], [[1%Z]])] = Some s'
    /\ inter s' = [-2 # 1; -2 # 1] /\ union s' = [-1 # 1; -1 # 1]
    /\ broadcast2 fdiv (inter s') (union s') = Some value
    /\ In q (select_finite value) /\ 1 < q.
Proof.
  exists (mk 2 (-2 # 1) [-2 # 1; -2 # 1] [-1 # 1; -1 # 1]).
  eexists. exists ((-2 # 1) / (-1 # 1)).
  repeat split; try (vm_compute; reflexivity).
  left. reflexivity.
Qed.



End IoUClaims.

(** ** Tactics for stepping through a [forward] *)

Ltac ops :=
  repeat first
    [ progress cbn [bind Torch.shape0 nth_error F.knn F.ball_point
                    F.batched_index_select F.point_interpolate
                    Torch.conv1d Torch.batch_norm2d Torch.batch_norm1d
                    Torch.pointwise
                    Torch.max_pool2d_1k andb orb app]
    | rewrite permute_021 | rewrite permute_0312 | rewrite permute_0231
    | rewrite unsqueeze_1_3 | rewrite unsqueeze_2_3 | rewrite repeat_11k1
    | rewrite squeeze_3_4 | rewrite broadcast_same_4
    | rewrite broadcast_one_4 | rewrite broadcast_one_3
    | rewrite cat_last_4 | rewrite cat_1_3 | rewrite max_last_4
    | rewrite sum_last_keepdim_3 | rewrite slice_last_step_3
    | rewrite matmul_4 | rewrite conv2d_1x1 | rewrite conv2d_1xk
    | rewrite Nat.eqb_refl ].

Ltac pos :=
  cbn [Torch.numel fold_right]; repeat (apply Nat.mul_pos_pos; [lia|]); lia.

Lemma bind_None_r {A B : Type} (m : option A) :
  bind m (fun _ => @None B) = None.
Proof. destruct m; reflexivity. Qed.

Ltac dead :=
  cbn [bind]; rewrite ?bind_None_r;
  match goal with |- None = Some _ -> _ => intros [=] end.

Ltac case_if :=
  match goal with
  | |- context [if ?c then _ else _] => destruct c eqn:?
  end; try dead.

(** The guard of a batch normalisation in training mode. *)
Lemma bn_guard (training : bool) n :
  training = false \/ (1 < n)%nat -> negb (training && Nat.eqb n 1) = true.
Proof.
  intros [->|H]; [reflexivity|].
  rewrite (proj2 (Nat.eqb_neq n 1)) by lia. rewrite andb_false_r. reflexivity.
Qed.

Ltac btrue :=
  repeat (apply andb_true_intro; split);
  first [ apply Nat.eqb_eq; lia
        | apply Nat.leb_le; lia
        | apply Nat.ltb_lt; pos
        | apply bn_guard; first [assumption | left; assumption | right; nia]
        | reflexivity ].

Ltac cond_true :=
  match goal with
  | |- context [if ?c then _ else _] =>
      replace c with true by (symmetry; btrue)
  end.

Ltac cond_false :=
  match goal with
  | |- context [if Nat.eqb ?a ?b then _ else _] =>
      rewrite (proj2 (Nat.eqb_neq a b)) by lia
  end.

(** A channel count known to be positive is not 0. *)
Ltac nz :=
  match goal with
  | |- context [Nat.eqb ?a 0] => rewrite (proj2 (Nat.eqb_neq a 0)) by lia
  end.

(** As far as the guards can be decided. *)
Ltac fwd := repeat first [progress ops | nz | cond_true | cond_false].

Lemma bind_Some {A B : Type} (m : option A) (f : A -> option B) r :
  bind m f = Some r -> exists a, m = Some a /\ f a = Some r.
Proof.
  destruct m as [a|]; simpl; [|discriminate]. intros H. exists a. auto.
Qed.

Ltac unbind H :=
  repeat (apply bind_Some in H;
          let a := fresh "a" in
          destruct H as [a [_ H]];
          try (destruct a as [? ?]);
          cbv beta iota in H).

(** Boolean guards that held, as propositions. *)
Ltac unbool :=
  repeat match goal with
  | H : andb _ _ = true |- _ => apply andb_true_iff in H; destruct H
  | H : Nat.eqb _ _ = true |- _ => apply Nat.eqb_eq in H
  | H : Nat.leb _ _ = true |- _ => apply Nat.leb_le in H
  | H : Nat.ltb _ _ = true |- _ => apply Nat.ltb_lt in H
  | H : Nat.eqb _ _ = false |- _ => apply Nat.eqb_neq in H
  end.

(** As far as a computation that returned determines its guards. *)
Ltac inv := repeat first [progress ops | nz | (case_if; unbool)].

(** One [bind] of a computation that returned, keeping its equation. *)
Ltac step H E :=
  apply bind_Some in H;
  let a := fresh "s" in
  destruct H as [a [E H]]; cbv beta iota in H.

(** ** Facts about the layers *)

Section LayerFacts.
Import Torch.
Local Open Scope nat_scope.

Lemma EdgeConv_forward_only self B C N r :
  1 <= C ->
  EdgeConv.forward self [B; C; N] = Some r ->
  r = Tensor [B; EdgeConv.out_channels self; N].
Proof.
  intros HC.
  unfold EdgeConv.forward, EdgeConv.conv.
  set (K := EdgeConv.kernel_size self). ops. case_if. ops.
  change [Z.of_nat B; (-1)%Z] with (shape_plus_minus1 [B]).
  rewrite (view_minus1_last_exact [B] [B; N; K] (N * K))
    by (cbn [numel fold_right]; lia).
  case_if. ops.
  rewrite (view_minus1_last_exact [B; N; K] [B; N * K; C] C)
    by (cbn [numel fold_right]; lia).
  case_if. ops. case_if. nz. ops. case_if. ops. case_if. ops.
  intros [= <-]. reflexivity.
Qed.

(** Without input channels the convolution has nothing to put out: the
    result has no channels either. *)
Example EdgeConv_without_input_channels :
  EdgeConv.forward (EdgeConv.mk 0 8 2 true true) [2; 0; 4]
  = Some (Tensor [2; 0; 4])
  /\ EdgeConv.forward (EdgeConv.mk 3 0 2 true true) [2; 3; 4] = None.
Proof. split; reflexivity. Qed.

Lemma EdgeConv_forward_ok self B C N :
  C = EdgeConv.in_channels self ->
  1 <= C -> 1 <= EdgeConv.out_channels self ->
  1 <= B -> 1 <= EdgeConv.kernel_size self <= N ->
  EdgeConv.training self = false \/ 1 < B * N * EdgeConv.kernel_size self ->
  EdgeConv.forward self [B; C; N]
  = Some (Tensor [B; EdgeConv.out_channels self; N]).
Proof.
  intros HC HC1 HO HB HK HT.
  unfold EdgeConv.forward, EdgeConv.conv.
  set (K := EdgeConv.kernel_size self) in *. ops. cond_true. ops.
  change [Z.of_nat B; (-1)%Z] with (shape_plus_minus1 [B]).
  rewrite (view_minus1_last_exact [B] [B; N; K] (N * K))
    by (cbn [numel fold_right]; lia).
  cond_true. ops.
  rewrite (view_minus1_last_exact [B; N; K] [B; N * K; C] C)
    by (cbn [numel fold_right]; lia).
  cond_true. ops. cond_true. nz. ops. cond_true. ops. cond_false. ops.
  reflexivity.
Qed.

Lemma ceil_div_mul k d : 1 <= d -> (k * d + d - 1) / d = k.
Proof.
  intros Hd. replace (k * d + d - 1) with (k * d + (d - 1)) by lia.
  rewrite Nat.div_add_l by lia. rewrite Nat.div_small by lia. lia.
Qed.

Lemma XConv_neighbors_ok self B Np Nq D :
  1 <= XConv.dilation self ->
  XConv.kernel_size self * XConv.dilation self <= Np ->
  F.knn [B; Np; D] [B; Nq; D] (XConv.kernel_size self * XConv.dilation self)
  = Some ([B; Nq; XConv.kernel_size self * XConv.dilation self],
          [B; Nq; XConv.kernel_size self * XConv.dilation self])
  /\ XConv.neighbors self [B; Np; D] [B; Nq; D]
     = Some [B; Nq; XConv.kernel_size self].
Proof.
  intros Hd HK. unfold XConv.neighbors, XConv.neighbors_of.
  unfold XConv.slice_every, XConv.shape_index. ops. cond_true. ops.
  split; [reflexivity|]. cond_false. rewrite ceil_div_mul by lia. reflexivity.
Qed.

Lemma XConv_forward_ok self B Np Nq x :
  1 <= B -> 1 <= Nq ->
  1 <= XConv.kernel_size self -> 1 <= XConv.dilation self ->
  XConv.kernel_size self * XConv.dilation self <= Np ->
  4 <= XConv.out_channels self ->
  (x = None /\ XConv.in_channels self = 0
   \/ x = Some [B; XConv.in_channels self; Np]) ->
  XConv.training self = false \/ 1 < B * Nq ->
  XConv.forward self [B; Np; 3] [B; Nq; 3] x
  = Some (Tuple2 [B; Nq; 3] [B; XConv.out_channels self; Nq]).
Proof.
  intros HB HNq HK Hd HKd HO Hx HT.
  assert (HT1 : XConv.training self = false \/ 1 < B * Nq * 1)
    by (rewrite Nat.mul_1_r; exact HT).
  assert (HTK : XConv.training self = false
                \/ 1 < B * Nq * XConv.kernel_size self)
    by (destruct HT; [left; assumption | right; nia]).
  assert (HM : 1 <= XConv.mid_channels self)
    by (unfold XConv.mid_channels; apply Nat.div_le_lower_bound; lia).
  assert (HKK : 1 <= XConv.kernel_size self ^ 2)
    by (cbn [Nat.pow]; nia).
  unfold XConv.forward.
  rewrite (proj2 (XConv_neighbors_ok self B Np Nq 3 Hd HKd)).
  unfold XConv.mlp, XConv.stn, XConv.conv.
  set (K := XConv.kernel_size self) in *.
  set (M := XConv.mid_channels self) in *.
  set (KK := K ^ 2) in *.
  ops.
  change [Z.of_nat B; (-1)%Z] with (shape_plus_minus1 [B]).
  rewrite (view_minus1_last_exact [B] [B; Nq; K] (Nq * K))
    by (cbn [numel fold_right]; lia).
  fwd.
  rewrite (view_minus1_last_exact [B; Nq; K] [B; Nq * K; 3] 3)
    by (cbn [numel fold_right]; lia).
  fwd.
  assert (Hview : view [Z.of_nat B; Z.of_nat K; Z.of_nat K; (-1)%Z]
                   [B; KK; Nq; 1] = Some [B; K; K; Nq]).
  { change [Z.of_nat B; Z.of_nat K; Z.of_nat K; (-1)%Z]
      with (shape_plus_minus1 [B; K; K]).
    rewrite (view_minus1_last_exact [B; K; K] [B; KK; Nq; 1] Nq)
      by (unfold KK; cbn [numel fold_right Nat.pow]; ring).
    cond_true. reflexivity. }
  destruct Hx as [[-> Hin] | ->]; fwd.
  - rewrite Hview. fwd. reflexivity.
  - rewrite (view_minus1_last_exact [B; Nq; K]
               [B; Nq * K; XConv.in_channels self] (XConv.in_channels self))
      by (cbn [numel fold_right]; lia).
    fwd. rewrite Hview. fwd. reflexivity.
Qed.

Lemma pool_width k n : 1 <= k <= n -> (n - k) / k + 1 = n / k.
Proof.
  intros H. replace n with ((n - k) + 1 * k) at 2 by lia.
  rewrite Nat.div_add by lia. reflexivity.
Qed.

Lemma last_cons_default (c : nat) chs d : List.last (c :: chs) d = List.last chs c.
Proof.
  revert c d. induction chs as [|a chs IH]; intros c d; [reflexivity|].
  change (List.last (c :: a :: chs) d) with (List.last (a :: chs) d).
  rewrite (IH a d), (IH a c). reflexivity.
Qed.

Lemma last_pos chs : forall d,
  1 <= d -> Forall (fun c => 1 <= c) chs -> 1 <= List.last chs d.
Proof.
  induction chs as [|c chs IH]; intros d Hd H; [exact Hd|].
  apply Forall_cons_iff in H. destruct H as [Hc H].
  rewrite last_cons_default. apply IH; assumption.
Qed.

Lemma SetAbstraction_mlp_from_ok chs : forall last tr B H W,
  1 <= last -> Forall (fun c => 1 <= c) chs ->
  1 <= H -> 1 <= W -> chs = [] \/ tr = false \/ 1 < B * H * W ->
  SetAbstraction.mlp_from last chs tr [B; last; H; W]
  = Some [B; List.last chs last; H; W].
Proof.
  induction chs as [|c chs IH]; intros last tr B H W Hl Hc HH HW HT.
  - reflexivity.
  - apply Forall_cons_iff in Hc. destruct Hc as [Hc Hcs].
    cbn [SetAbstraction.mlp_from].
    assert (HT' : tr = false \/ 1 < B * H * W)
      by (destruct HT as [HT|HT]; [discriminate HT | exact HT]).
    fwd. rewrite IH by auto.
    rewrite last_cons_default. reflexivity.
Qed.

Lemma FeaturePropagation_mlp_from_ok chs : forall last tr B L,
  1 <= last -> Forall (fun c => 1 <= c) chs ->
  1 <= L -> chs = [] \/ tr = false \/ 1 < B * L ->
  FeaturePropagation.mlp_from last chs tr [B; last; L]
  = Some [B; List.last chs last; L].
Proof.
  induction chs as [|c chs IH]; intros last tr B L Hl Hc HL HT.
  - reflexivity.
  - apply Forall_cons_iff in Hc. destruct Hc as [Hc Hcs].
    cbn [FeaturePropagation.mlp_from].
    assert (HT' : tr = false \/ 1 < B * L)
      by (destruct HT as [HT|HT]; [discriminate HT | exact HT]).
    fwd. rewrite IH by auto.
    rewrite last_cons_default. reflexivity.
Qed.

(** Group-all mode: the points are pooled in windows of [k]. *)
Lemma SetAbstraction_forward_group_all self B N q x C kk :
  SetAbstraction.radius self = None ->
  SetAbstraction.k self = Some kk ->
  1 <= B -> 1 <= kk <= N ->
  (x = None /\ C = 0 \/ x = Some [B; N; C]) ->
  SetAbstraction.in_channels self = 3 + C ->
  Forall (fun c => 1 <= c) (SetAbstraction.mlp_channels self) ->
  (SetAbstraction.mlp_channels self = []
   \/ SetAbstraction.training self = false \/ 1 < B * N) ->
  SetAbstraction.forward self [B; N; 3] q x
  = Some (Tuple2 q
            (if Nat.eqb (N / kk) 1
             then [B; List.last (SetAbstraction.mlp_channels self)
                                (SetAbstraction.in_channels self); 1]
             else [B; List.last (SetAbstraction.mlp_channels self)
                                (SetAbstraction.in_channels self); 1; N / kk])).
Proof.
  intros Hr Hk HB HkN Hx Hin Hc HT.
  assert (HT' : SetAbstraction.mlp_channels self = []
                \/ SetAbstraction.training self = false \/ 1 < B * 1 * N)
    by (rewrite Nat.mul_1_r; exact HT).
  assert (HL : 1 <= List.last (SetAbstraction.mlp_channels self)
                              (SetAbstraction.in_channels self))
    by (apply last_pos; [lia|exact Hc]).
  unfold SetAbstraction.forward, SetAbstraction.mlp, SetAbstraction.maxpool.
  rewrite Hr, Hk. ops.
  destruct Hx as [[-> HC] | ->]; ops.
  - replace 3 with (SetAbstraction.in_channels self) at 1 by lia.
    rewrite SetAbstraction_mlp_from_ok by (auto; lia). ops.
    cond_true. ops. rewrite pool_width by lia. reflexivity.
  - replace (3 + C) with (SetAbstraction.in_channels self) by lia.
    rewrite SetAbstraction_mlp_from_ok by (auto; lia). ops.
    cond_true. ops. rewrite pool_width by lia. reflexivity.
Qed.

(** Radius mode: one pooled vector for each query point. *)
Lemma SetAbstraction_forward_radius self B Np Nq x C r kk :
  SetAbstraction.radius self = Some r ->
  SetAbstraction.k self = Some kk ->
  1 <= B -> 1 <= Nq -> 1 <= kk ->
  (x = None /\ C = 0 \/ x = Some [B; C; Np]) ->
  SetAbstraction.in_channels self = 3 + C ->
  Forall (fun c => 1 <= c) (SetAbstraction.mlp_channels self) ->
  (SetAbstraction.mlp_channels self = []
   \/ SetAbstraction.training self = false \/ 1 < B * Nq * kk) ->
  SetAbstraction.forward self [B; Np; 3] [B; Nq; 3] x
  = Some (Tuple2 [B; Nq; 3]
            [B; List.last (SetAbstraction.mlp_channels self)
                          (SetAbstraction.in_channels self); Nq]).
Proof.
  intros Hr Hk HB HNq Hkk Hx Hin Hc HT.
  assert (HL : 1 <= List.last (SetAbstraction.mlp_channels self)
                              (SetAbstraction.in_channels self))
    by (apply last_pos; [lia|exact Hc]).
  unfold SetAbstraction.forward, SetAbstraction.mlp, SetAbstraction.maxpool.
  rewrite Hr, Hk. ops.
  change [Z.of_nat B; (-1)%Z] with (shape_plus_minus1 [B]).
  rewrite (view_minus1_last_exact [B] [B; Nq; kk] (Nq * kk))
    by (cbn [numel fold_right]; lia).
  cond_true. ops.
  rewrite (view_minus1_last_exact [B; Nq; kk] [B; Nq * kk; 3] 3)
    by (cbn [numel fold_right]; lia).
  cond_true. ops.
  destruct Hx as [[-> HC] | ->]; ops.
  - replace 3 with (SetAbstraction.in_channels self) at 1 by lia.
    rewrite SetAbstraction_mlp_from_ok by (auto; lia). ops.
    cond_true. ops. rewrite Nat.sub_diag, Nat.Div0.div_0_l. reflexivity.
  - rewrite (view_minus1_last_exact [B] [B; Nq; kk] (Nq * kk))
      by (cbn [numel fold_right]; lia).
    cond_true. ops.
    rewrite (view_minus1_last_exact [B; Nq; kk] [B; Nq * kk; C] C)
      by (cbn [numel fold_right]; lia).
    cond_true. ops.
    replace (3 + C) with (SetAbstraction.in_channels self) by lia.
    rewrite SetAbstraction_mlp_from_ok by (auto; lia). ops.
    cond_true. ops. rewrite Nat.sub_diag, Nat.Div0.div_0_l. reflexivity.
Qed.

Lemma FeaturePropagation_forward_ok self B Np Nq C y C2 :
  1 <= B -> 1 <= Nq ->
  1 <= FeaturePropagation.k self <= Np ->
  1 <= C ->
  (y = None /\ C2 = 0 \/ y = Some [B; C2; Nq]) ->
  FeaturePropagation.in_channels self = C + C2 ->
  Forall (fun c => 1 <= c) (FeaturePropagation.mlp_channels self) ->
  (FeaturePropagation.mlp_channels self = []
   \/ FeaturePropagation.training self = false \/ 1 < B * Nq) ->
  FeaturePropagation.forward self [B; Np; 3] [B; Nq; 3] [B; C; Np] y
  = Some (Tuple2 [B; Nq; 3]
            [B; List.last (FeaturePropagation.mlp_channels self)
                          (FeaturePropagation.in_channels self); Nq]).
Proof.
  intros HB HNq Hk HC Hy Hin Hc HT.
  unfold FeaturePropagation.forward, FeaturePropagation.mlp.
  ops. cond_true. ops.
  destruct Hy as [[-> HC2] | ->]; ops.
  - replace C with (FeaturePropagation.in_channels self) at 1 by lia.
    rewrite FeaturePropagation_mlp_from_ok by (auto; lia). reflexivity.
  - replace (C + C2) with (FeaturePropagation.in_channels self) by lia.
    rewrite FeaturePropagation_mlp_from_ok by (auto; lia). reflexivity.
Qed.

(** *** What kind of value a [forward] returns *)


Lemma EdgeConv_forward_tensor self x r :
  EdgeConv.forward self x = Some r -> exists f, r = Tensor f.
Proof.
  unfold EdgeConv.forward. intros H. unbind H.
  inversion H. eexists; reflexivity.
Qed.

Lemma XConv_forward_tuple self p q x r :
  XConv.forward self p q x = Some r -> exists f, r = Tuple2 q f.
Proof.
  unfold XConv.forward. intros H. unbind H.
  inversion H. eexists; reflexivity.
Qed.

Lemma SetAbstraction_forward_tuple self p q x r :
  SetAbstraction.forward self p q x = Some r -> exists f, r = Tuple2 q f.
Proof.
  unfold SetAbstraction.forward. intros H. unbind H.
  inversion H. eexists; reflexivity.
Qed.

Lemma FeaturePropagation_forward_tuple self p q x y r :
  FeaturePropagation.forward self p q x y = Some r -> exists f, r = Tuple2 q f.
Proof.
  unfold FeaturePropagation.forward. intros H. unbind H.
  inversion H. eexists; reflexivity.
Qed.

(** *** Dilated subsampling of an index row *)

Lemma slice_from_nth_error {A : Type} (row : list A) : forall skip gap i,
  nth_error (XConv.slice_from skip gap row) i
  = nth_error row (skip + i * S gap).
Proof.
  induction row as [|a row IH]; intros skip gap i.
  - cbn [XConv.slice_from]. destruct i, (skip + _); reflexivity.
  - destruct skip as [|skip]; cbn [XConv.slice_from].
    + destruct i as [|i]; [reflexivity|].
      cbn [nth_error]. rewrite IH.
      replace (0 + S i * S gap) with (S (gap + i * S gap)) by lia.
      reflexivity.
    + rewrite IH. reflexivity.
Qed.

Lemma slice_step_spec {A : Type} (row : list A) K d :
  1 <= d -> length row = K * d ->
  exists kept,
    XConv.slice_step d row = Some kept
    /\ length kept = K
    /\ forall i, i < K -> nth_error kept i = nth_error row (i * d).
Proof.
  intros Hd Hlen. destruct d as [|gap]; [lia|].
  cbn [XConv.slice_step]. eexists. split; [reflexivity|].
  assert (Hnth : forall i,
             nth_error (XConv.slice_from 0 gap row) i
             = nth_error row (i * S gap))
    by (intros i; rewrite slice_from_nth_error; reflexivity).
  split; [|intros i _; apply Hnth].
  apply Nat.le_antisymm.
  - apply nth_error_None. rewrite Hnth. apply nth_error_None. lia.
  - destruct K as [|K]; [lia|].
    change (K < length (XConv.slice_from 0 gap row)).
    apply nth_error_Some. rewrite Hnth.
    apply nth_error_Some. rewrite Hlen. nia.
Qed.

(** The shape rule of [x[..., ::step]] counts what the subsampling keeps:
    [slice_last_step] on a last dimension of [length row] gives
    [(length row + step - 1) / step]. *)
Lemma slice_from_length {A : Type} (row : list A) : forall skip gap,
  length (XConv.slice_from skip gap row)
  = (length row - skip + gap) / S gap.
Proof.
  induction row as [|a row IH]; intros skip gap.
  - cbn [XConv.slice_from length]. rewrite Nat.div_small by lia. reflexivity.
  - destruct skip as [|skip]; cbn [XConv.slice_from length].
    + rewrite IH. destruct (Nat.le_gt_cases gap (length row)) as [H|H].
      * replace (length row - gap + gap) with (length row) by lia.
        replace (S (length row) - 0 + gap) with (length row + 1 * S gap) by lia.
        rewrite Nat.div_add by lia. lia.
      * replace (length row - gap + gap) with gap by lia.
        rewrite Nat.div_small by lia.
        replace (S (length row) - 0 + gap) with (length row + 1 * S gap) by lia.
        rewrite Nat.div_add by lia. rewrite Nat.div_small by lia. lia.
    + rewrite IH. reflexivity.
Qed.

Lemma slice_last_step_counts {A : Type} d (row kept : list A) a b :
  XConv.slice_step d row = Some kept ->
  slice_last_step d [a; b; length row] = Some [a; b; length kept].
Proof.
  destruct d as [|gap]; cbn [XConv.slice_step]; [discriminate|].
  intros [= <-]. rewrite slice_last_step_3, slice_from_length.
  cbn [Nat.eqb].
  replace (length row + S gap - 1) with (length row - 0 + gap) by lia.
  reflexivity.
Qed.

End LayerFacts.

(** ** Facts about the interpolation weights *)

Section WeightFacts.
Import Tensor1 FeaturePropagation.
Local Open Scope Q_scope.

Lemma eps_pos : 0 < eps.
Proof. reflexivity. Qed.

Lemma clamp_entry v :
  (if Qlt_bool v eps then eps else v) == Qmax v eps
  /\ eps <= (if Qlt_bool v eps then eps else v).
Proof.
  unfold Qlt_bool. destruct (Qle_bool eps v) eqn:E; cbn [negb].
  - apply Qle_bool_iff in E. split; [|exact E].
    symmetry. apply Q.max_l. exact E.
  - assert (H : ~ eps <= v) by (intros H; apply Qle_bool_iff in H; congruence).
    apply Qnot_le_lt in H. split; [|apply Qle_refl].
    symmetry. apply Q.max_r. apply Qlt_le_weak. exact H.
Qed.

Lemma reciprocal_clamp_pos l :
  Forall (fun w => 0 < w) (reciprocal (clamp l)).
Proof.
  unfold reciprocal, clamp. induction l as [|v l IH]; cbn [map]; constructor.
  - apply Qinv_lt_0_compat. pose proof (clamp_entry v) as [_ H].
    pose proof eps_pos. lra.
  - exact IH.
Qed.

Lemma torch_sum_pos l : l <> [] -> Forall (fun w => 0 < w) l -> 0 < torch_sum l.
Proof.
  intros Hne H. induction H as [|w l Hw H IH]; [congruence|].
  cbn [torch_sum]. destruct l as [|w' l].
  - cbn [torch_sum]. lra.
  - assert (0 < torch_sum (w' :: l)) by (apply IH; discriminate). lra.
Qed.

Lemma torch_sum_nonneg l : Forall (fun w => 0 < w) l -> 0 <= torch_sum l.
Proof.
  induction 1 as [|w l Hw H IH]; cbn [torch_sum]; [apply Qle_refl|lra].
Qed.

Lemma torch_sum_div l S :
  torch_sum (map (fun w => w / S) l) == torch_sum l / S.
Proof.
  induction l as [|w l IH]; cbn [map torch_sum].
  - unfold Qdiv. ring.
  - rewrite IH. unfold Qdiv. ring.
Qed.

Lemma reciprocal_clamp_sum l :
  torch_sum (reciprocal (clamp l))
  == torch_sum (map (fun u => 1 / Qmax u eps) l).
Proof.
  unfold reciprocal, clamp. induction l as [|v l IH]; cbn [map torch_sum].
  - reflexivity.
  - rewrite IH. pose proof (clamp_entry v) as [E _]. rewrite E.
    unfold Qdiv. ring.
Qed.

Lemma weights_row_spec l :
  Forall2 Qeq (weights_row l) (map (spec_weight l) l).
Proof.
  unfold weights_row, normalize, spec_weight.
  pose proof (reciprocal_clamp_sum l) as HS.
  set (S := torch_sum (reciprocal (clamp l))) in *.
  set (S' := torch_sum (map (fun u => 1 / Qmax u eps) l)) in *.
  clearbody S S'. unfold reciprocal, clamp.
  induction l as [|v l IH]; cbn [map]; constructor; [|exact IH].
  pose proof (clamp_entry v) as [E _]. rewrite E, HS.
  unfold Qdiv. ring.
Qed.

Lemma weights_row_nonneg l : Forall (fun w => 0 <= w) (weights_row l).
Proof.
  unfold weights_row, normalize.
  pose proof (reciprocal_clamp_pos l) as H.
  pose proof (torch_sum_nonneg _ H) as HS.
  set (S := torch_sum (reciprocal (clamp l))) in *. clearbody S.
  induction H as [|w r Hw H IH]; cbn [map]; constructor; [|exact IH].
  unfold Qdiv. apply Qmult_le_0_compat; [lra|].
  apply Qinv_le_0_compat. exact HS.
Qed.

Lemma weights_row_sum l : l <> [] -> torch_sum (weights_row l) == 1.
Proof.
  intros Hne. unfold weights_row, normalize. rewrite torch_sum_div.
  assert (H : 0 < torch_sum (reciprocal (clamp l))).
  { apply torch_sum_pos; [|apply reciprocal_clamp_pos].
    destruct l; [congruence|discriminate]. }
  field. lra.
Qed.

Lemma weights_row_length l : length (weights_row l) = length l.
Proof.
  unfold weights_row, normalize, reciprocal, clamp.
  rewrite !length_map. reflexivity.
Qed.

End WeightFacts.

(** ** The properties of the layers *)

Section LayerClaims.
Import Torch.

(** C8.  On an input of shape [B, C, N] with at least one channel, whatever
    [EdgeConv.forward] returns is one tensor of shape [B, out_channels, N]:
    the channel count is the configured one and the point count is that of
    the input.  It does return when [C] is the configured [in_channels],
    there is at least one output channel, the batch is not empty, the
    kernel size lies between 1 and [N] and, in training mode, the batch
    normalisation sees more than one value per channel. *)
Theorem EdgeConv_keeps_point_count :
  forall self B C N,
    (1 <= C)%nat ->
    (forall r, EdgeConv.forward self [B; C; N] = Some r ->
               r = Tensor [B; EdgeConv.out_channels self; N])
    /\ (C = EdgeConv.in_channels self ->
        (1 <= EdgeConv.out_channels self)%nat ->
        (1 <= B)%nat ->
        (1 <= EdgeConv.kernel_size self <= N)%nat ->
        EdgeConv.training self = false
        \/ (1 < B * N * EdgeConv.kernel_size self)%nat ->
        EdgeConv.forward self [B; C; N]
        = Some (Tensor [B; EdgeConv.out_channels self; N])).
Proof.
  intros self B C N HC. split.
  - intros r. apply EdgeConv_forward_only. exact HC.
  - intros Hin. apply EdgeConv_forward_ok; assumption.
Qed.

Lemma EdgeConv_keeps_point_count_witness :
  EdgeConv.forward (EdgeConv.mk 3 8 4 true true) [2; 3; 16]%nat
  = Some (Tensor [2; 8; 16]%nat).
Proof.
  apply (proj2 (EdgeConv_keeps_point_count
                  (EdgeConv.mk 3 8 4 true true) 2 3 16 ltac:(lia))).
  - reflexivity.
  - cbn. lia.
  - lia.
  - cbn. lia.
  - right. cbn. lia.
Defined.

(** C2 as stated fails: on a valid input [EdgeConv.forward] returns the
    features tensor alone, not a pair. *)
Lemma EdgeConv_returns_one_tensor :
  EdgeConv.forward (EdgeConv.mk 3 8 2 true true) [1; 3; 4]%nat
  = Some (Tensor [1; 8; 4]%nat)
  /\ ~ (exists q f,
          EdgeConv.forward (EdgeConv.mk 3 8 2 true true) [1; 3; 4]%nat
          = Some (Tuple2 q f)).
Proof.
  split; [reflexivity|]. intros [q [f H]]. vm_compute in H. discriminate H.
Qed.

(** C2, as amended.  [XConv], [SetAbstraction] and [FeaturePropagation]
    return, whenever they return, the pair of the query points they were
    given and a features tensor, and they do return on inputs of the
    expected shapes when every convolution has at least one input and one
    output channel; [EdgeConv], which takes no query points, returns the
    features tensor alone. *)
Theorem forward_return_values :
  (forall self p q x r,
     XConv.forward self p q x = Some r -> exists f, r = Tuple2 q f)
  /\ (forall self p q x r,
        SetAbstraction.forward self p q x = Some r -> exists f, r = Tuple2 q f)
  /\ (forall self p q x y r,
        FeaturePropagation.forward self p q x y = Some r ->
        exists f, r = Tuple2 q f)
  /\ (forall self x r,
        EdgeConv.forward self x = Some r -> exists f, r = Tensor f)
  /\ (forall self B Np Nq x,
        (1 <= B)%nat -> (1 <= Nq)%nat ->
        (1 <= XConv.kernel_size self)%nat -> (1 <= XConv.dilation self)%nat ->
        (XConv.kernel_size self * XConv.dilation self <= Np)%nat ->
        (4 <= XConv.out_channels self)%nat ->
        (x = None /\ XConv.in_channels self = 0%nat
         \/ x = Some [B; XConv.in_channels self; Np]) ->
        XConv.training self = false \/ (1 < B * Nq)%nat ->
        XConv.forward self [B; Np; 3%nat] [B; Nq; 3%nat] x
        = Some (Tuple2 [B; Nq; 3%nat] [B; XConv.out_channels self; Nq]))
  /\ (forall self B Np Nq x C r kk,
        SetAbstraction.radius self = Some r ->
        SetAbstraction.k self = Some kk ->
        (1 <= B)%nat -> (1 <= Nq)%nat -> (1 <= kk)%nat ->
        (x = None /\ C = 0%nat \/ x = Some [B; C; Np]) ->
        SetAbstraction.in_channels self = (3 + C)%nat ->
        Forall (fun c => (1 <= c)%nat) (SetAbstraction.mlp_channels self) ->
        (SetAbstraction.mlp_channels self = []
         \/ SetAbstraction.training self = false \/ (1 < B * Nq * kk)%nat) ->
        SetAbstraction.forward self [B; Np; 3%nat] [B; Nq; 3%nat] x
        = Some (Tuple2 [B; Nq; 3%nat]
                  [B; List.last (SetAbstraction.mlp_channels self)
                                (SetAbstraction.in_channels self); Nq]))
  /\ (forall self B Np Nq C y C2,
        (1 <= B)%nat -> (1 <= Nq)%nat ->
        (1 <= FeaturePropagation.k self <= Np)%nat ->
        (1 <= C)%nat ->
        (y = None /\ C2 = 0%nat \/ y = Some [B; C2; Nq]) ->
        FeaturePropagation.in_channels self = (C + C2)%nat ->
        Forall (fun c => (1 <= c)%nat) (FeaturePropagation.mlp_channels self) ->
        (FeaturePropagation.mlp_channels self = []
         \/ FeaturePropagation.training self = false \/ (1 < B * Nq)%nat) ->
        FeaturePropagation.forward self
          [B; Np; 3%nat] [B; Nq; 3%nat] [B; C; Np] y
        = Some (Tuple2 [B; Nq; 3%nat]
                  [B; List.last (FeaturePropagation.mlp_channels self)
                                (FeaturePropagation.in_channels self); Nq])).
Proof.
  split; [exact XConv_forward_tuple|].
  split; [exact SetAbstraction_forward_tuple|].
  split; [exact FeaturePropagation_forward_tuple|].
  split; [exact EdgeConv_forward_tensor|].
  split; [exact XConv_forward_ok|].
  split; [exact SetAbstraction_forward_radius|].
  exact FeaturePropagation_forward_ok.
Qed.

Lemma forward_return_values_witness :
  XConv.forward (XConv.mk 6 8 3 2 true true)
    [2; 10; 3]%nat [2; 5; 3]%nat (Some [2; 6; 10]%nat)
  = Some (Tuple2 [2; 5; 3]%nat [2; 8; 5]%nat)
  /\ SetAbstraction.forward
       (SetAbstraction.mk 9 [8; 16]%nat (Some (1 # 5)) (Some 4%nat) true true)
       [2; 10; 3]%nat [2; 5; 3]%nat (Some [2; 6; 10]%nat)
     = Some (Tuple2 [2; 5; 3]%nat [2; 16; 5]%nat)
  /\ FeaturePropagation.forward
       (FeaturePropagation.mk 9 [8; 16]%nat 3 true true)
       [2; 5; 3]%nat [2; 10; 3]%nat [2; 6; 5]%nat (Some [2; 3; 10]%nat)
     = Some (Tuple2 [2; 10; 3]%nat [2; 16; 10]%nat).
Proof.
  destruct forward_return_values as [_ [_ [_ [_ [HX [HS HF]]]]]].
  split; [|split].
  - apply (HX (XConv.mk 6 8 3 2 true true) 2 10 5 (Some [2; 6; 10]))%nat;
      cbn; try lia; auto; right; lia.
  - apply (HS (SetAbstraction.mk 9 [8; 16] (Some (1 # 5)) (Some 4) true true)
              2 10 5 (Some [2; 6; 10]) 6 (1 # 5) 4)%nat;
      cbn; try lia; auto; try (repeat constructor; lia); right; right; lia.
  - apply (HF (FeaturePropagation.mk 9 [8; 16] 3 true true)
              2 5 10 6 (Some [2; 3; 10]) 3)%nat;
      cbn; try lia; auto; try (repeat constructor; lia); right; right; lia.
Defined.

(** C5 as stated fails: in group-all mode with [k = 2], four input points
    come out as two feature vectors for the batch element, not one. *)
Lemma group_all_yields_two_vectors :
  SetAbstraction.forward
    (SetAbstraction.mk 3 [8]%nat None (Some 2%nat) true true)
    [1; 4; 3]%nat [1; 1; 3]%nat None
  = Some (Tuple2 [1; 1; 3]%nat [1; 8; 1; 2]%nat).
Proof. reflexivity. Qed.

(** C5, as amended.  In group-all mode ([radius = None]), with at least
    one output channel in every convolution, [forward] pools the [N] input
    points of every batch element in windows of [k] consecutive points.
    When [k <= N < 2 * k], in particular when [k = N], the result is one
    feature vector for each batch element, of shape [B, C', 1]; otherwise
    it is [N / k >= 2] vectors, of shape [B, C', 1, N / k]. *)
Theorem group_all_pools_windows_of_k :
  forall self B N q x C kk,
    SetAbstraction.radius self = None ->
    SetAbstraction.k self = Some kk ->
    (1 <= B)%nat -> (1 <= kk <= N)%nat ->
    (x = None /\ C = 0%nat \/ x = Some [B; N; C]) ->
    SetAbstraction.in_channels self = (3 + C)%nat ->
    Forall (fun c => (1 <= c)%nat) (SetAbstraction.mlp_channels self) ->
    (SetAbstraction.mlp_channels self = []
     \/ SetAbstraction.training self = false \/ (1 < B * N)%nat) ->
    let C' := List.last (SetAbstraction.mlp_channels self)
                        (SetAbstraction.in_channels self) in
    ((N < 2 * kk)%nat ->
     SetAbstraction.forward self [B; N; 3%nat] q x
     = Some (Tuple2 q [B; C'; 1%nat]))
    /\ ((2 * kk <= N)%nat ->
        SetAbstraction.forward self [B; N; 3%nat] q x
        = Some (Tuple2 q [B; C'; 1%nat; Nat.div N kk])
        /\ (2 <= Nat.div N kk)%nat).
Proof.
  intros self B N q x C kk Hr Hk HB HkN Hx Hin Hc HT C'.
  pose proof (SetAbstraction_forward_group_all
                self B N q x C kk Hr Hk HB HkN Hx Hin Hc HT) as H.
  fold C' in H. split.
  - intros Hlt. rewrite H.
    replace (Nat.div N kk) with 1%nat; [reflexivity|].
    apply Nat.div_unique with (r := (N - kk)%nat); lia.
  - intros Hge.
    assert (Hdiv : (2 <= Nat.div N kk)%nat).
    { apply Nat.div_le_lower_bound; lia. }
    split; [|exact Hdiv]. rewrite H.
    rewrite (proj2 (Nat.eqb_neq (Nat.div N kk) 1)) by lia. reflexivity.
Qed.

Lemma group_all_pools_windows_of_k_witness :
  SetAbstraction.forward
    (SetAbstraction.mk 3 [8]%nat None (Some 4%nat) true true)
    [2; 4; 3]%nat [2; 1; 3]%nat None
  = Some (Tuple2 [2; 1; 3]%nat [2; 8; 1]%nat).
Proof.
  apply (proj1 (group_all_pools_windows_of_k
                  (SetAbstraction.mk 3 [8]%nat None (Some 4%nat) true true)
                  2 4 [2; 1; 3]%nat None 0 4
                  eq_refl eq_refl
                  ltac:(lia) ltac:(lia)
                  (or_introl (conj eq_refl eq_refl)) eq_refl
                  ltac:(repeat constructor)
                  ltac:(right; right; cbn; lia))).
  lia.
Defined.

(** C6.  For every query point the weights that [FeaturePropagation.forward]
    computes from the squared distances of its [K] neighbours are
    1 / max(sqdist_i, 1e-10) divided by the sum of these quotients over the
    [K] neighbours; each weight is non-negative, and for [K >= 1] they sum
    to 1.  Entries are exact rationals. *)
Theorem interpolation_weights_normalized :
  forall (sqdist : list (list (list Q))) b j row,
    (rows <- nth_error sqdist b ;; nth_error rows j) = Some row ->
    exists w,
      (rows <- nth_error (FeaturePropagation.weights sqdist) b ;;
       nth_error rows j) = Some w
      /\ length w = length row
      /\ Forall2 Qeq w (map (FeaturePropagation.spec_weight row) row)
      /\ Forall (fun x => 0 <= x) w
      /\ (row <> [] -> Tensor1.torch_sum w == 1).
Proof.
  intros sqdist b j row H.
  exists (FeaturePropagation.weights_row row).
  split; [|split; [|split; [|split]]].
  - unfold FeaturePropagation.weights. rewrite nth_error_map.
    destruct (nth_error sqdist b) as [rows|]; [|discriminate].
    cbn [option_map bind] in *. rewrite nth_error_map, H. reflexivity.
  - apply weights_row_length.
  - apply weights_row_spec.
  - apply weights_row_nonneg.
  - apply weights_row_sum.
Qed.

Lemma interpolation_weights_normalized_witness :
  exists w,
    (rows <- nth_error (FeaturePropagation.weights [[[1; 0; 1 # 2]]]) 0 ;;
     nth_error rows 0) = Some w
    /\ Forall (fun x => 0 <= x) w
    /\ Tensor1.torch_sum w == 1.
Proof.
  destruct (interpolation_weights_normalized
              [[[1; 0; 1 # 2]]] 0 0 [1; 0; 1 # 2] eq_refl)
    as [w [H1 [_ [_ [H2 H3]]]]].
  exists w. split; [exact H1|]. split; [exact H2|].
  apply H3. discriminate.
Defined.

End LayerClaims.

(** ** Further facts about the metric *)

Section IoUBatchFacts.
Import Tensor1 IoU IoUSpec IoUBatch.

Lemma broadcast2_None_iff {A B C : Type} (f : A -> B -> C) a b :
  broadcast2 f a b = None
  <-> length a <> length b /\ length a <> 1%nat /\ length b <> 1%nat.
Proof.
  unfold broadcast2. destruct (Nat.eqb_spec (length a) (length b)) as [E|E].
  - split; [discriminate|]. intros [H _]. contradiction.
  - destruct a as [|x [|x' a]]; destruct b as [|y [|y' b]];
      cbn [length] in *; split; intros H;
      try discriminate; try reflexivity; try lia;
      try (repeat split; lia).
Qed.


Lemma argmax_item_None rows : argmax_item rows = None <-> rows = [].
Proof.
  destruct rows; cbn [argmax_item]; split; congruence.
Qed.

Lemma argmax_dim1_None x : argmax_dim1 x = None <-> In [] x.
Proof.
  unfold argmax_dim1. induction x as [|rows x IH]; cbn [mapM In].
  - split; [discriminate|tauto].
  - destruct (argmax_item rows) as [l|] eqn:E; cbn [bind].
    + assert (rows <> []) by (intros ->; discriminate).
      destruct (mapM argmax_item x) as [ls|]; cbn [bind].
      * split; [discriminate|]. intros [H1|H1]; [congruence|].
        apply IH in H1. discriminate.
      * split; [intros _; right; apply IH; reflexivity|reflexivity].
    + apply argmax_item_None in E. subst rows. split; auto.
Qed.



Lemma state_eta s : mk (num_classes s) (smooth s) (inter s) (union s) = s.
Proof. destruct s; reflexivity. Qed.

Lemma update_loop_first_raises x y s n :
  broadcast2 andb (eq_scalar x 0%Z) (eq_scalar y 0%Z) = None ->
  update_loop x y s (seq 0 (S n)) = None.
Proof.
  intros H. cbn [seq update_loop]. unfold update_class.
  cbn [Z.of_nat]. rewrite H. reflexivity.
Qed.

Lemma broadcast2_masks_Some (f : bool -> bool -> bool) x y :
  length x = length y \/ length x = 1%nat \/ length y = 1%nat ->
  forall k, exists ab,
    broadcast2 f (eq_scalar x (Z.of_nat k)) (eq_scalar y (Z.of_nat k))
    = Some ab
    /\ sum_bool ab
       = match broadcast2 f (eq_scalar x (Z.of_nat k))
                            (eq_scalar y (Z.of_nat k)) with
         | Some ab => sum_bool ab
         | None => 0%Z
         end.
Proof.
  intros H k.
  destruct (broadcast2 f _ _) as [ab|] eqn:E.
  - exists ab. auto.
  - apply broadcast2_None_iff in E. rewrite !eq_scalar_length in E. lia.
Qed.





Lemma sum_bool_le_length a : (sum_bool a <= Z.of_nat (length a))%Z.
Proof.
  induction a as [|x a IH]; cbn [sum_bool length]; [lia|]. destruct x; lia.
Qed.

Lemma zip_with_same (f : bool -> bool -> bool) a :
  (forall b, f b b = b) -> zip_with f a a = a.
Proof.
  intros Hf. induction a as [|x a IH]; cbn [zip_with]; [reflexivity|].
  rewrite Hf, IH. reflexivity.
Qed.

Lemma count_and_same x k : count_and x x k = occurrences x k.
Proof.
  unfold count_and, occurrences. rewrite zip_with_same; [reflexivity|].
  intros []; reflexivity.
Qed.

Lemma count_or_same x k : count_or x x k = occurrences x k.
Proof.
  unfold count_or, occurrences. rewrite zip_with_same; [reflexivity|].
  intros []; reflexivity.
Qed.



Lemma Forall2_Qle_refl l : Forall2 Qle l l.
Proof. induction l; constructor; auto. apply Qle_refl. Qed.

Lemma Forall2_Qle_trans a b c :
  Forall2 Qle a b -> Forall2 Qle b c -> Forall2 Qle a c.
Proof.
  intros H. revert c. induction H as [|x y a b Hxy H IH]; intros c Hc;
    inversion Hc; subst; constructor.
  - eapply Qle_trans; eauto.
  - apply IH. assumption.
Qed.

Lemma iadd_at_grows t : forall k v t',
  (0 <= v)%Z -> iadd_at t k v = Some t' -> Forall2 Qle t t'.
Proof.
  induction t as [|c t IH]; intros [|k] v t' Hv E; cbn [iadd_at] in E;
    try discriminate.
  - inversion E; subst. constructor; [|apply Forall2_Qle_refl].
    rewrite Zle_Qle in Hv. change (inject_Z 0) with 0 in Hv. lra.
  - destruct (iadd_at t k v) as [r|] eqn:F; [|discriminate].
    cbn [bind] in E. inversion E; subst.
    constructor; [apply Qle_refl|]. eapply IH; eauto.
Qed.

Lemma broadcast2_sum_nonneg (f : bool -> bool -> bool) a b r :
  broadcast2 f a b = Some r -> (0 <= sum_bool r)%Z.
Proof. intros _. apply sum_bool_nonneg. Qed.

Lemma update_grows s x y s' :
  update s x y = Some s' ->
  Forall2 Qle (inter s) (inter s') /\ Forall2 Qle (union s) (union s').
Proof.
  unfold update. destruct (argmax_dim1 x) as [xl|]; [|discriminate].
  cbn [bind]. intros H.
  refine (update_loop_ind
            (fun s1 => Forall2 Qle (inter s) (inter s1)
                       /\ Forall2 Qle (union s) (union s1))
            _ _ _ _ _ _ (conj (Forall2_Qle_refl _) (Forall2_Qle_refl _)) H).
  intros s1 k s2 [H1 H2] E. apply update_class_inv in E.
  destruct E as [ab [aob [_ [_ [E3 [E4 _]]]]]]. split.
  - eapply Forall2_Qle_trans; [exact H1|].
    eapply iadd_at_grows; [apply sum_bool_nonneg|exact E3].
  - eapply Forall2_Qle_trans; [exact H2|].
    eapply iadd_at_grows; [apply sum_bool_nonneg|exact E4].
Qed.

Lemma updates_grows bs : forall s s',
  updates s bs = Some s' ->
  Forall2 Qle (inter s) (inter s') /\ Forall2 Qle (union s) (union s').
Proof.
  induction bs as [|[x y] bs IH]; intros s s' H; cbn [updates] in H.
  - inversion H; subst. split; apply Forall2_Qle_refl.
  - destruct (update s x y) as [s1|] eqn:E; [|discriminate]. cbn [bind] in H.
    apply update_grows in E. apply IH in H.
    destruct E as [E1 E2], H as [H1 H2].
    split; eapply Forall2_Qle_trans; eauto.
Qed.

Lemma well_shaped_app a b c d :
  well_shaped a b = true -> well_shaped c d = true ->
  well_shaped (a ++ c) (b ++ d) = true.
Proof.
  intros Hab Hcd. apply well_shaped_spec in Hab, Hcd.
  destruct Hab as [xa [Ea La]], Hcd as [xc [Ec Lc]].
  apply well_shaped_spec. exists (xa ++ xc). split.
  - unfold argmax_dim1 in *. rewrite mapM_app, Ea, Ec. reflexivity.
  - unfold view_flat in *. rewrite !concat_app, !length_app. congruence.
Qed.

(** Two updates in a row are the update with the concatenated batch. *)
Lemma update_well_shaped s x y :
  wf s -> well_shaped x y = true ->
  exists s', update s x y = Some s' /\ wf s'.
Proof.
  intros W H. apply well_shaped_spec in H. destruct H as [xl [E L]].
  pose proof (update_closed _ _ _ _ W E L) as U.
  eexists. split; [exact U|]. eapply update_wf; eauto.
Qed.

Lemma updates_well_shaped bs : forall s,
  wf s -> Forall (fun b => well_shaped_batch b = true) bs ->
  exists s', updates s bs = Some s' /\ wf s'.
Proof.
  induction bs as [|[x y] bs IH]; intros s W H; cbn [updates].
  - exists s. auto.
  - inversion H as [|? ? Hb Hbs]; subst.
    destruct (update_well_shaped s x y W Hb) as [s1 [E W1]].
    rewrite E. cbn [bind]. apply IH; assumption.
Qed.

Lemma well_shaped_concat bs :
  Forall (fun b => well_shaped_batch b = true) bs ->
  well_shaped (concat (map fst bs)) (concat (map snd bs)) = true.
Proof.
  induction 1 as [|[x y] bs Hb H IH]; cbn [map concat]; [reflexivity|].
  apply well_shaped_app; assumption.
Qed.

Lemma finite_ratios_ge_0 i : forall u,
  Forall (fun q => 0 <= q) i -> Forall (fun q => 0 <= q) u ->
  Forall (fun q => 0 <= q) (select_finite (zip_with fdiv i u)).
Proof.
  induction i as [|a i IH]; intros [|b u] Hi Hu; cbn [zip_with select_finite];
    try constructor.
  inversion Hi as [|? ? Ha Hi']; inversion Hu as [|? ? Hb Hu']; subst.
  specialize (IH u Hi' Hu').
  destruct (fdiv_cases a b) as [F|[F|[F|F]]]; rewrite F;
    cbn [select_finite]; try exact IH.
  constructor; [|exact IH].
  unfold fdiv in F. destruct (Qeq_bool b 0) eqn:E.
  - destruct (Qeq_bool a 0); [discriminate|].
    destruct (Qle_bool 0 a); discriminate.
  - apply Qeq_bool_neq in E. apply Qle_shift_div_l; lra.
Qed.

Lemma torch_sum_ge_0 l : Forall (fun q => 0 <= q) l -> 0 <= torch_sum l.
Proof.
  induction 1 as [|q l Hq H IH]; cbn [torch_sum]; [apply Qle_refl|lra].
Qed.

Lemma torch_mean_bounds l m :
  Forall (fun q => 0 <= q) l -> Forall (fun q => q <= 1) l ->
  torch_mean l = Fin m -> 0 <= m <= 1.
Proof.
  intros H0 H1 Hm. apply torch_mean_Fin in Hm. destruct Hm as [HN ->].
  pose proof (torch_sum_ge_0 l H0). pose proof (torch_sum_le_length l H1).
  split.
  - apply Qle_shift_div_l; lra.
  - apply Qle_shift_div_r; lra.
Qed.

Lemma Forall2_Qle_repeat c n l :
  0 <= c -> Forall2 Qle (repeat c n) l -> Forall (fun q => 0 <= q) l.
Proof.
  intros Hc. revert l. induction n as [|n IH]; intros l H; cbn [repeat] in H;
    inversion H; subst; constructor.
  - lra.
  - apply IH. assumption.
Qed.

Lemma finite_ratios_same l :
  Forall (fun q => q == 1) (select_finite (zip_with fdiv l l)).
Proof.
  induction l as [|a l IH]; cbn [zip_with select_finite]; [constructor|].
  destruct (fdiv_cases a a) as [F|[F|[F|F]]]; rewrite F;
    cbn [select_finite]; try exact IH.
  constructor; [|exact IH].
  unfold fdiv in F. destruct (Qeq_bool a 0) eqn:E.
  - destruct (Qeq_bool a 0); [discriminate|].
    destruct (Qle_bool 0 a); discriminate.
  - apply Qeq_bool_neq in E. field. exact E.
Qed.

Lemma torch_mean_ones l m :
  Forall (fun q => q == 1) l -> torch_mean l = Fin m -> m == 1.
Proof.
  intros H Hm. apply torch_mean_Fin in Hm. destruct Hm as [HN ->].
  assert (E : torch_sum l == inject_Z (Z.of_nat (length l))).
  { clear HN. induction H as [|q l Hq H IH]; [reflexivity|].
    cbn [torch_sum length]. rewrite Nat2Z.inj_succ. unfold Z.succ.
    rewrite inject_Z_plus, IH, Hq. change (inject_Z 1) with 1. ring. }
  rewrite E. field. lra.
Qed.

(** *** [argmax] *)

Lemma zip_with_nth {A B C : Type} (f : A -> B -> C) a : forall b j da db dc,
  (j < length a)%nat -> (j < length b)%nat ->
  nth j (zip_with f a b) dc = f (nth j a da) (nth j b db).
Proof.
  induction a as [|x a IH]; intros [|y b] j da db dc Ha Hb;
    cbn [length] in *; try lia.
  destruct j as [|j]; cbn [zip_with nth]; [reflexivity|].
  apply IH; lia.
Qed.

Lemma score_at_app_l rows r c j :
  (c < length rows)%nat -> score_at (rows ++ [r]) c j = score_at rows c j.
Proof.
  intros H. unfold score_at. rewrite app_nth1 by exact H. reflexivity.
Qed.

Lemma score_at_app_last rows r j :
  score_at (rows ++ [r]) (length rows) j = nth j r 0.
Proof.
  unfold score_at. rewrite nth_middle. reflexivity.
Qed.

Lemma argmax_step_keeps rows r best P :
  length r = P -> length best = P ->
  (forall j, (j < P)%nat -> best_so_far rows j (nth j best (0, 0%Z))) ->
  length (argmax_step (Z.of_nat (length rows)) best r) = P
  /\ forall j, (j < P)%nat ->
       best_so_far (rows ++ [r]) j
         (nth j (argmax_step (Z.of_nat (length rows)) best r) (0, 0%Z)).
Proof.
  intros Hr Hb H. unfold argmax_step. split.
  - rewrite zip_with_length. lia.
  - intros j Hj.
    rewrite (zip_with_nth _ best r j (0, 0%Z) 0 (0, 0%Z)) by lia.
    destruct (H j Hj) as [[Hrange [Hmax Hfirst]] Hval].
    set (b := nth j best (0, 0%Z)) in *. set (v := nth j r 0).
    assert (Hlen : length (rows ++ [r]) = S (length rows))
      by (rewrite length_app; cbn [length]; lia).
    destruct (Qle_bool v (fst b)) eqn:E.
    + apply Qle_bool_iff in E. split; [split; [|split]|].
      * rewrite Hlen. lia.
      * intros c Hc. rewrite Hlen in Hc.
        rewrite (score_at_app_l rows r (Z.to_nat (snd b))) by lia.
        destruct (Nat.eq_dec c (length rows)) as [->|Hne].
        -- rewrite score_at_app_last. fold v. rewrite <- Hval. exact E.
        -- rewrite score_at_app_l by lia. apply Hmax. lia.
      * intros c Hc.
        rewrite (score_at_app_l rows r (Z.to_nat (snd b))) by lia.
        rewrite score_at_app_l by lia. apply Hfirst. exact Hc.
      * rewrite score_at_app_l by lia. exact Hval.
    + assert (Hlt : fst b < v).
      { apply Qnot_le_lt. intros Hle. apply Qle_bool_iff in Hle. congruence. }
      unfold best_so_far, first_maximum. cbn [fst snd]. rewrite Nat2Z.id.
      split; [split; [|split]|].
      * rewrite Hlen. lia.
      * intros c Hc. rewrite Hlen in Hc. rewrite score_at_app_last. fold v.
        destruct (Nat.eq_dec c (length rows)) as [->|Hne].
        -- rewrite score_at_app_last. apply Qle_refl.
        -- rewrite score_at_app_l by lia.
           apply Qle_trans with (fst b); [|apply Qlt_le_weak; exact Hlt].
           rewrite Hval. apply Hmax. lia.
      * intros c Hc. rewrite score_at_app_last. fold v.
        rewrite score_at_app_l by lia.
        apply Qle_lt_trans with (fst b); [|exact Hlt].
        rewrite Hval. apply Hmax. lia.
      * rewrite score_at_app_last. reflexivity.
Qed.

Lemma argmax_rows_keeps P rest : forall rows best,
  Forall (fun r => length r = P) rest -> length best = P ->
  (forall j, (j < P)%nat -> best_so_far rows j (nth j best (0, 0%Z))) ->
  length (argmax_rows (Z.of_nat (length rows)) best rest) = P
  /\ forall j, (j < P)%nat ->
       best_so_far (rows ++ rest) j
         (nth j (argmax_rows (Z.of_nat (length rows)) best rest) (0, 0%Z)).
Proof.
  induction rest as [|r rest IH]; intros rows best Hrest Hb H;
    cbn [argmax_rows].
  - rewrite app_nil_r. auto.
  - apply Forall_cons_iff in Hrest. destruct Hrest as [Hr Hrest'].
    destruct (argmax_step_keeps rows r best P Hr Hb H) as [Hlen Hstep].
    specialize (IH (rows ++ [r]) _ Hrest' Hlen Hstep).
    rewrite length_app in IH. cbn [length] in IH.
    rewrite Nat2Z.inj_add in IH. cbn [Z.of_nat Pos.of_succ_nat] in IH.
    rewrite <- app_assoc in IH. exact IH.
Qed.

End IoUBatchFacts.

(** ** Further properties of the metric *)

Section IoUBatchProperties.
Import Tensor1 IoU IoUSpec IoUBatch.

(** X1.  [reset] after any run of updates gives back the accumulator that
    [reset] gave at the start: [update] writes the two counter tensors and
    nothing else. *)
Theorem reset_after_updates :
  forall s bs s',
    updates s bs = Some s' -> reset s' = reset s.
Proof.
  intros s bs s' H. apply updates_fields in H. destruct H as [Hn Hs].
  unfold reset. rewrite Hn, Hs. reflexivity.
Qed.

Lemma reset_after_updates_witness :
  exists s',
    updates (init 2 (1 # 2)) [(scenario_scores, scenario_targets)] = Some s'
    /\ reset s' = reset (init 2 (1 # 2)).
Proof.
  eexists. split; [reflexivity|].
  apply (reset_after_updates (init 2 (1 # 2))
           [(scenario_scores, scenario_targets)] _ eq_refl).
Defined.

(** X2.  [update] raises whenever a batch item has an empty class
    dimension, and whenever, with at least one class to count, the numbers
    of predicted labels and of targets differ and neither is 1.  (These are
    not all the ways in which it raises: a tensor is given here by its
    entries, so that a target tensor that [view(-1)] refuses for its
    strides, or an empty batch with an empty class dimension, is not
    told apart.) *)
Theorem update_raises_when :
  forall s x y,
    In [] x
    \/ ((1 <= num_classes s)%nat
        /\ exists xl,
             argmax_dim1 x = Some xl
             /\ length (view_flat xl) <> length (view_flat y)
             /\ length (view_flat xl) <> 1%nat
             /\ length (view_flat y) <> 1%nat) ->
    update s x y = None.
Proof.
  intros s x y H. unfold update.
  destruct H as [H|[Hn [xl [E [H1 [H2 H3]]]]]].
  - apply argmax_dim1_None in H. rewrite H. reflexivity.
  - rewrite E. cbn [bind]. destruct (num_classes s) as [|n]; [lia|].
    apply update_loop_first_raises. apply broadcast2_None_iff.
    rewrite !eq_scalar_length. auto.
Qed.

Lemma update_raises_when_witness :
  update (init 2 0) [[[0; 0]; [1; 1]]] [[1; 1; 0]]%Z = None.
Proof.
  apply (update_raises_when (init 2 0) [[[0; 0]; [1; 1]]] [[1; 1; 0]]%Z).
  right. split; [cbn; lia|]. exists [[1; 1]]%Z.
  split; [reflexivity|]. cbn. repeat split; lia.
Defined.





(** X5.  No [update] lowers a counter: after any run of updates every entry of
    inter and of union is at least what it was. *)
Theorem counters_never_decrease :
  forall s bs s',
    updates s bs = Some s' ->
    Forall2 Qle (inter s) (inter s') /\ Forall2 Qle (union s) (union s').
Proof.
  intros s bs s'. apply updates_grows.
Qed.

Lemma counters_never_decrease_witness :
  exists s',
    updates (init 2 (1 # 2)) [(scenario_scores, scenario_targets)] = Some s'
    /\ Forall2 Qle (inter (init 2 (1 # 2))) (inter s')
    /\ Forall2 Qle (union (init 2 (1 # 2))) (union s').
Proof.
  eexists. split; [reflexivity|].
  apply (counters_never_decrease (init 2 (1 # 2))
           [(scenario_scores, scenario_targets)] _ eq_refl).
Defined.

(** X6.  With a non-negative smoothing constant every score that is a number
    lies between 0 and 1. *)
Theorem score_between_0_and_1 :
  forall s0 bs s' m,
    0 <= smooth s0 ->
    updates (reset s0) bs = Some s' ->
    score s' = Some (Fin m) ->
    0 <= m <= 1.
Proof.
  intros s0 bs s' m Hs H Hm.
  pose proof (updates_wf bs _ _ (reset_wf s0) H) as [Wi Wu].
  pose proof (updates_grows bs _ _ H) as [Gi Gu].
  cbn [reset inter union] in Gi, Gu. rewrite zeros_plus_repeat in Gi, Gu.
  pose proof (Forall2_Qle_repeat _ _ _ Hs Gi) as Hi.
  pose proof (Forall2_Qle_repeat _ _ _ Hs Gu) as Hu.
  unfold score in Hm. rewrite broadcast2_same in Hm by congruence.
  cbn [bind] in Hm. inversion Hm as [Hm'].
  apply (torch_mean_bounds _ _ (finite_ratios_ge_0 _ _ Hi Hu)
           (finite_ratios_le_1 _ _
              (updates_le bs _ _ (reset_le s0) H) Hu) Hm').
Qed.

Lemma score_between_0_and_1_witness :
  exists s' m,
    updates (reset (init 2 (1 # 2))) [(scenario_scores, scenario_targets)]
    = Some s'
    /\ score s' = Some (Fin m) /\ 0 <= m <= 1.
Proof.
  eexists. eexists. split; [reflexivity|]. split; [reflexivity|].
  apply (score_between_0_and_1 (init 2 (1 # 2))
           [(scenario_scores, scenario_targets)] _ _
           ltac:(cbn; discriminate) eq_refl eq_refl).
Defined.

(** X7.  When every pixel of every batch is predicted as its target, inter and
    union stay equal after [reset], no [update] raises, and a score that is
    a number is 1. *)
Theorem perfect_predictions_score_1 :
  forall s0 bs,
    Forall perfect bs ->
    exists s',
      updates (reset s0) bs = Some s'
      /\ inter s' = union s'
      /\ forall m, score s' = Some (Fin m) -> m == 1.
Proof.
  intros s0 bs Hbs.
  assert (G : forall s, wf s -> inter s = union s ->
                exists s', updates s bs = Some s' /\ wf s'
                           /\ inter s' = union s').
  { induction Hbs as [|[x y] bs [xl [Ex Hxy]] Hbs IH]; intros s W E.
    - exists s. cbn [updates]. auto.
    - cbn [fst snd] in Ex, Hxy. cbn [updates].
      pose proof (update_closed s x y xl W Ex ltac:(rewrite Hxy; reflexivity))
        as U.
      rewrite U. cbn [bind]. apply IH.
      + eapply update_wf; [exact W|exact U].
      + cbn [inter union]. rewrite Hxy, E.
        apply add_counts_ext. intros k.
        rewrite count_and_same, count_or_same. reflexivity. }
  destruct (G (reset s0) (reset_wf s0) eq_refl) as [s' [H [[Wi Wu] E]]].
  exists s'. split; [exact H|]. split; [exact E|].
  intros m Hm. unfold score in Hm.
  rewrite broadcast2_same in Hm by congruence. cbn [bind] in Hm.
  inversion Hm as [Hm']. rewrite E in Hm'.
  apply (torch_mean_ones _ _ (finite_ratios_same _) Hm').
Qed.

Lemma perfect_predictions_score_1_witness :
  exists s' m,
    updates (reset (init 1 0)) [([[[3; 1; 2]]], [[0; 0; 0]]%Z)] = Some s'
    /\ score s' = Some (Fin m) /\ m == 1.
Proof.
  destruct (perfect_predictions_score_1 (init 1 0)
              [([[[3; 1; 2]]], [[0; 0; 0]]%Z)]) as [s' [H [_ Hm]]].
  - repeat constructor. exists [[0; 0; 0]]%Z. split; reflexivity.
  - exists s'. vm_compute in H. inversion H; subst s'.
    eexists. split; [reflexivity|]. split; [reflexivity|].
    apply Hm. reflexivity.
Defined.



(** X11.  For a batch item of [C >= 1] class rows of [P] scores each, [argmax]
    returns [P] labels, and the label of every position is a class below
    [C] with a maximal score there, the first one if several classes share
    the maximum. *)
Theorem argmax_picks_first_maximum :
  forall rows P labels,
    Forall (fun r => length r = P) rows ->
    argmax_item rows = Some labels ->
    length labels = P
    /\ forall j, (j < P)%nat -> first_maximum rows j (nth j labels 0%Z).
Proof.
  intros rows P labels Hrows H.
  destruct rows as [|r0 rest]; [discriminate|].
  cbn [argmax_item] in H. inversion H; subst labels. clear H.
  apply Forall_cons_iff in Hrows. destruct Hrows as [Hr0 Hrest].
  destruct (argmax_rows_keeps P rest [r0] (map (fun v => (v, 0%Z)) r0) Hrest)
    as [Hlen Hbest].
  - rewrite length_map. exact Hr0.
  - intros j Hj.
    change (0, 0%Z) with ((fun v : Q => (v, 0%Z)) 0). rewrite map_nth.
    unfold best_so_far, first_maximum. cbn [fst snd length Z.to_nat].
    split; [split; [|split]|].
    + cbn. lia.
    + intros c Hc. replace c with 0%nat by lia. apply Qle_refl.
    + intros c Hc. lia.
    + reflexivity.
  - cbn [length Z.of_nat Pos.of_succ_nat] in Hlen, Hbest. cbn [app] in Hbest.
    split; [rewrite length_map; exact Hlen|].
    intros j Hj. change 0%Z with (snd (0, 0%Z)). rewrite map_nth.
    apply Hbest. exact Hj.
Qed.

Lemma argmax_picks_first_maximum_witness :
  argmax_item [[1; 0; 2]; [1; 3; 2]; [0; 3; 5 # 2]] = Some [0; 1; 2]%Z
  /\ first_maximum [[1; 0; 2]; [1; 3; 2]; [0; 3; 5 # 2]] 1 1%Z.
Proof.
  split; [reflexivity|].
  apply (proj2 (argmax_picks_first_maximum
                  [[1; 0; 2]; [1; 3; 2]; [0; 3; 5 # 2]] 3 [0; 1; 2]%Z
                  ltac:(repeat constructor) eq_refl) 1%nat).
  lia.
Defined.

End IoUBatchProperties.

(** ** Facts about float32 addition *)

Section Float32Facts.
Import Float32.
Local Open Scope Z_scope.

Lemma iter_xO_Z m d : Zpos (Pos.iter xO m d) = Zpos m * 2 ^ Zpos d.
Proof.
  induction d as [|d IH] using Pos.peano_ind.
  - cbn [Pos.iter]. rewrite (Pos2Z.inj_xO m). change (2 ^ 1) with 2. ring.
  - rewrite Pos.iter_succ, (Pos2Z.inj_xO (Pos.iter xO m d)), IH,
      Pos2Z.inj_succ, Z.pow_succ_r by lia.
    ring.
Qed.

Lemma sh_Z m k : 0 <= k -> Zpos (sh m k) = Zpos m * 2 ^ k.
Proof.
  intros Hk. destruct k as [|d|d]; cbn [sh]; [change (2 ^ 0) with 1; ring| |lia].
  apply iter_xO_Z.
Qed.

Lemma digits_bounds p :
  2 ^ (Zpos (digits2_pos p) - 1) <= Zpos p < 2 ^ Zpos (digits2_pos p).
Proof.
  induction p as [p IH|p IH|]; cbn [digits2_pos].
  - rewrite Pos2Z.inj_succ, Pos2Z.inj_xI.
    replace (Z.succ (Zpos (digits2_pos p)) - 1)
      with (Z.succ (Zpos (digits2_pos p) - 1)) by lia.
    rewrite !Z.pow_succ_r by lia.
    set (u := 2 ^ (Zpos (digits2_pos p) - 1)) in *.
    set (v := 2 ^ Zpos (digits2_pos p)) in *. clearbody u v. lia.
  - rewrite Pos2Z.inj_succ, (Pos2Z.inj_xO p).
    replace (Z.succ (Zpos (digits2_pos p)) - 1)
      with (Z.succ (Zpos (digits2_pos p) - 1)) by lia.
    rewrite !Z.pow_succ_r by lia.
    set (u := 2 ^ (Zpos (digits2_pos p) - 1)) in *.
    set (v := 2 ^ Zpos (digits2_pos p)) in *. clearbody u v. lia.
  - cbn. lia.
Qed.

Lemma digits_unique p d :
  2 ^ (d - 1) <= Zpos p < 2 ^ d -> Zpos (digits2_pos p) = d.
Proof.
  intros [H1 H2]. destruct (digits_bounds p) as [H3 H4].
  assert (Hd : 0 < d).
  { destruct (Z.lt_ge_cases 0 d) as [H|H]; [exact H|].
    assert (2 ^ d <= 2 ^ 0) by (apply Z.pow_le_mono_r; lia).
    change (2 ^ 0) with 1 in *. lia. }
  assert (d - 1 < Zpos (digits2_pos p)).
  { apply (Z.pow_lt_mono_r_iff 2); lia. }
  assert (Zpos (digits2_pos p) - 1 < d).
  { apply (Z.pow_lt_mono_r_iff 2); lia. }
  lia.
Qed.

Lemma digits_sh m k :
  0 <= k -> Zpos (digits2_pos (sh m k)) = Zpos (digits2_pos m) + k.
Proof.
  intros Hk. apply digits_unique. rewrite sh_Z by exact Hk.
  destruct (digits_bounds m) as [H1 H2].
  replace (Zpos (digits2_pos m) + k - 1) with (Zpos (digits2_pos m) - 1 + k)
    by lia.
  rewrite !Z.pow_add_r by lia.
  assert (0 < 2 ^ k) by (apply Z.pow_pos_nonneg; lia).
  split; nia.
Qed.

Lemma sh_sh m a b : 0 <= a -> 0 <= b -> sh (sh m a) b = sh m (a + b).
Proof.
  intros Ha Hb. apply Pos2Z.inj. rewrite !sh_Z by lia.
  rewrite Z.pow_add_r by lia. ring.
Qed.

Lemma shr_exact s : forall m,
  iter_pos shr_1 s (Build_shr_record (Zpos (Pos.iter xO m s)) false false)
  = Build_shr_record (Zpos m) false false.
Proof.
  induction s as [s IH|s IH|]; intros m; cbn [iter_pos Pos.iter shr_1 orb].
  - rewrite IH, IH. reflexivity.
  - rewrite IH, IH. reflexivity.
  - reflexivity.
Qed.

(** A positive integer shifted and rounded: up to 24 bits nothing is lost. *)
Lemma round_canonical n k :
  0 <= k -> Zpos (digits2_pos n) <= 24 ->
  binary_round prec emax false (sh n k) (- k)
  = S754_finite false (sh n (24 - Zpos (digits2_pos n)))
                (Zpos (digits2_pos n) - 24).
Proof.
  intros Hk Hd. set (d := Zpos (digits2_pos n)) in *.
  assert (Hd0 : 0 < d) by (unfold d; lia).
  unfold binary_round. rewrite digits_sh by exact Hk. fold d.
  replace (d + k + - k) with d by lia.
  assert (Hf : fexp prec emax d = d - 24).
  { unfold fexp, emin, prec, emax. lia. }
  rewrite Hf. unfold shl_align.
  destruct (d - 24 - - k) as [|s|s] eqn:Es.
  - (* already aligned *)
    assert (k = 24 - d) by lia. subst k.
    unfold binary_round_aux, shr_fexp. cbn [Zdigits2].
    rewrite digits_sh by lia. fold d.
    replace (d + (24 - d) + - (24 - d)) with d by lia. rewrite Hf.
    replace (d - 24 - - (24 - d)) with 0 by lia.
    cbn [shr shr_record_of_loc shr_m loc_of_shr_record round_nearest_even
         Zdigits2].
    rewrite digits_sh by lia. fold d.
    replace (d + (24 - d) + - (24 - d)) with d by lia. rewrite Hf.
    replace (d - 24 - - (24 - d)) with 0 by lia.
    cbn [shr shr_m].
    replace (- (24 - d) <=? emax - prec) with true
      by (symmetry; apply Z.leb_le; unfold emax, prec; lia).
    f_equal. lia.
  - (* more bits than needed below: they are zero and shifted out *)
    unfold binary_round_aux, shr_fexp. cbn [Zdigits2].
    rewrite digits_sh by lia. fold d.
    replace (d + k + - k) with d by lia. rewrite Hf, Es.
    cbn [shr shr_record_of_loc].
    replace (sh n k) with (Pos.iter xO (sh n (24 - d)) s).
    2:{ change (Pos.iter xO (sh n (24 - d)) s) with (sh (sh n (24 - d)) (Zpos s)).
        rewrite sh_sh by lia. f_equal. lia. }
    rewrite shr_exact.
    cbn [shr_m loc_of_shr_record round_nearest_even Zdigits2].
    rewrite digits_sh by lia. fold d.
    replace (d + (24 - d) + (- k + Zpos s)) with d by lia. rewrite Hf.
    replace (d - 24 - (- k + Zpos s)) with 0 by lia.
    cbn [shr shr_m].
    replace (- k + Zpos s <=? emax - prec) with true
      by (symmetry; apply Z.leb_le; unfold emax, prec; lia).
    f_equal. lia.
  - (* fewer bits: shifted left first *)
    unfold binary_round_aux, shr_fexp. cbn [Zdigits2].
    change (Pos.iter xO (sh n k) s) with (sh (sh n k) (Zpos s)).
    rewrite sh_sh by lia.
    replace (k + Zpos s) with (24 - d) by lia.
    rewrite digits_sh by lia. fold d.
    replace (d + (24 - d) + (d - 24)) with d by lia. rewrite Hf.
    replace (d - 24 - (d - 24)) with 0 by lia.
    cbn [shr shr_record_of_loc shr_m loc_of_shr_record round_nearest_even
         Zdigits2].
    rewrite digits_sh by lia. fold d.
    replace (d + (24 - d) + (d - 24)) with d by lia. rewrite Hf.
    replace (d - 24 - (d - 24)) with 0 by lia.
    cbn [shr shr_m].
    replace (d - 24 <=? emax - prec) with true
      by (symmetry; apply Z.leb_le; unfold emax, prec; lia).
    reflexivity.
Qed.

Lemma digits_le_24 n : Zpos n < 2 ^ 24 -> Zpos (digits2_pos n) <= 24.
Proof.
  intros H. destruct (digits_bounds n) as [H1 _].
  assert (Zpos (digits2_pos n) - 1 < 24); [|lia].
  apply (Z.pow_lt_mono_r_iff 2); lia.
Qed.

Lemma of_int_pos n : Zpos n < 2 ^ 24 -> of_int (Zpos n) = canon n.
Proof.
  intros H. apply digits_le_24 in H.
  exact (round_canonical n 0 ltac:(lia) H).
Qed.

Lemma shl_align_fst mx ex ez :
  ez <= ex -> fst (shl_align mx ex ez) = sh mx (ex - ez).
Proof.
  intros H. unfold shl_align.
  destruct (ez - ex) as [|d|d] eqn:E.
  - replace (ex - ez) with 0 by lia. reflexivity.
  - lia.
  - replace (ex - ez) with (Zpos d) by lia. reflexivity.
Qed.

Lemma add_canon a b :
  Zpos a + Zpos b < 2 ^ 24 -> add (canon a) (canon b) = canon (a + b).
Proof.
  intros H.
  assert (Ha : Zpos (digits2_pos a) <= 24) by (apply digits_le_24; lia).
  assert (Hb : Zpos (digits2_pos b) <= 24) by (apply digits_le_24; lia).
  assert (Hab : Zpos (digits2_pos (a + b)) <= 24)
    by (apply digits_le_24; rewrite Pos2Z.inj_add; lia).
  unfold add, canon at 1 2, SFadd, cond_Zopp.
  set (da := Zpos (digits2_pos a)) in *. set (db := Zpos (digits2_pos b)) in *.
  set (ez := Z.min (da - 24) (db - 24)).
  rewrite !shl_align_fst by (unfold ez; lia).
  replace (Zpos (sh (sh a (24 - da)) (da - 24 - ez))
           + Zpos (sh (sh b (24 - db)) (db - 24 - ez)))
    with (Zpos (sh (a + b) (- ez))).
  2:{ rewrite !sh_sh by (unfold ez; lia). rewrite !sh_Z by (unfold ez; lia).
      rewrite Pos2Z.inj_add.
      replace (24 - da + (da - 24 - ez)) with (- ez) by lia.
      replace (24 - db + (db - 24 - ez)) with (- ez) by lia. ring. }
  cbn [binary_normalize].
  replace ez with (- - ez) at 2 by lia.
  apply (round_canonical (a + b) (- ez)); [unfold ez; lia|exact Hab].
Qed.

(** Below 2^24 the float32 sum of two counts is their sum. *)
Lemma add_of_int a b :
  0 <= a -> 0 <= b -> a + b < 2 ^ 24 ->
  add (of_int a) (of_int b) = of_int (a + b).
Proof.
  intros Ha Hb H. destruct a as [|a|a]; [|destruct b as [|b|b]|]; try lia.
  - destruct b as [|b|b]; try lia; [reflexivity|].
    change (0 + Zpos b) with (Zpos b). rewrite of_int_pos by lia. reflexivity.
  - rewrite Z.add_0_r, of_int_pos by lia. reflexivity.
  - rewrite !of_int_pos by lia.
    change (Zpos a + Zpos b) with (Zpos (a + b)).
    rewrite of_int_pos by (rewrite Pos2Z.inj_add; lia).
    apply add_canon. exact H.
Qed.

End Float32Facts.

(** ** Facts about the float32 counters *)

Section IoU32Facts.
Import Tensor1 IoU IoUSpec IoUBatch.
Local Open Scope Z_scope.

Lemma iadd32_at_app pre c rest v k :
  length pre = k ->
  IoU32.iadd_at (pre ++ c :: rest) k v
  = Some (pre ++ Float32.add c (Float32.of_int v) :: rest).
Proof.
  intros <-.
  induction pre as [|p pre IH]; cbn [app length IoU32.iadd_at]; [reflexivity|].
  rewrite IH. reflexivity.
Qed.

(** On labels and targets of equal number the loop over the classes
    [i, i+m) turns counters holding the integers [n0 + fi k], [n0 + fu k]
    into counters holding these plus the two counts, as long as the sums
    stay below 2^24. *)
Lemma update32_loop_exact x y n sm n0 fi fu :
  length x = length y ->
  0 <= n0 ->
  (forall k, 0 <= fi k) -> (forall k, 0 <= fu k) ->
  (forall k, n0 + fi k + count_and x y k < 2 ^ 24) ->
  (forall k, n0 + fu k + count_or x y k < 2 ^ 24) ->
  forall m i pi pu,
    length pi = i -> length pu = i ->
    IoU32.update_loop x y
      (IoU32.mk n sm
         (pi ++ map (fun k => Float32.of_int (n0 + fi k)) (seq i m))
         (pu ++ map (fun k => Float32.of_int (n0 + fu k)) (seq i m)))
      (seq i m)
    = Some (IoU32.mk n sm
              (pi ++ map (fun k => Float32.of_int
                                     (n0 + (fi k + count_and x y k)))
                         (seq i m))
              (pu ++ map (fun k => Float32.of_int
                                     (n0 + (fu k + count_or x y k)))
                         (seq i m))).
Proof.
  intros Hxy Hn0 Hfi Hfu Bi Bu.
  induction m as [|m IH]; intros i pi pu Hpi Hpu.
  - reflexivity.
  - cbn [seq map IoU32.update_loop]. unfold IoU32.update_class.
    cbn [IoU32.inter IoU32.union IoU32.num_classes IoU32.smooth].
    rewrite !broadcast2_same by (rewrite !eq_scalar_length; exact Hxy).
    cbn [bind]. rewrite (iadd32_at_app pi _ _ _ i Hpi). cbn [bind].
    rewrite (iadd32_at_app pu _ _ _ i Hpu). cbn [bind].
    fold (count_and x y i). fold (count_or x y i).
    assert (Ci : 0 <= count_and x y i) by apply sum_bool_nonneg.
    assert (Cu : 0 <= count_or x y i) by apply sum_bool_nonneg.
    specialize (Hfi i). specialize (Hfu i).
    specialize (Bi i). specialize (Bu i).
    rewrite !add_of_int by lia.
    replace (n0 + fi i + count_and x y i) with (n0 + (fi i + count_and x y i))
      by lia.
    replace (n0 + fu i + count_or x y i) with (n0 + (fu i + count_or x y i))
      by lia.
    set (ci := Float32.of_int (n0 + (fi i + count_and x y i))).
    set (cu := Float32.of_int (n0 + (fu i + count_or x y i))).
    replace (pi ++ ci :: map (fun k => Float32.of_int (n0 + fi k)) (seq (S i) m))
      with ((pi ++ [ci]) ++ map (fun k => Float32.of_int (n0 + fi k)) (seq (S i) m))
      by (rewrite <- app_assoc; reflexivity).
    replace (pu ++ cu :: map (fun k => Float32.of_int (n0 + fu k)) (seq (S i) m))
      with ((pu ++ [cu]) ++ map (fun k => Float32.of_int (n0 + fu k)) (seq (S i) m))
      by (rewrite <- app_assoc; reflexivity).
    rewrite IH by (rewrite length_app; cbn [length]; lia).
    rewrite <- !app_assoc. reflexivity.
Qed.

Lemma counters_ext n0 f g n :
  (forall k, f k = g k) -> IoU32.counters n0 f n = IoU32.counters n0 g n.
Proof.
  intros H. unfold IoU32.counters. apply map_ext. intros k. rewrite H.
  reflexivity.
Qed.

Lemma count_or_le_length x y k :
  count_or x y k <= Z.of_nat (length y).
Proof.
  unfold count_or.
  eapply Z.le_trans; [apply sum_bool_le_length|].
  rewrite zip_with_length, !eq_scalar_length. lia.
Qed.

Lemma count_and_le_or x y k : count_and x y k <= count_or x y k.
Proof. apply sum_bool_and_le_or. Qed.

Lemma labels_Some x xl : argmax_dim1 x = Some xl -> IoU32.labels x = view_flat xl.
Proof. intros H. unfold IoU32.labels. rewrite H. reflexivity. Qed.

(** One [update] in the exact range. *)
Lemma update32_exact n sm n0 fi fu x y :
  well_shaped x y = true ->
  0 <= n0 ->
  (forall k, 0 <= fi k <= fu k) ->
  (forall k, n0 + fu k + Z.of_nat (length (view_flat y)) < 2 ^ 24) ->
  IoU32.update
    (IoU32.mk n sm (IoU32.counters n0 fi n) (IoU32.counters n0 fu n)) x y
  = Some (IoU32.mk n sm
            (IoU32.counters n0
               (fun k => fi k + count_and (IoU32.labels x) (view_flat y) k) n)
            (IoU32.counters n0
               (fun k => fu k + count_or (IoU32.labels x) (view_flat y) k) n)).
Proof.
  intros Hw Hn0 Hf B. apply well_shaped_spec in Hw.
  destruct Hw as [xl [Ex Hlen]].
  unfold IoU32.update. rewrite Ex, (labels_Some x xl Ex). cbn [bind].
  cbn [IoU32.num_classes]. unfold IoU32.counters.
  apply (update32_loop_exact _ _ n sm n0 fi fu Hlen Hn0
           (fun k => proj1 (Hf k))
           (fun k => Z.le_trans _ _ _ (proj1 (Hf k)) (proj2 (Hf k))))
    with (pi := []) (pu := []); try reflexivity.
  - intros k. specialize (Hf k). specialize (B k).
    pose proof (count_and_le_or (view_flat xl) (view_flat y) k).
    pose proof (count_or_le_length (view_flat xl) (view_flat y) k). lia.
  - intros k. specialize (B k).
    pose proof (count_or_le_length (view_flat xl) (view_flat y) k). lia.
Qed.

Lemma pixels_nonneg bs : 0 <= IoU32.pixels bs.
Proof. induction bs as [|b bs IH]; cbn [IoU32.pixels]; lia. Qed.

Lemma total_and_bounds bs k :
  0 <= IoU32.total_and bs k <= IoU32.total_or bs k.
Proof.
  induction bs as [|b bs IH]; cbn [IoU32.total_and IoU32.total_or]; [lia|].
  pose proof (count_and_le_or (IoU32.labels (fst b)) (view_flat (snd b)) k).
  assert (0 <= count_and (IoU32.labels (fst b)) (view_flat (snd b)) k)
    by apply sum_bool_nonneg.
  lia.
Qed.

Lemma total_or_le_pixels bs k : IoU32.total_or bs k <= IoU32.pixels bs.
Proof.
  induction bs as [|b bs IH]; cbn [IoU32.total_or IoU32.pixels]; [lia|].
  pose proof (count_or_le_length (IoU32.labels (fst b)) (view_flat (snd b)) k).
  lia.
Qed.

(** A run of updates in the exact range. *)
Lemma updates32_exact n sm n0 bs : forall fi fu,
  Forall (fun b => well_shaped_batch b = true) bs ->
  0 <= n0 ->
  (forall k, 0 <= fi k <= fu k) ->
  (forall k, n0 + fu k + IoU32.pixels bs < 2 ^ 24) ->
  IoU32.updates
    (IoU32.mk n sm (IoU32.counters n0 fi n) (IoU32.counters n0 fu n)) bs
  = Some (IoU32.mk n sm
            (IoU32.counters n0 (fun k => fi k + IoU32.total_and bs k) n)
            (IoU32.counters n0 (fun k => fu k + IoU32.total_or bs k) n)).
Proof.
  induction bs as [|[x y] bs IH]; intros fi fu Hw Hn0 Hf B.
  - cbn [IoU32.updates IoU32.total_and IoU32.total_or].
    f_equal. f_equal; apply counters_ext; intros k; lia.
  - apply Forall_cons_iff in Hw. destruct Hw as [Hxy Hw].
    unfold well_shaped_batch in Hxy. cbn [fst snd] in Hxy.
    cbn [IoU32.updates IoU32.pixels IoU32.total_and IoU32.total_or fst snd]
      in *.
    pose proof (pixels_nonneg bs) as Hp.
    rewrite update32_exact; [|exact Hxy|exact Hn0|exact Hf|].
    2:{ intros k. specialize (B k). lia. }
    cbn [bind]. rewrite IH; [|exact Hw|exact Hn0| |].
    + f_equal. f_equal; apply counters_ext; intros k; lia.
    + intros k. specialize (Hf k).
      pose proof (count_and_le_or (IoU32.labels x) (view_flat y) k).
      assert (0 <= count_and (IoU32.labels x) (view_flat y) k)
        by apply sum_bool_nonneg.
      lia.
    + intros k. specialize (B k).
      pose proof (count_or_le_length (IoU32.labels x) (view_flat y) k). lia.
Qed.

(** [reset] with a smoothing constant that float32 holds as the integer
    [n0]. *)
Lemma reset32_exact s0 n0 :
  Float32.of_double (IoU32.smooth s0) = Float32.of_int n0 ->
  0 <= n0 < 2 ^ 24 ->
  IoU32.reset s0
  = IoU32.mk (IoU32.num_classes s0) (IoU32.smooth s0)
      (IoU32.counters n0 (fun _ => 0) (IoU32.num_classes s0))
      (IoU32.counters n0 (fun _ => 0) (IoU32.num_classes s0)).
Proof.
  intros Hs Hn0. unfold IoU32.reset.
  set (n := IoU32.num_classes s0). set (sm := IoU32.smooth s0) in *.
  assert (E : IoU32.zeros_plus n sm = IoU32.counters n0 (fun _ => 0) n).
  { unfold IoU32.zeros_plus, IoU32.counters. rewrite Hs.
    generalize 0%nat. induction n as [|n IH]; intros i; [reflexivity|].
    cbn [repeat map seq]. rewrite (IH (S i)). f_equal.
    change Float32.zero with (Float32.of_int 0).
    rewrite add_of_int by lia. f_equal. lia. }
  rewrite E. reflexivity.
Qed.

(** What a run of batches adds is what their concatenation adds. *)
Lemma labels_app a c :
  argmax_dim1 a <> None -> argmax_dim1 c <> None ->
  IoU32.labels (a ++ c) = IoU32.labels a ++ IoU32.labels c.
Proof.
  intros Ha Hc. unfold IoU32.labels, argmax_dim1 in *. rewrite mapM_app.
  destruct (mapM argmax_item a) as [xa|]; [|congruence].
  destruct (mapM argmax_item c) as [xc|]; [|congruence].
  cbn [bind]. unfold view_flat. apply concat_app.
Qed.

Lemma well_shaped_labels x y :
  well_shaped x y = true ->
  argmax_dim1 x <> None /\ length (IoU32.labels x) = length (view_flat y).
Proof.
  intros H. apply well_shaped_spec in H. destruct H as [xl [E L]].
  rewrite (labels_Some x xl E). split; [congruence|exact L].
Qed.

Lemma totals_concat bs :
  Forall (fun b => well_shaped_batch b = true) bs ->
  forall k,
    count_and (IoU32.labels (concat (map fst bs)))
              (view_flat (concat (map snd bs))) k
    = IoU32.total_and bs k
    /\ count_or (IoU32.labels (concat (map fst bs)))
                (view_flat (concat (map snd bs))) k
       = IoU32.total_or bs k
    /\ Z.of_nat (length (view_flat (concat (map snd bs)))) = IoU32.pixels bs.
Proof.
  intros Hw k. induction Hw as [|[x y] bs Hxy Hw IH].
  - repeat split; reflexivity.
  - unfold well_shaped_batch in Hxy. cbn [fst snd] in Hxy.
    destruct (well_shaped_labels x y Hxy) as [Hx Hl].
    pose proof (well_shaped_concat bs Hw) as Hc.
    destruct (well_shaped_labels _ _ Hc) as [Hcx Hcl].
    cbn [map concat IoU32.total_and IoU32.total_or IoU32.pixels fst snd].
    rewrite labels_app by assumption.
    unfold view_flat at 1 3 5. rewrite !concat_app.
    fold (view_flat y). fold (view_flat (concat (map snd bs))).
    destruct IH as [IH1 [IH2 IH3]].
    rewrite count_and_app, count_or_app by exact Hl.
    rewrite IH1, IH2, length_app, Nat2Z.inj_add, IH3. auto.
Qed.

Lemma totals_permutation bs bs' :
  Permutation bs bs' ->
  forall k, IoU32.total_and bs k = IoU32.total_and bs' k
            /\ IoU32.total_or bs k = IoU32.total_or bs' k
            /\ IoU32.pixels bs = IoU32.pixels bs'.
Proof.
  intros P k. induction P as [|b l l' P IH|a b l|l l' l'' P1 IH1 P2 IH2];
    cbn [IoU32.total_and IoU32.total_or IoU32.pixels]; lia.
Qed.

End IoU32Facts.

(** ** Batches that are tensors *)

Section IoUShapeFacts.
Import Tensor1 IoU IoUSpec IoUBatch.
Local Open Scope nat_scope.

Lemma argmax_rows_length P rest : forall c best,
  Forall (fun r => length r = P) rest -> length best = P ->
  length (argmax_rows c best rest) = P.
Proof.
  induction rest as [|r rest IH]; intros c best Hrest Hb; cbn [argmax_rows].
  - exact Hb.
  - apply Forall_cons_iff in Hrest. destruct Hrest as [Hr Hrest].
    apply IH; [exact Hrest|]. unfold argmax_step.
    rewrite zip_with_length. lia.
Qed.

Lemma argmax_item_length C P item :
  1 <= C -> length item = C -> Forall (fun r => length r = P) item ->
  exists l, argmax_item item = Some l /\ length l = P.
Proof.
  intros HC Hlen Hrows. destruct item as [|r rest]; [cbn in Hlen; lia|].
  apply Forall_cons_iff in Hrows. destruct Hrows as [Hr Hrest].
  cbn [argmax_item]. eexists. split; [reflexivity|].
  rewrite length_map. apply argmax_rows_length; [exact Hrest|].
  rewrite length_map. exact Hr.
Qed.

Lemma forallb_length_eqb {A} P (l : list (list A)) :
  forallb (fun row => Nat.eqb (length row) P) l = true ->
  Forall (fun r => length r = P) l.
Proof.
  intros H. apply Forall_forall. intros r Hr.
  rewrite forallb_forall in H. apply Nat.eqb_eq. apply H. exact Hr.
Qed.

Lemma concat_length_uniform {A} P (l : list (list A)) :
  Forall (fun r => length r = P) l -> length (concat l) = length l * P.
Proof.
  induction 1 as [|r l Hr _ IH]; [reflexivity|].
  cbn [concat length]. rewrite length_app, IH, Hr. lia.
Qed.

Lemma scores_shape_labels C P x :
  IoU32.scores_shape C P x = true ->
  exists xl, argmax_dim1 x = Some xl /\ length (view_flat xl) = length x * P.
Proof.
  unfold IoU32.scores_shape. intros H.
  apply andb_prop in H. destruct H as [H Hall].
  apply andb_prop in H. destruct H as [_ HC]. apply Nat.leb_le in HC.
  clear - HC Hall. unfold argmax_dim1, view_flat.
  induction x as [|item x IH]; [exists []; split; reflexivity|].
  cbn [forallb] in Hall. apply andb_prop in Hall. destruct Hall as [Hi Hx].
  apply andb_prop in Hi. destruct Hi as [Hl Hr]. apply Nat.eqb_eq in Hl.
  destruct (argmax_item_length C P item HC Hl (forallb_length_eqb P item Hr))
    as [l [El Ll]].
  destruct (IH Hx) as [xl [Exl Lxl]].
  exists (l :: xl). cbn [mapM]. rewrite El, Exl. cbn [bind]. split; [reflexivity|].
  cbn [concat length]. rewrite length_app, Lxl, Ll. lia.
Qed.

Lemma shaped_well_shaped C P P' b :
  IoU32.shaped C P P' b = true -> well_shaped_batch b = true.
Proof.
  unfold IoU32.shaped, well_shaped_batch, well_shaped. intros H.
  apply andb_prop in H. destruct H as [H Hn].
  apply andb_prop in H. destruct H as [Hx Hy]. apply Nat.eqb_eq in Hn.
  destruct (scores_shape_labels C P (fst b) Hx) as [xl [E L]].
  rewrite E. apply Nat.eqb_eq. rewrite L, Hn. symmetry.
  unfold view_flat. apply concat_length_uniform.
  apply forallb_length_eqb. exact Hy.
Qed.

Lemma shaped_all_well_shaped C P P' bs :
  Forall (fun b => IoU32.shaped C P P' b = true) bs ->
  Forall (fun b => well_shaped_batch b = true) bs.
Proof.
  intros H. eapply Forall_impl; [|exact H].
  intros b Hb. exact (shaped_well_shaped C P P' b Hb).
Qed.

End IoUShapeFacts.

(** ** The float32 counters under concatenation and reordering *)

Section IoU32Properties.
Import Tensor1 IoU IoUSpec IoUBatch.

(** C3 as stated fails on the float32 counters.  With [smooth = 1e-6] an
    update with one pixel followed by an update with 15 pixels leaves 16.0
    in the counters, the one update with the 16 pixels leaves the next
    float32 above 16.0.  With [smooth = 2^24] two updates of one pixel
    each leave 16777216, the one update with both pixels 16777218.  With
    [smooth = 1e-5] one pixel and then 31 leave another value than 31
    pixels and then one. *)
Lemma float32_counters_depend_on_split :
  (let s0 := IoU32.init 1 Float32.double_1em6 in
   let a := [[[1]]] in let b := [[0%Z]] in
   let c := repeat [[1]] 15 in let d := repeat [0%Z] 15 in
   IoU32.shaped 1 1 1 (a, b) = true /\ IoU32.shaped 1 1 1 (c, d) = true
   /\ (s1 <- IoU32.update s0 a b ;; IoU32.update s1 c d)
      = Some (IoU32.mk 1 Float32.double_1em6
                [S754_finite false 8388608 (-19)]
                [S754_finite false 8388608 (-19)])
   /\ IoU32.update s0 (a ++ c) (b ++ d)
      = Some (IoU32.mk 1 Float32.double_1em6
                [S754_finite false 8388609 (-19)]
                [S754_finite false 8388609 (-19)]))
  /\ (let s0 := IoU32.init 1 Float32.double_2p24 in
      (s1 <- IoU32.update s0 [[[1]]] [[0%Z]] ;;
       IoU32.update s1 [[[1]]] [[0%Z]])
      = Some (IoU32.mk 1 Float32.double_2p24
                [S754_finite false 8388608 1] [S754_finite false 8388608 1])
      /\ IoU32.update s0 ([[[1]]] ++ [[[1]]]) ([[0%Z]] ++ [[0%Z]])
         = Some (IoU32.mk 1 Float32.double_2p24
                   [S754_finite false 8388609 1]
                   [S754_finite false 8388609 1]))
  /\ (let s0 := IoU32.init 1 Float32.double_1em5 in
      let one := ([[repeat 1 1]], [repeat 0%Z 1]) in
      let many := ([[repeat 1 31]], [repeat 0%Z 31]) in
      IoU32.updates s0 [one; many]
      = Some (IoU32.mk 1 Float32.double_1em5
                [S754_finite false 8388611 (-18)]
                [S754_finite false 8388611 (-18)])
      /\ IoU32.updates s0 [many; one]
         = Some (IoU32.mk 1 Float32.double_1em5
                   [S754_finite false 8388610 (-18)]
                   [S754_finite false 8388610 (-18)])).
Proof.
  repeat split; vm_compute; reflexivity.
Qed.

(** C3, as amended.  When float32 holds the smoothing constant as an
    integer [n0 >= 0] (as for the default 0) and [n0] plus the number of
    pixels of the two batches is below 2^24, no addition rounds: after
    [reset], [update(a, b)] followed by [update(c, d)], the single call
    [update(concat(a, c), concat(b, d))] and the two calls in the other
    order all leave the same counters, entry [k] holding [n0] plus the
    count of the concatenated batch for class [k].  The two batches have
    scores of shapes [Ba, C, P] and [Bc, C, P] and targets of shapes
    [Ba', P'] and [Bc', P'], with as many targets as predicted labels. *)
Theorem update_concat_assoc :
  forall s0 n0 C P P' a b c d,
    Float32.of_double (IoU32.smooth s0) = Float32.of_int n0 ->
    (0 <= n0)%Z ->
    (n0 + Z.of_nat (length (view_flat b)) + Z.of_nat (length (view_flat d))
     < 2 ^ 24)%Z ->
    IoU32.shaped C P P' (a, b) = true -> IoU32.shaped C P P' (c, d) = true ->
    let s2 :=
      IoU32.mk (IoU32.num_classes s0) (IoU32.smooth s0)
        (IoU32.counters n0
           (count_and (IoU32.labels a ++ IoU32.labels c)
                      (view_flat b ++ view_flat d))
           (IoU32.num_classes s0))
        (IoU32.counters n0
           (count_or (IoU32.labels a ++ IoU32.labels c)
                     (view_flat b ++ view_flat d))
           (IoU32.num_classes s0)) in
    (s1 <- IoU32.update (IoU32.reset s0) a b ;; IoU32.update s1 c d) = Some s2
    /\ IoU32.update (IoU32.reset s0) (a ++ c) (b ++ d) = Some s2
    /\ (s1 <- IoU32.update (IoU32.reset s0) c d ;; IoU32.update s1 a b)
       = Some s2.
Proof.
  intros s0 n0 C P P' a b c d Hs Hn0 B Hab Hcd s2.
  apply shaped_well_shaped in Hab, Hcd.
  unfold well_shaped_batch in Hab, Hcd. cbn [fst snd] in Hab, Hcd.
  pose proof (Nat2Z.is_nonneg (length (view_flat b))) as Pb.
  pose proof (Nat2Z.is_nonneg (length (view_flat d))) as Pd.
  destruct (well_shaped_labels a b Hab) as [Na La].
  destruct (well_shaped_labels c d Hcd) as [Nc Lc].
  rewrite (reset32_exact s0 n0 Hs ltac:(lia)).
  set (n := IoU32.num_classes s0) in *. set (sm := IoU32.smooth s0) in *.
  assert (Z0 : forall k : nat, (0 <= 0 <= 0)%Z) by (intros; lia).
  split; [|split].
  - rewrite update32_exact by (auto; intros; lia). cbn [bind].
    rewrite update32_exact; [|exact Hcd|exact Hn0| |].
    + unfold s2. f_equal. f_equal; apply counters_ext; intros k.
      * rewrite count_and_app by exact La. lia.
      * rewrite count_or_app by exact La. lia.
    + intros k. pose proof (count_and_le_or (IoU32.labels a) (view_flat b) k).
      assert (0 <= count_and (IoU32.labels a) (view_flat b) k)%Z
        by apply sum_bool_nonneg.
      lia.
    + intros k.
      pose proof (count_or_le_length (IoU32.labels a) (view_flat b) k). lia.
  - rewrite update32_exact; [|apply well_shaped_app; assumption|exact Hn0
                             |exact Z0|].
    + unfold s2. rewrite labels_app by assumption.
      unfold view_flat. rewrite concat_app. reflexivity.
    + intros k. unfold view_flat in *. rewrite concat_app, length_app. lia.
  - rewrite update32_exact by (auto; intros; lia). cbn [bind].
    rewrite update32_exact; [|exact Hab|exact Hn0| |].
    + unfold s2. f_equal. f_equal; apply counters_ext; intros k.
      * rewrite count_and_app by exact La. lia.
      * rewrite count_or_app by exact La. lia.
    + intros k. pose proof (count_and_le_or (IoU32.labels c) (view_flat d) k).
      assert (0 <= count_and (IoU32.labels c) (view_flat d) k)%Z
        by apply sum_bool_nonneg.
      lia.
    + intros k.
      pose proof (count_or_le_length (IoU32.labels c) (view_flat d) k). lia.
Qed.

Lemma update_concat_assoc_witness :
  (s1 <- IoU32.update (IoU32.init 2 (S754_zero false))
           [[[0; 0; 0; 0]; [1; 1; 1; 1]]] [[1; 1; 0; 0]]%Z ;;
   IoU32.update s1 [[[1; 0; 1; 0]; [0; 1; 0; 1]]] [[0; 1; 1; 1]]%Z)
  = IoU32.update (IoU32.init 2 (S754_zero false))
      ([[[0; 0; 0; 0]; [1; 1; 1; 1]]] ++ [[[1; 0; 1; 0]; [0; 1; 0; 1]]])
      ([[1; 1; 0; 0]] ++ [[0; 1; 1; 1]])%Z.
Proof.
  destruct (update_concat_assoc
              (IoU32.mk 2 (S754_zero false) [] []) 0 2 4 4
              [[[0; 0; 0; 0]; [1; 1; 1; 1]]] [[1; 1; 0; 0]]%Z
              [[[1; 0; 1; 0]; [0; 1; 0; 1]]] [[0; 1; 1; 1]]%Z
              eq_refl ltac:(lia) eq_refl eq_refl eq_refl)
    as [H1 [H2 _]].
  exact (eq_trans H1 (eq_sym H2)).
Defined.

(** X8.  In the same range (the smoothing constant a float32 integer
    [n0 >= 0], [n0] plus the number of pixels of all the batches below
    2^24) a run of one or more updates, with batches of scores [B, C, P]
    and targets [B', P'] that have as many targets as predicted labels,
    leaves the counters of the single update with all the batches
    concatenated: entry [k] holds [n0] plus the sum over the batches of
    their counts for class [k]. *)
Theorem updates_are_one_update :
  forall s0 n0 C P P' bs,
    Float32.of_double (IoU32.smooth s0) = Float32.of_int n0 ->
    (0 <= n0)%Z -> (n0 + IoU32.pixels bs < 2 ^ 24)%Z ->
    bs <> [] ->
    Forall (fun b => IoU32.shaped C P P' b = true) bs ->
    IoU32.updates (IoU32.reset s0) bs
    = IoU32.update (IoU32.reset s0) (concat (map fst bs)) (concat (map snd bs))
    /\ IoU32.updates (IoU32.reset s0) bs
       = Some (IoU32.mk (IoU32.num_classes s0) (IoU32.smooth s0)
                 (IoU32.counters n0 (IoU32.total_and bs)
                    (IoU32.num_classes s0))
                 (IoU32.counters n0 (IoU32.total_or bs)
                    (IoU32.num_classes s0))).
Proof.
  intros s0 n0 C P P' bs Hs Hn0 B _ Hw.
  apply shaped_all_well_shaped in Hw.
  pose proof (pixels_nonneg bs) as Hp.
  rewrite (reset32_exact s0 n0 Hs ltac:(lia)).
  assert (E : IoU32.updates
                (IoU32.mk (IoU32.num_classes s0) (IoU32.smooth s0)
                   (IoU32.counters n0 (fun _ => 0%Z) (IoU32.num_classes s0))
                   (IoU32.counters n0 (fun _ => 0%Z) (IoU32.num_classes s0)))
                bs
              = Some (IoU32.mk (IoU32.num_classes s0) (IoU32.smooth s0)
                        (IoU32.counters n0 (IoU32.total_and bs)
                           (IoU32.num_classes s0))
                        (IoU32.counters n0 (IoU32.total_or bs)
                           (IoU32.num_classes s0)))).
  { rewrite updates32_exact by (auto; intros; lia). reflexivity. }
  split; [|exact E]. rewrite E.
  rewrite update32_exact;
    [|apply well_shaped_concat; exact Hw|exact Hn0|intros; lia|].
  - f_equal. f_equal; apply counters_ext; intros k;
      destruct (totals_concat bs Hw k) as [T1 [T2 _]]; lia.
  - intros k. destruct (totals_concat bs Hw k) as [_ [_ T3]]. lia.
Qed.

Lemma updates_are_one_update_witness :
  IoU32.updates (IoU32.init 2 (S754_zero false))
    [([[[0; 0; 0; 0]; [1; 1; 1; 1]]], [[1; 1; 0; 0]]%Z);
     ([[[1; 0; 1; 0]; [0; 1; 0; 1]]], [[0; 1; 1; 1]]%Z);
     ([[[2; 0; 1; 0]; [0; 1; 0; 1]]], [[0; 0; 0; 1]]%Z)]
  = IoU32.update (IoU32.init 2 (S754_zero false))
      [[[0; 0; 0; 0]; [1; 1; 1; 1]]; [[1; 0; 1; 0]; [0; 1; 0; 1]];
       [[2; 0; 1; 0]; [0; 1; 0; 1]]]
      [[1; 1; 0; 0]; [0; 1; 1; 1]; [0; 0; 0; 1]]%Z.
Proof.
  apply (proj1 (updates_are_one_update
                  (IoU32.mk 2 (S754_zero false) [] []) 0 2 4 4
                  [([[[0; 0; 0; 0]; [1; 1; 1; 1]]], [[1; 1; 0; 0]]%Z);
                   ([[[1; 0; 1; 0]; [0; 1; 0; 1]]], [[0; 1; 1; 1]]%Z);
                   ([[[2; 0; 1; 0]; [0; 1; 0; 1]]], [[0; 0; 0; 1]]%Z)]
                  eq_refl ltac:(lia) eq_refl ltac:(discriminate)
                  ltac:(repeat constructor))).
Defined.

(** X9.  In the same range the counters after a run of updates, with
    batches of scores [B, C, P] and targets [B', P'] that have as many
    targets as predicted labels, do not depend on the order of the batches:
    every order leaves in entry [k] the integer [n0] plus the sum over the
    batches of their counts for class [k]. *)
Theorem updates_in_any_order :
  forall s0 n0 C P P' bs bs',
    Float32.of_double (IoU32.smooth s0) = Float32.of_int n0 ->
    (0 <= n0)%Z -> (n0 + IoU32.pixels bs < 2 ^ 24)%Z ->
    Forall (fun b => IoU32.shaped C P P' b = true) bs ->
    Permutation bs bs' ->
    IoU32.updates (IoU32.reset s0) bs'
    = Some (IoU32.mk (IoU32.num_classes s0) (IoU32.smooth s0)
              (IoU32.counters n0 (IoU32.total_and bs) (IoU32.num_classes s0))
              (IoU32.counters n0 (IoU32.total_or bs) (IoU32.num_classes s0))).
Proof.
  intros s0 n0 C P0 P' bs bs' Hs Hn0 B Hw P.
  apply shaped_all_well_shaped in Hw.
  pose proof (pixels_nonneg bs) as Hp.
  assert (Hw' : Forall (fun b => well_shaped_batch b = true) bs')
    by (eapply Permutation_Forall; eassumption).
  assert (B' : (n0 + IoU32.pixels bs' < 2 ^ 24)%Z).
  { destruct (totals_permutation bs bs' P 0%nat) as [_ [_ E]]. lia. }
  rewrite (reset32_exact s0 n0 Hs ltac:(lia)).
  rewrite updates32_exact by (auto; intros; lia).
  f_equal. f_equal; apply counters_ext; intros k;
    destruct (totals_permutation bs bs' P k) as [T1 [T2 _]]; lia.
Qed.

Lemma updates_in_any_order_witness :
  IoU32.updates (IoU32.init 2 (S754_zero false))
    [([[[1; 0; 1; 0]; [0; 1; 0; 1]]], [[0; 1; 1; 1]]%Z);
     ([[[0; 0; 0; 0]; [1; 1; 1; 1]]], [[1; 1; 0; 0]]%Z)]
  = Some (IoU32.mk 2 (S754_zero false)
            [Float32.of_int 1; Float32.of_int 4]
            [Float32.of_int 4; Float32.of_int 7]).
Proof.
  apply (updates_in_any_order
           (IoU32.mk 2 (S754_zero false) [] []) 0 2 4 4
           [([[[0; 0; 0; 0]; [1; 1; 1; 1]]], [[1; 1; 0; 0]]%Z);
            ([[[1; 0; 1; 0]; [0; 1; 0; 1]]], [[0; 1; 1; 1]]%Z)]
           [([[[1; 0; 1; 0]; [0; 1; 0; 1]]], [[0; 1; 1; 1]]%Z);
            ([[[0; 0; 0; 0]; [1; 1; 1; 1]]], [[1; 1; 0; 0]]%Z)]
           eq_refl ltac:(lia) eq_refl ltac:(repeat constructor)).
  apply perm_swap.
Defined.

End IoU32Properties.

(** ** Which inputs the layers accept *)

Section LayerDomainFacts.
Import Torch.
Local Open Scope nat_scope.

Lemma bn_guard_inv (training : bool) n :
  negb (training && Nat.eqb n 1) = true -> training = false \/ n <> 1.
Proof.
  destruct training; [|left; reflexivity].
  cbn [andb]. intros H. apply negb_true_iff in H. apply Nat.eqb_neq in H.
  right. exact H.
Qed.

Lemma permute_length dims s : length dims <> length s -> permute dims s = None.
Proof.
  intros H. unfold permute, is_perm.
  rewrite (proj2 (Nat.eqb_neq _ _) H). reflexivity.
Qed.

Lemma EdgeConv_forward_3d self x r :
  EdgeConv.forward self x = Some r -> exists B C N, x = [B; C; N].
Proof.
  unfold EdgeConv.forward.
  destruct x as [|B [|C [|N [|M rest]]]]; ops;
    try (rewrite permute_length by (cbn [length]; lia)); try dead.
  intros _. exists B, C, N. reflexivity.
Qed.

Lemma EdgeConv_forward_needs self B C N r :
  EdgeConv.forward self [B; C; N] = Some r ->
  C = EdgeConv.in_channels self /\ 1 <= EdgeConv.out_channels self
  /\ 1 <= B
  /\ 1 <= EdgeConv.kernel_size self <= N
  /\ (EdgeConv.training self = false
      \/ 1 < B * N * EdgeConv.kernel_size self).
Proof.
  unfold EdgeConv.forward, EdgeConv.conv.
  set (K := EdgeConv.kernel_size self). inv.
  change [Z.of_nat B; (-1)%Z] with (shape_plus_minus1 [B]).
  rewrite (view_minus1_last_exact [B] [B; N; K] (N * K))
    by (cbn [numel fold_right]; lia).
  inv.
  rewrite (view_minus1_last_exact [B; N; K] [B; N * K; C] C)
    by (cbn [numel fold_right]; lia).
  inv.
  all: intros _;
    match goal with H : negb _ = true |- _ => apply bn_guard_inv in H end;
    cbn [numel fold_right] in *;
    repeat split; try lia;
    match goal with
    | H : _ \/ _ |- _ => destruct H as [H|H]; [left; exact H|right; nia]
    end.
Qed.

Lemma XConv_forward_needs self p q x r :
  XConv.forward self p q x = Some r ->
  exists B Np Nq,
    p = [B; Np; 3] /\ q = [B; Nq; 3]
    /\ r = Tuple2 q [B; XConv.out_channels self; Nq]
    /\ 1 <= B /\ 1 <= Nq
    /\ 1 <= XConv.kernel_size self /\ 1 <= XConv.dilation self
    /\ XConv.kernel_size self * XConv.dilation self <= Np
    /\ match x with
       | None => XConv.in_channels self = 0
       | Some xs => exists n, xs = [B; XConv.in_channels self; n]
       end.
Proof.
  unfold XConv.forward, XConv.neighbors, XConv.neighbors_of.
  unfold XConv.slice_every, XConv.shape_index.
  destruct p as [|B [|Np [|D [|? ?]]]]; destruct q as [|B' [|Nq [|D' [|? ?]]]];
    ops; try dead.
  case_if. ops. case_if. unbool. subst B' D'.
  rewrite ceil_div_mul by lia.
  unfold XConv.mlp, XConv.stn, XConv.conv.
  set (K := XConv.kernel_size self) in *.
  set (M := XConv.mid_channels self) in *.
  ops.
  change [Z.of_nat B; (-1)%Z] with (shape_plus_minus1 [B]).
  rewrite (view_minus1_last_exact [B] [B; Nq; K] (Nq * K))
    by (cbn [numel fold_right]; lia).
  inv.
  rewrite (view_minus1_last_exact [B; Nq; K] [B; Nq * K; D] D)
    by (cbn [numel fold_right]; lia).
  inv. subst D. cbn [numel fold_right] in *.
  assert (Hview : view [Z.of_nat B; Z.of_nat K; Z.of_nat K; (-1)%Z]
                   [B; K ^ 2; Nq; 1] = Some [B; K; K; Nq]).
  { change [Z.of_nat B; Z.of_nat K; Z.of_nat K; (-1)%Z]
      with (shape_plus_minus1 [B; K; K]).
    rewrite (view_minus1_last_exact [B; K; K] [B; K ^ 2; Nq; 1] Nq)
      by (cbn [numel fold_right Nat.pow]; ring).
    cond_true. reflexivity. }
  assert (HKK : 1 <= K ^ 2) by (cbn [Nat.pow]; nia).
  destruct x as [xs|].
  - destruct xs as [|B' [|C [|n [|? ?]]]];
      try (rewrite permute_length by (cbn [length]; lia)); try dead.
    ops. case_if. unbool. subst B'. ops.
    rewrite (view_minus1_last_exact [B; Nq; K] [B; Nq * K; C] C)
      by (cbn [numel fold_right]; lia).
    repeat first [progress ops | nz | rewrite Hview | (case_if; unbool)].
    intros [= <-]. exists B, Np, Nq.
    repeat split; try lia. exists n. f_equal. f_equal. lia.
  - repeat first [progress ops | nz | rewrite Hview | (case_if; unbool)].
    intros [= <-]. exists B, Np, Nq.
    repeat split; lia.
Qed.

(** X13.  Whenever [XConv.forward] returns, the reference and the query
    points are batches [B, Np, 3] and [B, Nq, 3] of points with three
    coordinates, the batch and the queries are not empty, kernel size and
    dilation are at least 1, there are at least [K * dilation] reference
    points, the features, if given, have shape [B, in_channels, n], and
    [in_channels] is 0 if none are given; the result is the query points
    with features of shape [B, out_channels, Nq].  So a dilation of 0, or
    fewer than [K * dilation] reference points, always raises. *)
Theorem XConv_forward_requirements self p q x r :
  XConv.forward self p q x = Some r ->
  exists B Np Nq,
    p = [B; Np; 3] /\ q = [B; Nq; 3]
    /\ r = Tuple2 q [B; XConv.out_channels self; Nq]
    /\ 1 <= B /\ 1 <= Nq
    /\ 1 <= XConv.kernel_size self /\ 1 <= XConv.dilation self
    /\ XConv.kernel_size self * XConv.dilation self <= Np
    /\ match x with
       | None => XConv.in_channels self = 0
       | Some xs => exists n, xs = [B; XConv.in_channels self; n]
       end.
Proof. exact (XConv_forward_needs self p q x r). Qed.

Lemma XConv_forward_requirements_witness :
  exists B Np Nq,
    [2; 10; 3]%nat = [B; Np; 3%nat] /\ [2; 5; 3]%nat = [B; Nq; 3%nat]
    /\ (6 <= Np)%nat.
Proof.
  destruct (XConv_forward_requirements
              (XConv.mk 6 8 3 2 true true)
              [2; 10; 3]%nat [2; 5; 3]%nat (Some [2; 6; 10]%nat)
              (Tuple2 [2; 5; 3]%nat [2; 8; 5]%nat) eq_refl)
    as [B [Np [Nq [Hp [Hq [_ [_ [_ [_ [_ [HK _]]]]]]]]]]].
  exists B, Np, Nq. split; [exact Hp|]. split; [exact Hq|exact HK].
Defined.

Lemma SetAbstraction_mlp_from_inv chs : forall last tr b c h w y,
  SetAbstraction.mlp_from last chs tr [b; c; h; w] = Some y ->
  y = [b; if Nat.eqb c 0 then 0 else List.last chs c; h; w]
  /\ (chs <> [] -> c = last).
Proof.
  induction chs as [|c1 chs IH]; intros last tr b c h w y.
  - cbn [SetAbstraction.mlp_from List.last]. intros [= <-].
    split; [|congruence]. destruct (Nat.eqb_spec c 0) as [->|]; reflexivity.
  - cbn [SetAbstraction.mlp_from]. ops. case_if. ops. case_if. ops.
    intros H. apply IH in H. destruct H as [-> _].
    rewrite last_cons_default. unbool. split; [|intros _; assumption].
    destruct (Nat.eqb_spec c 0) as [->|]; [reflexivity|].
    rewrite (proj2 (Nat.eqb_neq c1 0)) by lia. reflexivity.
Qed.

Lemma FeaturePropagation_mlp_from_inv chs : forall last tr b c l y,
  FeaturePropagation.mlp_from last chs tr [b; c; l] = Some y ->
  y = [b; if Nat.eqb c 0 then 0 else List.last chs c; l]
  /\ (chs <> [] -> c = last /\ 1 <= l).
Proof.
  induction chs as [|c1 chs IH]; intros last tr b c l y.
  - cbn [FeaturePropagation.mlp_from List.last]. intros [= <-].
    split; [|congruence]. destruct (Nat.eqb_spec c 0) as [->|]; reflexivity.
  - cbn [FeaturePropagation.mlp_from]. ops. case_if. ops. case_if. ops.
    intros H. apply IH in H. destruct H as [-> _].
    rewrite last_cons_default. unbool.
    split; [|intros _; split; assumption].
    destruct (Nat.eqb_spec c 0) as [->|]; [reflexivity|].
    rewrite (proj2 (Nat.eqb_neq c1 0)) by lia. reflexivity.
Qed.

Lemma cat_last_4_gen a b c d a' b' c' e :
  cat_last [a; b; c; d] [a'; b'; c'; e]
  = if Nat.eqb a a' && Nat.eqb b b' && Nat.eqb c c'
    then Some [a; b; c; d + e] else None.
Proof.
  unfold cat_last, cat_same.
  cbn [is_empty_1d length nth_error Nat.eqb seq forallb nth andb orb firstn
       skipn app].
  destruct (Nat.eqb a a'), (Nat.eqb b b'), (Nat.eqb c c'); reflexivity.
Qed.

Lemma cat_1_3_gen a c n a' c' n' :
  cat 1 [a; c; n] [a'; c'; n']
  = if Nat.eqb a a' && Nat.eqb n n' then Some [a; c + c'; n] else None.
Proof.
  unfold cat, cat_same.
  cbn [is_empty_1d length nth_error Nat.eqb seq forallb nth andb orb firstn
       skipn app].
  destruct (Nat.eqb a a'), (Nat.eqb n n'); reflexivity.
Qed.

Lemma is_empty_1d_spec s : is_empty_1d s = true <-> s = [0].
Proof.
  destruct s as [|n [|m s]]; cbn [is_empty_1d]; split;
    try discriminate; try congruence.
  - intros H. apply Nat.eqb_eq in H. subst n. reflexivity.
  - intros [= ->]. reflexivity.
Qed.

Lemma is_empty_1d_long s : 2 <= length s -> is_empty_1d s = false.
Proof.
  destruct s as [|n [|m s]]; cbn [length is_empty_1d]; [lia|lia|reflexivity].
Qed.

(** What [torch.cat([x, y], dim=1)] accepts beside a 3-D [x]. *)
Lemma cat_1_3_inv a c n y r :
  cat 1 [a; c; n] y = Some r ->
  (y = [0] /\ r = [a; c; n])
  \/ exists c', y = [a; c'; n] /\ r = [a; c + c'; n].
Proof.
  unfold cat. destruct (is_empty_1d y) eqn:E.
  - apply is_empty_1d_spec in E. intros [= <-]. left. auto.
  - cbn [is_empty_1d]. destruct y as [|a' [|c' [|n' [|? ?]]]];
      try (unfold cat_same; cbn [nth_error length Nat.eqb andb]; discriminate).
    fold (cat 1 [a; c; n] [a'; c'; n']).
    change (cat_same 1 [a; c; n] [a'; c'; n'])
      with (cat 1 [a; c; n] [a'; c'; n']).
    rewrite cat_1_3_gen. case_if. unbool. subst a' n'.
    intros [= <-]. right. exists c'. auto.
Qed.

Lemma unsqueeze_length d s r :
  unsqueeze d s = Some r -> length r = S (length s) /\ d <= length s.
Proof.
  unfold unsqueeze. destruct (Nat.leb_spec d (length s)); [|discriminate].
  intros [= <-]. split; [|assumption]. rewrite length_app. cbn [length].
  rewrite <- (firstn_skipn d s) at 3. rewrite length_app. lia.
Qed.

Lemma cat_last_length a b r :
  2 <= length a -> 2 <= length b ->
  cat_last a b = Some r -> length r = length a /\ length b = length a.
Proof.
  intros Ha Hb. unfold cat_last.
  rewrite (is_empty_1d_long a Ha), (is_empty_1d_long b Hb).
  destruct (length a) as [|n] eqn:La; [discriminate|].
  unfold cat_same. destruct (nth_error a n); [|discriminate].
  destruct (nth_error b n); [|discriminate].
  rewrite La. case_if. intros [= <-]. unbool.
  split; [|lia].
  rewrite length_app, length_firstn.
  match goal with
  | |- context [length (?x :: ?l)] =>
      change (length (x :: l)) with (S (length l))
  end.
  change (match a with [] => [] | _ :: l => skipn n l end)
    with (skipn (S n) a).
  rewrite length_skipn. lia.
Qed.

Lemma permute_Some_length dims s r :
  permute dims s = Some r -> length s = length dims.
Proof.
  intros H. destruct (Nat.eq_dec (length dims) (length s)) as [E|E]; [lia|].
  rewrite permute_length in H by exact E. discriminate H.
Qed.

Lemma length_3 {A : Type} (l : list A) :
  length l = 3 -> exists a b c, l = [a; b; c].
Proof.
  destruct l as [|a [|b [|c [|? ?]]]]; try discriminate.
  intros _. exists a, b, c. reflexivity.
Qed.

Lemma SetAbstraction_group_all_3d self p q x v :
  SetAbstraction.radius self = None ->
  SetAbstraction.forward self p q x = Some v ->
  (exists B N D, p = [B; N; D])
  /\ forall xs, x = Some xs -> exists a b c, xs = [a; b; c].
Proof.
  intros Hr. unfold SetAbstraction.forward. rewrite Hr. intros H.
  step H E0. step H Eg. step Eg Eu. injection Eg as <-. cbv beta iota in H.
  step H Ex. step H Ep. apply permute_Some_length in Ep. cbn [length] in Ep.
  apply unsqueeze_length in Eu. destruct Eu as [Eu Eu'].
  destruct x as [xs|].
  - step Ex Ev. apply unsqueeze_length in Ev. destruct Ev as [Ev Ev'].
    apply cat_last_length in Ex; try lia. destruct Ex as [Ex Ex'].
    split; [apply length_3; lia|].
    intros xs' [= <-]. apply length_3. lia.
  - injection Ex as <-. split; [apply length_3; lia|]. intros xs [=].
Qed.

(** X15.  Whenever [SetAbstraction.forward] returns in group-all mode
    ([radius = None]), the points are a batch [B, N, D], the pooling width
    [k] lies between 1 and [N], the features, if given, have the points
    before the channels, shape [B, N, C], and the first convolution, if
    there is one, takes [D + C] channels; the query points are returned as
    they are, with [N / k] pooled vectors for each batch element. *)
Theorem SetAbstraction_group_all_requirements self p q x v :
  SetAbstraction.radius self = None ->
  SetAbstraction.forward self p q x = Some v ->
  exists B N D kk C,
    p = [B; N; D]
    /\ SetAbstraction.k self = Some kk /\ 1 <= kk <= N
    /\ match x with
       | None => C = 0
       | Some xs => xs = [B; N; C]
       end
    /\ (SetAbstraction.mlp_channels self <> [] ->
        SetAbstraction.in_channels self = D + C)
    /\ v = Tuple2 q
             (if Nat.eqb (N / kk) 1
              then [B; List.last (SetAbstraction.mlp_channels self) (D + C); 1]
              else [B; List.last (SetAbstraction.mlp_channels self) (D + C);
                    1; N / kk]).
Proof.
  intros Hr H.
  destruct (SetAbstraction_group_all_3d self p q x v Hr H)
    as [[B [N [D ->]]] Hx].
  revert H. unfold SetAbstraction.forward, SetAbstraction.mlp,
    SetAbstraction.maxpool. rewrite Hr. ops.
  destruct x as [xs|].
  - destruct (Hx xs eq_refl) as [a [b [c ->]]]. ops.
    rewrite cat_last_4_gen. case_if. ops. unbool. subst a b.
    destruct (SetAbstraction.mlp_from _ _ _ _) as [y|] eqn:Em; [|dead].
    apply SetAbstraction_mlp_from_inv in Em. destruct Em as [-> Hin].
    destruct (SetAbstraction.k self) as [kk|]; ops; [|dead].
    case_if. ops. unbool.
    destruct (Nat.eqb_spec (D + c) 0) as [E0|E0]; [lia|].
    rewrite pool_width by lia.
    intros [= <-]. exists B, N, D, kk, c.
    repeat split; try lia; try reflexivity.
    intros Hne. symmetry. apply Hin. exact Hne.
  - ops.
    destruct (SetAbstraction.mlp_from _ _ _ _) as [y|] eqn:Em; [|dead].
    apply SetAbstraction_mlp_from_inv in Em. destruct Em as [-> Hin].
    destruct (SetAbstraction.k self) as [kk|]; ops; [|dead].
    case_if. ops. unbool.
    destruct (Nat.eqb_spec D 0) as [E0|E0]; [lia|].
    rewrite pool_width by lia.
    intros [= <-]. exists B, N, D, kk, 0. rewrite Nat.add_0_r.
    repeat split; try lia; try reflexivity.
    intros Hne. symmetry. apply Hin. exact Hne.
Qed.

Lemma SetAbstraction_group_all_requirements_witness :
  exists B N D kk C,
    [2; 4; 3]%nat = [B; N; D] /\ Some [2; 4; 5]%nat = Some [B; N; C]
    /\ (kk <= N)%nat.
Proof.
  destruct (SetAbstraction_group_all_requirements
              (SetAbstraction.mk 8 [16]%nat None (Some 4%nat) true true)
              [2; 4; 3]%nat [2; 1; 3]%nat (Some [2; 4; 5]%nat)
              (Tuple2 [2; 1; 3]%nat [2; 16; 1]%nat) eq_refl eq_refl)
    as [B [N [D [kk [C [Hp [_ [Hk [Hx _]]]]]]]]].
  exists B, N, D, kk, C. split; [exact Hp|]. split; [f_equal; exact Hx|lia].
Defined.

Lemma ball_point_needs_k p q r : F.ball_point p q r None = None.
Proof.
  destruct p as [|? [|? [|? [|? ?]]]]; destruct q as [|? [|? [|? [|? ?]]]];
    reflexivity.
Qed.

(** X16.  Whenever [SetAbstraction.forward] returns in radius mode, points
    and query points are batches [B, Np, D] and [B, Nq, D], [k] is set and
    at least 1, the batch and the queries are not empty, the features, if
    given, have the channels before the points, shape [B, C, n], and the
    first convolution, if there is one, takes [D + C] channels; the result
    is the query points with one pooled vector for each of them, features
    of shape [B, C', Nq]. *)
Theorem SetAbstraction_radius_requirements self p q x v r :
  SetAbstraction.radius self = Some r ->
  SetAbstraction.forward self p q x = Some v ->
  exists B Np Nq D kk C,
    p = [B; Np; D] /\ q = [B; Nq; D]
    /\ SetAbstraction.k self = Some kk
    /\ 1 <= B /\ 1 <= Nq /\ 1 <= kk
    /\ match x with
       | None => C = 0
       | Some xs => exists n, xs = [B; C; n]
       end
    /\ (SetAbstraction.mlp_channels self <> [] ->
        SetAbstraction.in_channels self = D + C)
    /\ v = Tuple2 q
             [B; List.last (SetAbstraction.mlp_channels self) (D + C); Nq].
Proof.
  intros Hr. unfold SetAbstraction.forward, SetAbstraction.mlp,
    SetAbstraction.maxpool. rewrite Hr.
  destruct (SetAbstraction.k self) as [kk|] eqn:Hk;
    [|rewrite ball_point_needs_k; destruct (shape0 p); dead].
  destruct p as [|B [|Np [|D [|? ?]]]]; destruct q as [|B' [|Nq [|D' [|? ?]]]];
    ops; try dead.
  case_if. ops. unbool. subst B' D'.
  change [Z.of_nat B; (-1)%Z] with (shape_plus_minus1 [B]).
  rewrite (view_minus1_last_exact [B] [B; Nq; kk] (Nq * kk))
    by (cbn [numel fold_right]; lia).
  case_if. ops.
  rewrite (view_minus1_last_exact [B; Nq; kk] [B; Nq * kk; D] D)
    by (cbn [numel fold_right]; lia).
  case_if. ops. unbool. cbn [numel fold_right] in *.
  destruct x as [xs|].
  - destruct xs as [|B' [|C [|n [|? ?]]]];
      try (rewrite permute_length by (cbn [length]; lia)); try dead.
    ops.
    rewrite (view_minus1_last_exact [B] [B; Nq; kk] (Nq * kk))
      by (cbn [numel fold_right]; lia).
    cond_true. ops. case_if. unbool. subst B'. ops.
    rewrite (view_minus1_last_exact [B; Nq; kk] [B; Nq * kk; C] C)
      by (cbn [numel fold_right]; lia).
    cond_true. ops.
    destruct (SetAbstraction.mlp_from _ _ _ _) as [y|] eqn:Em; [|dead].
    apply SetAbstraction_mlp_from_inv in Em. destruct Em as [-> Hin].
    ops. case_if. ops. unbool.
    destruct (Nat.eqb_spec (D + C) 0) as [E0|E0]; [lia|].
    rewrite Nat.sub_diag, Nat.Div0.div_0_l.
    cbn [Nat.add Nat.eqb]. intros [= <-].
    exists B, Np, Nq, D, kk, C. repeat split; try lia.
    + exists n. reflexivity.
    + intros Hne. symmetry. apply Hin. exact Hne.
  - ops.
    destruct (SetAbstraction.mlp_from _ _ _ _) as [y|] eqn:Em; [|dead].
    apply SetAbstraction_mlp_from_inv in Em. destruct Em as [-> Hin].
    ops. case_if. ops. unbool.
    destruct (Nat.eqb_spec D 0) as [E0|E0]; [lia|].
    rewrite Nat.sub_diag, Nat.Div0.div_0_l.
    cbn [Nat.add Nat.eqb]. intros [= <-].
    exists B, Np, Nq, D, kk, 0. rewrite Nat.add_0_r.
    repeat split; try lia.
    intros Hne. symmetry. apply Hin. exact Hne.
Qed.

Lemma SetAbstraction_radius_requirements_witness :
  exists B Np Nq D,
    [2; 10; 3]%nat = [B; Np; D] /\ [2; 5; 3]%nat = [B; Nq; D].
Proof.
  destruct (SetAbstraction_radius_requirements
              (SetAbstraction.mk 9 [8; 16]%nat (Some (1 # 5)) (Some 4%nat)
                 true true)
              [2; 10; 3]%nat [2; 5; 3]%nat (Some [2; 6; 10]%nat)
              (Tuple2 [2; 5; 3]%nat [2; 16; 5]%nat) (1 # 5) eq_refl eq_refl)
    as [B [Np [Nq [D [kk [C [Hp [Hq _]]]]]]]].
  exists B, Np, Nq, D. split; [exact Hp|exact Hq].
Defined.

(** X17.  For a [FeaturePropagation] with at least one input channel:
    whenever [forward] returns, points and query points are batches
    [B, Np, D] and [B, Nq, D] with at least [k] points, the features have
    shape [B, C, n], the skip features, if given, either are a 1-D tensor
    of size 0, which [torch.cat] leaves out, or have shape [B, C2, Nq], and
    the first convolution, if there is one, takes [C + C2] channels; the
    result is the query points with features for every query point, of
    shape [B, C', Nq]. *)
Theorem FeaturePropagation_forward_requirements self p q x y v :
  1 <= FeaturePropagation.in_channels self ->
  FeaturePropagation.forward self p q x y = Some v ->
  exists B Np Nq D C n C2,
    p = [B; Np; D] /\ q = [B; Nq; D] /\ x = [B; C; n]
    /\ FeaturePropagation.k self <= Np
    /\ match y with
       | None => C2 = 0
       | Some ys => (ys = [0] /\ C2 = 0) \/ ys = [B; C2; Nq]
       end
    /\ (FeaturePropagation.mlp_channels self <> [] ->
        FeaturePropagation.in_channels self = C + C2 /\ 1 <= Nq)
    /\ v = Tuple2 q
             [B; List.last (FeaturePropagation.mlp_channels self) (C + C2);
              Nq].
Proof.
  intros Hin1.
  unfold FeaturePropagation.forward, FeaturePropagation.mlp.
  destruct p as [|B [|Np [|D [|? ?]]]]; destruct q as [|B' [|Nq [|D' [|? ?]]]];
    ops; try dead.
  case_if. ops. unbool. subst B' D'.
  destruct x as [|B' [|C [|n [|? ?]]]]; ops; try dead.
  case_if. ops. unbool. subst B'.
  assert (Hend : forall C2 z,
    FeaturePropagation.mlp_from (FeaturePropagation.in_channels self)
      (FeaturePropagation.mlp_channels self)
      (FeaturePropagation.training self) [B; C + C2; Nq] = Some z ->
    (FeaturePropagation.mlp_channels self <> [] ->
     FeaturePropagation.in_channels self = C + C2 /\ 1 <= Nq)
    /\ z = [B; List.last (FeaturePropagation.mlp_channels self) (C + C2);
            Nq]).
  { intros C2 z Em.
    apply FeaturePropagation_mlp_from_inv in Em. destruct Em as [-> Hin].
    split.
    - intros Hne. destruct (Hin Hne). split; [lia|assumption].
    - destruct (FeaturePropagation.mlp_channels self) as [|c1 chs] eqn:Ec.
      + cbn [List.last].
        destruct (Nat.eqb_spec (C + C2) 0) as [->|]; reflexivity.
      + destruct (Hin ltac:(discriminate)) as [Hc _].
        rewrite (proj2 (Nat.eqb_neq (C + C2) 0)) by lia. reflexivity. }
  destruct y as [ys|].
  - destruct (cat 1 [B; C; Nq] ys) as [z0|] eqn:Ecat; [|dead].
    apply cat_1_3_inv in Ecat.
    destruct Ecat as [[-> ->] | [C2 [-> ->]]]; ops.
    + destruct (FeaturePropagation.mlp_from _ _ _ _) as [z|] eqn:Em; [|dead].
      replace C with (C + 0) in Em by lia.
      apply Hend in Em. destruct Em as [Hne ->].
      ops. intros [= <-]. exists B, Np, Nq, D, C, n, 0.
      repeat split; try lia; auto; apply Hne; assumption.
    + destruct (FeaturePropagation.mlp_from _ _ _ _) as [z|] eqn:Em; [|dead].
      apply Hend in Em. destruct Em as [Hne ->].
      ops. intros [= <-]. exists B, Np, Nq, D, C, n, C2.
      repeat split; try lia; auto; apply Hne; assumption.
  - ops.
    destruct (FeaturePropagation.mlp_from _ _ _ _) as [z|] eqn:Em; [|dead].
    replace C with (C + 0) in Em by lia.
    apply Hend in Em. destruct Em as [Hne ->].
    ops. intros [= <-]. exists B, Np, Nq, D, C, n, 0.
    repeat split; try lia; auto; apply Hne; assumption.
Qed.

Lemma FeaturePropagation_forward_requirements_witness :
  exists B Np Nq D,
    [2; 5; 3]%nat = [B; Np; D] /\ [2; 10; 3]%nat = [B; Nq; D]
    /\ (3 <= Np)%nat.
Proof.
  destruct (FeaturePropagation_forward_requirements
              (FeaturePropagation.mk 9 [8; 16]%nat 3 true true)
              [2; 5; 3]%nat [2; 10; 3]%nat [2; 6; 5]%nat
              (Some [2; 3; 10]%nat)
              (Tuple2 [2; 10; 3]%nat [2; 16; 10]%nat)
              ltac:(cbn; lia) eq_refl)
    as [B [Np [Nq [D [C [n [C2 [Hp [Hq [_ [Hk _]]]]]]]]]]].
  exists B, Np, Nq, D. split; [exact Hp|]. split; [exact Hq|exact Hk].
Defined.

(** Skip features that are a 1-D tensor of size 0 are accepted. *)
Example FeaturePropagation_empty_skip :
  FeaturePropagation.forward (FeaturePropagation.mk 6 [8; 16] 3 true true)
    [2; 5; 3] [2; 10; 3] [2; 6; 5] (Some [0])
  = Some (Tuple2 [2; 10; 3] [2; 16; 10]).
Proof. reflexivity. Qed.

End LayerDomainFacts.

(** ** Order and size of the interpolation weights *)

Section WeightOrderFacts.
Import Tensor1 FeaturePropagation.
Local Open Scope Q_scope.

Lemma nth_map_lt {A B : Type} (f : A -> B) l i d d' :
  (i < length l)%nat -> nth i (map f l) d' = f (nth i l d).
Proof.
  intros H. rewrite (nth_indep _ d' (f d)) by (rewrite length_map; exact H).
  apply map_nth.
Qed.

Lemma weights_row_nth l i :
  (i < length l)%nat ->
  nth i (weights_row l) 0
  = / (if Qlt_bool (nth i l 0) eps then eps else nth i l 0)
    / torch_sum (reciprocal (clamp l)).
Proof.
  intros H. unfold weights_row, normalize.
  rewrite (nth_map_lt _ _ i 0 0)
    by (unfold reciprocal, clamp; rewrite !length_map; exact H).
  unfold reciprocal at 1.
  rewrite (nth_map_lt _ _ i 0 0) by (unfold clamp; rewrite length_map; exact H).
  unfold clamp at 1. rewrite (nth_map_lt _ _ i 0 0) by exact H.
  reflexivity.
Qed.

Lemma Qinv_antitone a b : 0 < a -> a <= b -> / b <= / a.
Proof.
  intros Ha Hab. assert (Hb : 0 < b) by lra.
  apply Qle_shift_inv_l; [exact Ha|].
  setoid_replace (/ b * a) with (a / b) by (unfold Qdiv; ring).
  apply Qle_shift_div_r; [exact Hb|]. lra.
Qed.

Lemma elem_le_sum r :
  Forall (fun w => 0 < w) r -> Forall (fun w => w <= torch_sum r) r.
Proof.
  induction 1 as [|a r Ha H IH]; constructor.
  - cbn [torch_sum]. pose proof (torch_sum_nonneg r H). lra.
  - eapply Forall_impl; [|exact IH]. cbn beta. intros w Hw.
    cbn [torch_sum]. lra.
Qed.

(** X18.  Among the neighbours of one query point a closer one never gets
    a smaller interpolation weight than a farther one. *)
Theorem closer_neighbour_weighs_more l i j :
  (i < length l)%nat -> (j < length l)%nat ->
  nth i l 0 <= nth j l 0 ->
  nth j (weights_row l) 0 <= nth i (weights_row l) 0.
Proof.
  intros Hi Hj Hle.
  rewrite (weights_row_nth l i Hi), (weights_row_nth l j Hj).
  pose proof (reciprocal_clamp_pos l) as Hpos.
  pose proof (torch_sum_nonneg _ Hpos) as HS.
  set (S := torch_sum (reciprocal (clamp l))) in *. clearbody S.
  destruct (clamp_entry (nth i l 0)) as [Ei Hei].
  destruct (clamp_entry (nth j l 0)) as [Ej Hej].
  set (ci := if Qlt_bool (nth i l 0) eps then eps else nth i l 0) in *.
  set (cj := if Qlt_bool (nth j l 0) eps then eps else nth j l 0) in *.
  unfold Qdiv. apply Qmult_le_compat_r; [|apply Qinv_le_0_compat; exact HS].
  apply Qinv_antitone.
  - pose proof eps_pos. lra.
  - rewrite Ei, Ej. apply Q.max_le_compat_r. exact Hle.
Qed.

Lemma closer_neighbour_weighs_more_witness :
  nth 0 (FeaturePropagation.weights_row [1; 0; 1 # 2]) 0
  <= nth 1 (FeaturePropagation.weights_row [1; 0; 1 # 2]) 0.
Proof.
  apply (closer_neighbour_weighs_more [1; 0; 1 # 2] 1 0).
  - cbn [length]. lia.
  - cbn [length]. lia.
  - cbn [nth]. discriminate.
Defined.

(** X19.  Every interpolation weight lies between 0 and 1. *)
Theorem weights_inside_unit_interval l :
  Forall (fun w => 0 <= w /\ w <= 1) (weights_row l).
Proof.
  unfold weights_row, normalize.
  pose proof (reciprocal_clamp_pos l) as Hpos.
  set (r := reciprocal (clamp l)) in *. clearbody r.
  apply Forall_map. apply Forall_forall. intros w Hw.
  pose proof (proj1 (Forall_forall _ _) Hpos w Hw) as H0. cbn beta in H0.
  pose proof (proj1 (Forall_forall _ _) (elem_le_sum r Hpos) w Hw) as H1.
  cbn beta in H1.
  assert (HS : 0 < torch_sum r) by lra.
  split.
  - apply Qlt_le_weak. unfold Qdiv. apply Qmult_lt_0_compat; [exact H0|].
    apply Qinv_lt_0_compat. exact HS.
  - apply Qle_shift_div_r; [exact HS|]. lra.
Qed.

End WeightOrderFacts.

(** ** The subsampling on rows of any length *)

Section SliceFacts.

Lemma slice_from_all {A : Type} (row : list A) : XConv.slice_from 0 0 row = row.
Proof.
  induction row as [|a row IH]; cbn [XConv.slice_from]; [reflexivity|].
  rewrite IH. reflexivity.
Qed.

End SliceFacts.

(** ** Further properties of the layers *)

Section LayerProperties.
Import Torch.

(** X12.  An [EdgeConv] with at least one input channel returns exactly
    on the inputs of shape [B, in_channels, N] with a non-empty batch, a
    kernel size between 1 and [N], at least one output channel and, in
    training mode, more than one value per channel for the batch
    normalisation; what it returns is then the tensor of shape
    [B, out_channels, N].  On every other input it raises. *)
Theorem EdgeConv_forward_exactly_when :
  forall self x r,
    (1 <= EdgeConv.in_channels self)%nat ->
    (EdgeConv.forward self x = Some r
     <-> exists B N,
           x = [B; EdgeConv.in_channels self; N]
           /\ r = Tensor [B; EdgeConv.out_channels self; N]
           /\ (1 <= B)%nat
           /\ (1 <= EdgeConv.kernel_size self <= N)%nat
           /\ (1 <= EdgeConv.out_channels self)%nat
           /\ (EdgeConv.training self = false
               \/ (1 < B * N * EdgeConv.kernel_size self)%nat)).
Proof.
  intros self x r Hin. split.
  - intros H. destruct (EdgeConv_forward_3d self x r H) as [B [C [N ->]]].
    destruct (EdgeConv_forward_needs self B C N r H)
      as [HC [HO [HB [HK HT]]]].
    exists B, N. rewrite <- HC.
    split; [reflexivity|]. split; [|auto].
    apply (EdgeConv_forward_only self B C N r); [lia|exact H].
  - intros [B [N [-> [-> [HB [HK [HO HT]]]]]]].
    apply EdgeConv_forward_ok; auto.
Qed.

Lemma EdgeConv_forward_exactly_when_witness :
  exists B N, [2; 3; 4]%nat = [B; 3%nat; N] /\ (2 <= N)%nat.
Proof.
  destruct (proj1 (EdgeConv_forward_exactly_when
                     (EdgeConv.mk 3 8 2 true true) [2; 3; 4]%nat
                     (Tensor [2; 8; 4]%nat) ltac:(cbn; lia)) eq_refl)
    as [B [N [Hx [_ [_ [HK _]]]]]].
  exists B, N. split; [exact Hx|]. cbn in HK. lia.
Defined.

(** X14.  A [SetAbstraction] constructed without [k] (the default
    [k = None]) cannot be called: [forward] raises on every input, in
    group-all mode and in radius mode. *)
Theorem SetAbstraction_without_k_raises :
  forall self p q x,
    SetAbstraction.k self = None ->
    SetAbstraction.forward self p q x = None.
Proof.
  intros self p q x Hk.
  destruct (SetAbstraction.forward self p q x) as [v|] eqn:H; [|reflexivity].
  exfalso. unfold SetAbstraction.forward in H.
  step H E0. step H Eg.
  destruct (SetAbstraction.radius self) as [r|].
  - rewrite Hk, ball_point_needs_k in Eg. discriminate Eg.
  - match type of H with
    | context [match ?a with pair _ _ => _ end] => destruct a as [x_hat grouped]
    end.
    step H Ex. step H Ep. step H Em. step H Epool.
    unfold SetAbstraction.maxpool in Epool. rewrite Hk in Epool.
    discriminate Epool.
Qed.

Lemma SetAbstraction_without_k_raises_witness :
  SetAbstraction.forward
    (SetAbstraction.mk 3 [8]%nat None None true true)
    [2; 4; 3]%nat [2; 1; 3]%nat None
  = None.
Proof.
  apply (SetAbstraction_without_k_raises
           (SetAbstraction.mk 3 [8]%nat None None true true)
           [2; 4; 3]%nat [2; 1; 3]%nat None).
  reflexivity.
Defined.

(** X20.  The subsampling [index[..., ::d]] of a row of any length raises
    for [d = 0]; for [d >= 1] it keeps the entries at the positions 0, [d],
    2 * [d], ... and no other, which are (n + d - 1) / d entries of a row
    of [n], the size the shape rule gives; for [d = 1] the row is kept as
    it is. *)
Theorem dilated_slice_keeps_multiples :
  forall (d : nat) (row : list Z),
    (d = 0%nat -> XConv.slice_step d row = None)
    /\ ((1 <= d)%nat ->
        exists kept,
          XConv.slice_step d row = Some kept
          /\ length kept = Nat.div (length row + d - 1) d
          /\ (forall i, nth_error kept i = nth_error row (i * d))
          /\ (forall a b,
                slice_last_step d [a; b; length row]
                = Some [a; b; length kept])
          /\ (d = 1%nat -> kept = row)).
Proof.
  intros d row. split.
  - intros ->. reflexivity.
  - intros Hd. destruct d as [|gap]; [lia|].
    exists (XConv.slice_from 0 gap row).
    split; [reflexivity|]. split; [|split; [|split]].
    + rewrite slice_from_length. f_equal. lia.
    + intros i. rewrite slice_from_nth_error. reflexivity.
    + intros a b. apply slice_last_step_counts. reflexivity.
    + intros [= ->]. apply slice_from_all.
Qed.

Lemma dilated_slice_keeps_multiples_witness :
  exists kept,
    XConv.slice_step 3 [4; 7; 1; 0; 9; 3; 8]%Z = Some kept
    /\ length kept = 3%nat
    /\ nth_error kept 2 = Some 8%Z.
Proof.
  destruct (proj2 (dilated_slice_keeps_multiples 3 [4; 7; 1; 0; 9; 3; 8]%Z)
              ltac:(lia))
    as [kept [H [Hlen [Hnth _]]]].
  exists kept. split; [exact H|]. split; [exact Hlen|exact (Hnth 2%nat)].
Defined.

(** C7.  The first two statements of [XConv.forward], with kernel size [K]
    and dilation [d], ask the neighbour search for [K * d] neighbours and
    slice the index they get with step [d].  On the entries, whatever
    [knn] is, as long as it gives [K * d] indices for each query point when
    asked to: the statements return only if [d >= 1] and [knn] returns for
    [K * d]; they do return then; and what they leave of the row of each
    query point are the [K] entries at positions 0, [d], 2 * [d], ... and
    no other.  On the shapes, as [forward] follows them: the search
    returns exactly when points and query points are batches [B, Np, D]
    and [B, Nq, D], [d >= 1] and [K * d <= Np], and leaves an index of
    shape [B, Nq, K]; [forward] returns only if the search does, and then
    [Nq * K] indices for each batch element go into the gather and one
    feature vector comes out for each query point. *)
Theorem XConv_dilated_neighbors :
  forall self,
    let K := XConv.kernel_size self in
    let d := XConv.dilation self in
    (forall knn : nat -> option (list (list (list Q))
                                 * list (list (list Z))),
       (forall sqdist index,
          knn (K * d)%nat = Some (sqdist, index) ->
          Forall (Forall (fun row => length row = (K * d)%nat)) index) ->
       (forall kept,
          XConv.neighbors_of knn self = Some kept ->
          (1 <= d)%nat
          /\ exists sqdist index,
               knn (K * d)%nat = Some (sqdist, index)
               /\ Forall2
                    (Forall2 (fun row row' =>
                                length row' = K
                                /\ forall i, nth_error row' i
                                             = nth_error row (i * d)))
                    index kept)
       /\ ((1 <= d)%nat ->
           forall sqdist index,
             knn (K * d)%nat = Some (sqdist, index) ->
             exists kept, XConv.neighbors_of knn self = Some kept)
       /\ (d = 0%nat -> XConv.neighbors_of knn self = None))
    /\ (forall p q index,
          XConv.neighbors self p q = Some index
          <-> exists B Np Nq D,
                p = [B; Np; D] /\ q = [B; Nq; D]
                /\ (1 <= d)%nat /\ (K * d <= Np)%nat
                /\ index = [B; Nq; K])
    /\ (forall p q x r,
          XConv.forward self p q x = Some r ->
          exists B Nq,
            XConv.neighbors self p q = Some [B; Nq; K]
            /\ view [Z.of_nat B; -1]%Z [B; Nq; K] = Some [B; (Nq * K)%nat]
            /\ r = Tuple2 q [B; XConv.out_channels self; Nq]).
Proof.
  intros self K d.
  assert (Hslice : (1 <= d)%nat ->
            forall index : list (list (list Z)),
              Forall (Forall (fun row => length row = (K * d)%nat)) index ->
              exists kept,
                XConv.slice_entries d index = Some kept
                /\ Forall2
                     (Forall2 (fun row row' =>
                                 length row' = K
                                 /\ forall i, nth_error row' i
                                              = nth_error row (i * d)))
                     index kept).
  { intros Hd index Hrows. unfold XConv.slice_entries.
    rewrite (proj2 (Nat.eqb_neq d 0)) by lia.
    apply mapM_Forall2.
    eapply Forall_impl; [|exact Hrows]. intros rows Hr.
    apply mapM_Forall2. eapply Forall_impl; [|exact Hr].
    intros row Hlen.
    destruct (slice_step_spec row K d Hd Hlen) as [kept [E [Hl _]]].
    exists kept. split; [exact E|]. split; [exact Hl|].
    intros i. destruct d as [|gap]; [lia|].
    cbn [XConv.slice_step] in E. injection E as <-.
    rewrite slice_from_nth_error. reflexivity. }
  split; [|split].
  - intros knn Hknn.
    unfold XConv.neighbors_of, XConv.slice_every, XConv.entries_index.
    fold K d. split; [|split].
    + intros kept H.
      destruct (knn (K * d)%nat) as [[sqdist index]|] eqn:E;
        cbn [bind] in H; [|discriminate].
      assert (Hd : (1 <= d)%nat).
      { destruct d as [|gap]; [|lia]. cbn in H. discriminate. }
      split; [exact Hd|]. exists sqdist, index. split; [reflexivity|].
      destruct (Hslice Hd index (Hknn sqdist index eq_refl))
        as [kept' [E' HR]].
      rewrite E' in H. injection H as <-. exact HR.
    + intros Hd sqdist index E. rewrite E. cbn [bind].
      destruct (Hslice Hd index (Hknn sqdist index E)) as [kept [E' _]].
      exists kept. exact E'.
    + intros Hd. rewrite Hd.
      destruct (knn (K * 0)%nat) as [[sqdist index]|]; reflexivity.
  - intros p q index. split.
    + unfold XConv.neighbors, XConv.neighbors_of.
      unfold XConv.slice_every, XConv.shape_index. fold K d.
      destruct p as [|B [|Np [|D [|? ?]]]];
        destruct q as [|B' [|Nq [|D' [|? ?]]]]; ops; try dead.
      case_if. ops. case_if. unbool. subst B' D'.
      intros [= <-]. exists B, Np, Nq, D.
      rewrite ceil_div_mul by lia.
      repeat split; try reflexivity; lia.
    + intros [B [Np [Nq [D [-> [-> [Hd [HK ->]]]]]]]].
      apply (XConv_neighbors_ok self B Np Nq D Hd HK).
  - intros p q x r H.
    destruct (XConv_forward_needs self p q x r H)
      as [B [Np [Nq [-> [-> [-> [HB [HNq [HK [Hd [HKd _]]]]]]]]]]].
    exists B, Nq. split; [|split; [|reflexivity]].
    + apply (XConv_neighbors_ok self B Np Nq 3 Hd HKd).
    + change [Z.of_nat B; (-1)%Z] with (shape_plus_minus1 [B]).
      rewrite (view_minus1_last_exact [B] [B; Nq; K] (Nq * K))
        by (cbn [numel fold_right]; lia).
      rewrite (proj2 (Nat.ltb_lt 0 (numel [B])))
        by (cbn [numel fold_right]; lia).
      reflexivity.
Qed.

Lemma XConv_dilated_neighbors_witness :
  (1 <= 2)%nat
  /\ exists sqdist index,
       (fun k : nat =>
          if Nat.eqb k 6
          then Some ([[[0; 1; 2; 3; 4; 5]; [0; 1; 1; 2; 2; 3]]],
                     [[[4; 7; 1; 0; 9; 3]; [2; 5; 8; 6; 0; 1]]]%Z)
          else None) (3 * 2)%nat = Some (sqdist, index)
       /\ Forall2
            (Forall2 (fun row row' =>
                        length row' = 3%nat
                        /\ forall i, nth_error row' i
                                     = nth_error row (i * 2)))
            index [[[4; 1; 9]; [2; 8; 0]]]%Z.
Proof.
  apply (proj1 (proj1 (XConv_dilated_neighbors (XConv.mk 0 8 3 2 true true))
                  (fun k : nat =>
                     if Nat.eqb k 6
                     then Some ([[[0; 1; 2; 3; 4; 5]; [0; 1; 1; 2; 2; 3]]],
                                [[[4; 7; 1; 0; 9; 3]; [2; 5; 8; 6; 0; 1]]]%Z)
                     else None)
                  ltac:(intros sqdist index [= _ <-]; repeat constructor))
               [[[4; 1; 9]; [2; 8; 0]]]%Z).
  reflexivity.
Defined.

End LayerProperties.
